(** * Curve evaluators of iscg2024-assignment-m1

    A shallow embedding of the curve evaluation core of the repository
    ([bezier.ts], [bspline.ts], [catmull-rom.ts]) and the properties its
    specification states about it.

    Numbers are modelled as exact reals: a JavaScript [number] is [R], and
    the rounding of IEEE arithmetic (and of the [Float32Array] behind a
    gl-matrix [vec3]) is left out.  Arrays are lists; [a.push(x)] appends at
    the end, [a.pop()] removes the last element, [a[i] = x] is stdpp's list
    insert.  A [throw] is a value of the [outcome] type. *)

From Stdlib Require Import Reals Lra Lia String.
From stdpp Require Import base list.

(** ** Results of a call *)

Inductive error : Type :=
  | Error (msg : string)   (* [throw new Error(msg)] *)
  | OutOfRange             (* an element read past the end of an array:
                              JavaScript yields [undefined] there; the
                              embedding stops at such a read, and the
                              properties below show that none occurs *)
  | OutOfFuel.             (* embedding only: the iteration budget of a
                              [while] loop ran out *)

Inductive outcome (A : Type) : Type :=
  | Ok (a : A)
  | Raise (e : error).
Arguments Ok {A} a.
Arguments Raise {A} e.

Definition bind {A B : Type} (m : outcome A) (k : A → outcome B) : outcome B :=
  match m with
  | Ok a => k a
  | Raise e => Raise e
  end.

Notation "'let*' x ':=' m 'in' k" := (bind m (fun x => k))
  (at level 10, x name, m at level 100, k at level 200,
   format "'[v' 'let*'  x  ':='  m  'in'  '/' k ']'").

(** [l[i]], read. *)
Definition get {A : Type} (l : list A) (i : nat) : outcome A :=
  match l !! i with
  | Some a => Ok a
  | None => Raise OutOfRange
  end.

(** [for (let i = i0; i < i0 + count; i++) body].  The loops of the sources
    have a bound of the form [a.length - c] and a body that only assigns to
    elements of [a], so that the bound is the same at every test. *)
Fixpoint for_loop {St : Type} (i count : nat) (body : nat → St → outcome St)
    (s : St) : outcome St :=
  match count with
  | O => Ok s
  | S count' => let* s' := body i s in for_loop (S i) count' body s'
  end.

(** [for (const a of l) body]. *)
Fixpoint for_of {A St : Type} (l : list A) (body : A → St → outcome St)
    (s : St) : outcome St :=
  match l with
  | [] => Ok s
  | a :: l' => let* s' := body a s in for_of l' body s'
  end.

(** [while (cond) body], with an iteration budget: when the budget is
    used up and [cond] still holds, the outcome is [OutOfFuel]. *)
Fixpoint while_loop {St : Type} (fuel : nat) (cond : St → bool)
    (body : St → outcome St) (s : St) : outcome St :=
  if cond s then
    match fuel with
    | O => Raise OutOfFuel
    | S fuel' => let* s' := body s in while_loop fuel' cond body s'
    end
  else Ok s.

(** [a.pop()], the array that is left. *)
Definition pop {A : Type} (l : list A) : list A := take (length l - 1) l.

(** [a.push(x)]. *)
Definition push {A : Type} (l : list A) (x : A) : list A := l ++ [x].

(** ** gl-matrix [vec3]

    The functions of the library the evaluators call, by value: the
    three components of a vector, and for a function that writes to its
    first argument [out], the vector written there. *)

Record vec3 : Type := Vec3 { c0 : R; c1 : R; c2 : R }.

Module vec3.
Local Open Scope R_scope.

Definition create : vec3 := Vec3 0 0 0.

Definition fromValues (x y z : R) : vec3 := Vec3 x y z.

Definition clone (a : vec3) : vec3 := Vec3 (c0 a) (c1 a) (c2 a).

(** [vec3.lerp(out, a, b, t)]: [out[k] = a[k] + t * (b[k] - a[k])]. *)
Definition lerp (a b : vec3) (t : R) : vec3 :=
  Vec3 (c0 a + t * (c0 b - c0 a))
       (c1 a + t * (c1 b - c1 a))
       (c2 a + t * (c2 b - c2 a)).

(** [vec3.dist(a, b)]. *)
Definition dist (a b : vec3) : R :=
  let x := c0 b - c0 a in
  let y := c1 b - c1 a in
  let z := c2 b - c2 a in
  sqrt (x * x + y * y + z * z).
End vec3.

(** ** bezier.ts *)

Definition too_few_2 : string := "At least 2 control points are required".

(** [vec3.lerp(points[i], points[i], points[i + 1], t)] *)
Definition lerp_at (t : R) (i : nat) (points : list vec3)
    : outcome (list vec3) :=
  let* a := get points i in
  let* b := get points (i + 1) in
  Ok (<[i := vec3.lerp a b t]> points).

(** The body of the [while] loop of [evaluateBezierCurve]: one pass of
    in-place interpolation, then [points.pop()]. *)
Definition reduce_body (t : R) (points : list vec3) : outcome (list vec3) :=
  let* points' := for_loop 0 (length points - 1) (lerp_at t) points in
  Ok (pop points').

(** The inner [while] loop removes a point at every round: a budget of
    [length ps] rounds is never used up. *)
Definition evaluateBezierCurve (ps : list vec3) (ts : list R)
    : outcome (list vec3) :=
  if length ps <? 2 then Raise (Error too_few_2)
  else
    for_of ts (fun t result =>
      let* points :=
        while_loop (length ps) (fun points => 1 <? length points)
          (reduce_body t) (vec3.clone <$> ps) in
      let* p := get points 0 in
      Ok (push result p)) [].

(** The body of the inner [for] loop of [adaptiveSubdivision]:
    [lp += vec3.dist(top[i], top[i + 1])]. *)
Definition add_dist (top : list vec3) (i : nat) (lp : R) : outcome R :=
  let* a := get top i in
  let* b := get top (i + 1) in
  Ok (lp + vec3.dist a b)%R.

(** Working state of the bisection: [points], [p1s], [p2s]. *)
Record bisection : Type := Bisection {
  points : list vec3;
  p1s : list vec3;
  p2s : list vec3
}.

(** The body of the bisecting [while] loop. *)
Definition bisect_body (s : bisection) : outcome bisection :=
  let* points' := for_loop 0 (length (points s) - 1) (lerp_at 0.5) (points s) in
  let points' := pop points' in
  let* a := get points' 0 in
  let* b := get points' (length points' - 1) in
  Ok (Bisection points' (push (p1s s) (vec3.clone a))
                        (push (p2s s) (vec3.clone b))).

(** State of the work loop: [stack] (its top is the last element) and
    [out]. *)
Record work : Type := Work {
  stack : list (list vec3);
  out : list vec3
}.

(** One iteration of [while (stack.length > 0)]. *)
Definition subdivide_body (s : work) : outcome work :=
  let* top := get (stack s) (length (stack s) - 1) in
  let stack := pop (stack s) in
  if length top <? 2 then Raise (Error too_few_2)
  else if length top =? 2 then
    let* p := get top 1 in
    Ok (Work stack (push (out s) p))
  else
    let* last := get top (length top - 1) in
    let* lp := for_loop 0 (length top - 1) (add_dist top) 0%R in
    let* first := get top 0 in
    let lc := vec3.dist first last in
    let n := (INR (length top) - 1)%R in
    if Rgt_dec ((n - 1) / (n + 1) * (lp - lc)) 1e-5 then
      let* b := while_loop (length top) (fun b => 1 <? length (points b))
                  bisect_body
                  (Bisection (vec3.clone <$> top) [vec3.clone first]
                             [vec3.clone last]) in
      Ok (Work (push (push stack (reverse (p2s b))) (p1s b)) (out s))
    else
      Ok (Work stack (push (out s) last)).

(** [adaptiveSubdivision(ps)]; [fuel] bounds the iterations of the work
    loop. *)
Definition adaptiveSubdivision (fuel : nat) (ps : list vec3)
    : outcome (list vec3) :=
  if length ps <? 2 then Raise (Error too_few_2)
  else if length ps =? 2 then Ok (vec3.clone <$> ps)
  else
    let* first := get ps 0 in
    let* s := while_loop fuel (fun s => 0 <? length (stack s))
                subdivide_body (Work [ps] [vec3.clone first]) in
    Ok (out s).

(** ** bspline.ts *)

Definition uniformBSpline (ps : list vec3) (ts : list R)
    : outcome (list vec3) :=
  if length ps <? 2 then Raise (Error "At least 2 control points are required")
  else
    for_of ts (fun t result =>
      let* points :=
        while_loop (length ps) (fun points => 1 <? length points)
          (fun points =>
             let* points' :=
               for_loop 0 (length points - 1) (lerp_at t) points in
             Ok (pop points'))
          (vec3.clone <$> ps) in
      let* p := get points 0 in
      Ok (push result p)) [].

Definition quadraticUniformBSpline (ps : list vec3) (ts : list R)
    : outcome (list vec3) :=
  if length ps <? 3 then Raise (Error "At least 3 control points are required")
  else
    for_of ts (fun t result =>
      let* points :=
        while_loop (length ps) (fun points => 2 <? length points)
          (fun points =>
             let* points' :=
               for_loop 0 (length points - 2) (lerp_at t) points in
             Ok (pop points'))
          (vec3.clone <$> ps) in
      let* p := get points 1 in
      Ok (push result p)) [].

(** ** catmull-rom.ts *)

(** [x ** alpha] on the arguments the module passes: [x] a distance (so
    [0 <= x]) and [0 <= alpha].  JavaScript has [x ** 0 = 1] for every [x],
    and [0 ** alpha = 0] for [0 < alpha]. *)
Definition pow (x alpha : R) : R :=
  if Req_dec_T alpha 0 then 1%R
  else if Rlt_dec 0 x then Rpower x alpha
  else 0%R.

(** The sample pushed at step [i] of the inner loop, for the cubic with
    coefficients [a], [b], [c], [d]. *)
Definition cubic_sample (a b c d : vec3) (i : nat) : vec3 :=
  let t := (INR i / 20)%R in
  let x := (((c0 a * t + c0 b) * t + c0 c) * t + c0 d)%R in
  let y := (((c1 a * t + c1 b) * t + c1 c) * t + c1 d)%R in
  let z := (((c2 a * t + c2 b) * t + c2 c) * t + c2 d)%R in
  vec3.fromValues x y z.

Section Segment.
Local Open Scope R_scope.
Variables (alpha tension : R) (p0 p1 p2 p3 : vec3).

Definition t01 : R := pow (vec3.dist p0 p1) alpha.
Definition t12 : R := pow (vec3.dist p1 p2) alpha.
Definition t23 : R := pow (vec3.dist p2 p3) alpha.

Definition m1 : vec3 :=
  Vec3
    ((1 - tension) * (c0 p2 - c0 p1 + t12 * ((c0 p1 - c0 p0) / t01 - (c0 p2 - c0 p0) / (t01 + t12))))
    ((1 - tension) * (c1 p2 - c1 p1 + t12 * ((c1 p1 - c1 p0) / t01 - (c1 p2 - c1 p0) / (t01 + t12))))
    ((1 - tension) * (c2 p2 - c2 p1 + t12 * ((c2 p1 - c2 p0) / t01 - (c2 p2 - c2 p0) / (t01 + t12)))).

Definition m2 : vec3 :=
  Vec3
    ((1 - tension) * (c0 p2 - c0 p1 + t12 * ((c0 p3 - c0 p2) / t23 - (c0 p3 - c0 p1) / (t23 + t12))))
    ((1 - tension) * (c1 p2 - c1 p1 + t12 * ((c1 p3 - c1 p2) / t23 - (c1 p3 - c1 p1) / (t23 + t12))))
    ((1 - tension) * (c2 p2 - c2 p1 + t12 * ((c2 p3 - c2 p2) / t23 - (c2 p3 - c2 p1) / (t23 + t12)))).

Definition coef_a : vec3 :=
  Vec3 (2 * (c0 p1 - c0 p2) + c0 m1 + c0 m2)
       (2 * (c1 p1 - c1 p2) + c1 m1 + c1 m2)
       (2 * (c2 p1 - c2 p2) + c2 m1 + c2 m2).

Definition coef_b : vec3 :=
  Vec3 (-3 * (c0 p1 - c0 p2) - 2 * c0 m1 - c0 m2)
       (-3 * (c1 p1 - c1 p2) - 2 * c1 m1 - c1 m2)
       (-3 * (c2 p1 - c2 p2) - 2 * c2 m1 - c2 m2).

(** [for (let i = 0; i <= 20; ++i) result.push(...)], for one window. *)
Definition sample_segment (result : list vec3) : outcome (list vec3) :=
  for_loop 0 21
    (fun i result => Ok (push result (cubic_sample coef_a coef_b m1 p1 i)))
    result.
End Segment.

(** The body of the outer loop of [catmullRomImpl], at window [k]. *)
Definition segment_body (ps : list vec3) (alpha tension : R) (k : nat)
    (result : list vec3) : outcome (list vec3) :=
  let* p0 := get ps k in
  let* p1 := get ps (k + 1) in
  let* p2 := get ps (k + 2) in
  let* p3 := get ps (k + 3) in
  sample_segment alpha tension p0 p1 p2 p3 result.

Definition catmullRomImpl (ps : list vec3) (alpha tension : R)
    : outcome (list vec3) :=
  for_loop 0 (length ps - 3) (segment_body ps alpha tension) [].

Record knotParametrization : Type := KnotParametrization {
  uniform : bool;
  chordal : bool;
  centripetal : bool
}.

Record splines : Type := Splines {
  uniformResult : list vec3;
  chordalResult : list vec3;
  centripetalResult : list vec3
}.

(** [result.push(...impl)] under [if (flag)]. *)
Definition push_all_if (flag : bool) (impl : outcome (list vec3))
    : outcome (list vec3) :=
  if flag then let* l := impl in Ok ([] ++ l) else Ok [].

Definition cubicCatmullRomSpline (ps : list vec3) (k : knotParametrization)
    : outcome splines :=
  if length ps <? 4 then Raise (Error "At least 4 control points are required")
  else
    let* uniformResult := push_all_if (uniform k) (catmullRomImpl ps 0 0) in
    let* chordalResult := push_all_if (chordal k) (catmullRomImpl ps 1 0) in
    let* centripetalResult :=
      push_all_if (centripetal k) (catmullRomImpl ps 0.5 0) in
    Ok (Splines uniformResult chordalResult centripetalResult).

(** ** The specification's words *)

(** [lerp(a, b, t) = (1 - t) * a + t * b], component-wise. *)
Definition lerp_spec (a b : vec3) (t : R) : vec3 :=
  Vec3 ((1 - t) * c0 a + t * c0 b)
       ((1 - t) * c1 a + t * c1 b)
       ((1 - t) * c2 a + t * c2 b).

(** [[B_0 ... B_k]] becomes [[lerp(B_0,B_1,t) ... lerp(B_{k-1},B_k,t)]]. *)
Fixpoint lerp_pairs (t : R) (l : list vec3) : list vec3 :=
  match l with
  | a :: (b :: _) as l' => lerp_spec a b t :: lerp_pairs t l'
  | _ => []
  end.

(** Repeat until one point remains; [rounds] bounds the repetitions. *)
Fixpoint reduce (rounds : nat) (t : R) (l : list vec3) : option vec3 :=
  match l with
  | [p] => Some p
  | _ =>
    match rounds with
    | O => None
    | S rounds' => reduce rounds' t (lerp_pairs t l)
    end
  end.

Definition de_casteljau (t : R) (l : list vec3) : option vec3 :=
  reduce (length l) t l.

(** [Lp]: the sum of the distances between consecutive points. *)
Fixpoint polygon_length (l : list vec3) : R :=
  match l with
  | a :: (b :: _) as l' => (vec3.dist a b + polygon_length l')%R
  | _ => 0%R
  end.

(** [Lc]: the distance between the first and the last point (0 for no
    point at all). *)
Definition chord_length (l : list vec3) : R :=
  match head l, last l with
  | Some a, Some z => vec3.dist a z
  | _, _ => 0%R
  end.

(** [E = (n-1)/(n+1) * (Lp - Lc)], with [n] the point count minus 1. *)
Definition gravesen_error (l : list vec3) : R :=
  let n := (INR (length l) - 1)%R in
  ((n - 1) / (n + 1) * (polygon_length l - chord_length l))%R.

(** De Casteljau's triangle at [t]: its rows are [l], [lerp_pairs t l], ...
    [heads] collects the leftmost point of every row, [lasts] the rightmost
    one. *)
Fixpoint heads (rounds : nat) (t : R) (l : list vec3) : list vec3 :=
  match rounds, l with
  | S rounds', a :: _ => a :: heads rounds' t (lerp_pairs t l)
  | _, _ => []
  end.

Fixpoint lasts (rounds : nat) (t : R) (l : list vec3) : list vec3 :=
  match rounds, last l with
  | S rounds', Some z => z :: lasts rounds' t (lerp_pairs t l)
  | _, _ => []
  end.

(** The control points of the two halves of the segment cut at t = 0.5. *)
Definition left_half (l : list vec3) : list vec3 := heads (length l) 0.5 l.
Definition right_half (l : list vec3) : list vec3 :=
  reverse (lasts (length l) 0.5 l).

(** The 21 samples of the window [(p0, p1, p2, p3)], at [t = i / 20] for
    [i = 0 .. 20]. *)
Definition segment_samples (alpha tension : R) (p0 p1 p2 p3 : vec3)
    : list vec3 :=
  cubic_sample (coef_a alpha tension p0 p1 p2 p3)
               (coef_b alpha tension p0 p1 p2 p3)
               (m1 alpha tension p0 p1 p2) p1
  <$> seq 0 21.

(** The samples of all sliding windows of 4 consecutive control points. *)
Fixpoint spline_samples (alpha tension : R) (ps : list vec3) : list vec3 :=
  match ps with
  | p0 :: (p1 :: p2 :: p3 :: _) as ps' =>
      segment_samples alpha tension p0 p1 p2 p3
      ++ spline_samples alpha tension ps'
  | _ => []
  end.

(** ** Auxiliary definitions of the proofs *)

(** What the pass leaves in the array before [pop]: the interpolated pairs,
    then the untouched last element. *)
Fixpoint lerp_sweep (t : R) (l : list vec3) : list vec3 :=
  match l with
  | a :: (b :: _) as l' => lerp_spec a b t :: lerp_sweep t l'
  | _ => l
  end.

(** The point of the curve at [t], with a default where there is no control
    point at all. *)
Definition curve_point (ps : list vec3) (t : R) : vec3 :=
  default vec3.create (de_casteljau t ps).

(** Two points no coordinate of which differs by more than [M]. *)
Definition close (M : R) (a b : vec3) : Prop :=
  (- M <= c0 b - c0 a <= M ∧ - M <= c1 b - c1 a <= M
   ∧ - M <= c2 b - c2 a <= M)%R.

(** A polygon all of whose consecutive points are [close]. *)
Fixpoint chain (M : R) (l : list vec3) : Prop :=
  match l with
  | a :: (b :: _) as l' => close M a b ∧ chain M l'
  | _ => True
  end.

(** ** The evaluators over a store of [vec3] objects

    A gl-matrix [vec3] is a mutable object and an array holds references to
    such objects.  This second embedding keeps them apart: the store is the
    list of all [vec3] objects ever created, a reference is an index into
    it, [vec3.clone], [vec3.create] and [vec3.fromValues] append a new
    object, and [vec3.lerp(out, a, b, t)] overwrites the object [out].
    The arrays themselves ([points], [result], [stack], ...) are local to a
    call, or only read by it, and stay values. *)

Module Heap.

(** A reference is an index into the store. *)
Abbreviation loc := nat.
Abbreviation heap := (list vec3).

(** A computation that reads and updates the store, or throws. *)
Definition M (A : Type) : Type := heap → outcome (A * heap).

Definition ret {A : Type} (a : A) : M A := fun h => Ok (a, h).

Definition bind {A B : Type} (m : M A) (k : A → M B) : M B :=
  fun h =>
    match m h with
    | Ok (a, h') => k a h'
    | Raise e => Raise e
    end.

Notation "'let!' x ':=' m 'in' k" := (bind m (fun x => k))
  (at level 10, x name, m at level 100, k at level 200,
   format "'[v' 'let!'  x  ':='  m  'in'  '/' k ']'").

Definition throw {A : Type} (e : error) : M A := fun _ => Raise e.

(** A computation that leaves the store alone. *)
Definition lift {A : Type} (o : outcome A) : M A :=
  fun h =>
    match o with
    | Ok a => Ok (a, h)
    | Raise e => Raise e
    end.

(** The object behind a reference. *)
Definition read (a : loc) : M vec3 :=
  fun h =>
    match h !! a with
    | Some v => Ok (v, h)
    | None => Raise OutOfRange
    end.

(** A new object. *)
Definition alloc (v : vec3) : M loc := fun h => Ok (length h, h ++ [v]).

(** An object overwritten in place. *)
Definition write (a : loc) (v : vec3) : M unit :=
  fun h => if a <? length h then Ok (tt, <[a := v]> h) else Raise OutOfRange.

Definition clone (a : loc) : M loc :=
  let! v := read a in
  alloc (vec3.clone v).

Definition fromValues (x y z : R) : M loc := alloc (vec3.fromValues x y z).

(** [vec3.lerp(out, a, b, t)] *)
Definition lerp (dst a b : loc) (t : R) : M unit :=
  let! va := read a in
  let! vb := read b in
  write dst (vec3.lerp va vb t).

Definition dist (a b : loc) : M R :=
  let! va := read a in
  let! vb := read b in
  ret (vec3.dist va vb).

Definition get {A : Type} (l : list A) (i : nat) : M A := lift (get l i).

Fixpoint for_loop {St : Type} (i count : nat) (body : nat → St → M St)
    (s : St) : M St :=
  match count with
  | O => ret s
  | S count' => let! s' := body i s in for_loop (S i) count' body s'
  end.

Fixpoint for_of {A St : Type} (l : list A) (body : A → St → M St)
    (s : St) : M St :=
  match l with
  | [] => ret s
  | a :: l' => let! s' := body a s in for_of l' body s'
  end.

Fixpoint while_loop {St : Type} (fuel : nat) (cond : St → bool)
    (body : St → M St) (s : St) : M St :=
  if cond s then
    match fuel with
    | O => throw OutOfFuel
    | S fuel' => let! s' := body s in while_loop fuel' cond body s'
    end
  else ret s.

(** [l.map(f)] *)
Fixpoint map_array {A B : Type} (f : A → M B) (l : list A) : M (list B) :=
  match l with
  | [] => ret []
  | a :: l' =>
    let! b := f a in
    let! bs := map_array f l' in
    ret (b :: bs)
  end.

(** *** bezier.ts *)

(** [vec3.lerp(points[i], points[i], points[i + 1], t)] *)
Definition lerp_at (t : R) (points : list loc) (i : nat) (_ : unit) : M unit :=
  let! a := get points i in
  let! b := get points (i + 1) in
  lerp a a b t.

Definition reduce_body (t : R) (points : list loc) : M (list loc) :=
  let! _ := for_loop 0 (length points - 1) (lerp_at t points) tt in
  ret (pop points).

Definition evaluateBezierCurve (ps : list loc) (ts : list R) : M (list loc) :=
  if length ps <? 2 then throw (Error too_few_2)
  else
    for_of ts (fun t result =>
      let! points := map_array clone ps in
      let! points := while_loop (length ps) (fun points => 1 <? length points)
                       (reduce_body t) points in
      let! p := get points 0 in
      ret (push result p)) [].

Definition add_dist (top : list loc) (i : nat) (lp : R) : M R :=
  let! a := get top i in
  let! b := get top (i + 1) in
  let! d := dist a b in
  ret (lp + d)%R.

Record bisection : Type := Bisection {
  points : list loc;
  p1s : list loc;
  p2s : list loc
}.

Definition bisect_body (s : bisection) : M bisection :=
  let! _ := for_loop 0 (length (points s) - 1) (lerp_at 0.5 (points s)) tt in
  let points' := pop (points s) in
  let! a := get points' 0 in
  let! a' := clone a in
  let! b := get points' (length points' - 1) in
  let! b' := clone b in
  ret (Bisection points' (push (p1s s) a') (push (p2s s) b')).

Record work : Type := Work {
  stack : list (list loc);
  out : list loc
}.

Definition subdivide_body (s : work) : M work :=
  let! top := get (stack s) (length (stack s) - 1) in
  let stack := pop (stack s) in
  if length top <? 2 then throw (Error too_few_2)
  else if length top =? 2 then
    let! p := get top 1 in
    ret (Work stack (push (out s) p))
  else
    let! last := get top (length top - 1) in
    let! lp := for_loop 0 (length top - 1) (add_dist top) 0%R in
    let! first := get top 0 in
    let! lc := dist first last in
    let n := (INR (length top) - 1)%R in
    if Rgt_dec ((n - 1) / (n + 1) * (lp - lc)) 1e-5 then
      let! points := map_array clone top in
      let! first' := clone first in
      let! last' := clone last in
      let! b := while_loop (length top) (fun b => 1 <? length (Heap.points b))
                  bisect_body (Bisection points [first'] [last']) in
      ret (Work (push (push stack (reverse (p2s b))) (p1s b)) (out s))
    else
      ret (Work stack (push (out s) last)).

Definition adaptiveSubdivision (fuel : nat) (ps : list loc) : M (list loc) :=
  if length ps <? 2 then throw (Error too_few_2)
  else if length ps =? 2 then map_array clone ps
  else
    let! first := get ps 0 in
    let! first' := clone first in
    let! s := while_loop fuel (fun s => 0 <? length (stack s))
                subdivide_body (Work [ps] [first']) in
    ret (out s).

(** *** bspline.ts *)

Definition uniformBSpline (ps : list loc) (ts : list R) : M (list loc) :=
  if length ps <? 2 then throw (Error "At least 2 control points are required")
  else
    for_of ts (fun t result =>
      let! points := map_array clone ps in
      let! points :=
        while_loop (length ps) (fun points => 1 <? length points)
          (fun points =>
             let! _ :=
               for_loop 0 (length points - 1) (lerp_at t points) tt in
             ret (pop points))
          points in
      let! p := get points 0 in
      ret (push result p)) [].

Definition quadraticUniformBSpline (ps : list loc) (ts : list R)
    : M (list loc) :=
  if length ps <? 3 then throw (Error "At least 3 control points are required")
  else
    for_of ts (fun t result =>
      let! points := map_array clone ps in
      let! points :=
        while_loop (length ps) (fun points => 2 <? length points)
          (fun points =>
             let! _ :=
               for_loop 0 (length points - 2) (lerp_at t points) tt in
             ret (pop points))
          points in
      let! p := get points 1 in
      ret (push result p)) [].

(** *** catmull-rom.ts *)

(** The sample pushed at step [i]: the objects [a], [b], [c], [d] are read
    and a new object made by [vec3.fromValues]. *)
Definition push_sample (a b c d : loc) (i : nat) (result : list loc)
    : M (list loc) :=
  let! va := read a in
  let! vb := read b in
  let! vc := read c in
  let! vd := read d in
  let! p := alloc (cubic_sample va vb vc vd i) in
  ret (push result p).

Definition segment_body (ps : list loc) (alpha tension : R) (k : nat)
    (result : list loc) : M (list loc) :=
  let! p0 := get ps k in
  let! p1 := get ps (k + 1) in
  let! p2 := get ps (k + 2) in
  let! p3 := get ps (k + 3) in
  let! v0 := read p0 in
  let! v1 := read p1 in
  let! v2 := read p2 in
  let! v3 := read p3 in
  let! m1' := alloc vec3.create in
  let! m2' := alloc vec3.create in
  let! _ := write m1' (m1 alpha tension v0 v1 v2) in
  let! _ := write m2' (m2 alpha tension v1 v2 v3) in
  let! a := alloc vec3.create in
  let! b := alloc vec3.create in
  let! _ := write a (coef_a alpha tension v0 v1 v2 v3) in
  let! _ := write b (coef_b alpha tension v0 v1 v2 v3) in
  for_loop 0 21 (push_sample a b m1' p1) result.

Definition catmullRomImpl (ps : list loc) (alpha tension : R) : M (list loc) :=
  for_loop 0 (length ps - 3) (segment_body ps alpha tension) [].

Record splines : Type := Splines {
  uniformResult : list loc;
  chordalResult : list loc;
  centripetalResult : list loc
}.

Definition push_all_if (flag : bool) (impl : M (list loc)) : M (list loc) :=
  if flag then let! l := impl in ret ([] ++ l) else ret [].

Definition cubicCatmullRomSpline (ps : list loc) (k : knotParametrization)
    : M splines :=
  if length ps <? 4 then throw (Error "At least 4 control points are required")
  else
    let! uniformResult := push_all_if (uniform k) (catmullRomImpl ps 0 0) in
    let! chordalResult := push_all_if (chordal k) (catmullRomImpl ps 1 0) in
    let! centripetalResult :=
      push_all_if (centripetal k) (catmullRomImpl ps 0.5 0) in
    ret (Splines uniformResult chordalResult centripetalResult).

End Heap.

(** The references [ls] lead to objects with the values [vs]. *)
Definition points_to (h : Heap.heap) (ls : list Heap.loc) (vs : list vec3)
    : Prop :=
  Forall2 (fun l v => h !! l = Some v) ls vs.

(** A computation over the store simulates an outcome of the value-level
    embedding: it throws the same error, or returns in a store and with a
    result that the relation [I] ties to the value-level result. *)
Definition sim {A B : Type} (I : Heap.heap → A → B → Prop) (m : Heap.M A)
    (h : Heap.heap) (p : outcome B) : Prop :=
  match p with
  | Ok b => ∃ a h', m h = Ok (a, h') ∧ I h' a b
  | Raise e => m h = Raise e
  end.

(** The result of a call started in the store [h0]: the store has only
    grown, and the returned references lead to the value-level result. *)
Definition returned (h0 : Heap.heap) (h : Heap.heap) (ls : list Heap.loc)
    (vs : list vec3) : Prop :=
  (∃ new, h = h0 ++ new) ∧ points_to h ls vs.

(** The working array of an in-place reduction: the objects behind [pts]
    lie side by side in the store, after [pre], with the values [l]. *)
Definition in_place (pre : Heap.heap) (h : Heap.heap) (pts : list Heap.loc)
    (l : list vec3) : Prop :=
  (∃ rest, h = pre ++ l ++ rest) ∧ pts = seq (length pre) (length l).

(** The store during a pass of in-place interpolation over an array of [n]
    objects that lie after [pre] and before [rest]. *)
Definition during_pass (pre rest : Heap.heap) (n : nat) (h : Heap.heap)
    (_ : unit) (l : list vec3) : Prop :=
  h = pre ++ l ++ rest ∧ length l = n.

(** The three results of [cubicCatmullRomSpline], returned from a call
    started in the store [h0]. *)
Definition returned_splines (h0 : Heap.heap) (h : Heap.heap)
    (r : Heap.splines) (rv : splines) : Prop :=
  (∃ new, h = h0 ++ new)
  ∧ points_to h (Heap.uniformResult r) (uniformResult rv)
  ∧ points_to h (Heap.chordalResult r) (chordalResult rv)
  ∧ points_to h (Heap.centripetalResult r) (centripetalResult rv).

(** The references [ls] lead to objects created after the working array of
    a bisection: at or after the position [base] of the store, where the
    objects [post] lie. *)
Definition in_post (base : nat) (post : list vec3) (ls : list Heap.loc)
    (vs : list vec3) : Prop :=
  Forall2 (fun l v => base ≤ l ∧ post !! (l - base) = Some v) ls vs.

(** The store during the bisecting loop: after [pre] lie the [n] objects of
    the working array (those still in [points], then those popped), then
    the clones pushed on [p1s] and [p2s]. *)
Definition bisect_rel (pre : Heap.heap) (n : nat) (h : Heap.heap)
    (s : Heap.bisection) (sv : bisection) : Prop :=
  ∃ g post,
    h = pre ++ (points sv ++ g) ++ post
    ∧ length (points sv) + length g = n
    ∧ Heap.points s = seq (length pre) (length (points sv))
    ∧ in_post (length pre + n) post (Heap.p1s s) (p1s sv)
    ∧ in_post (length pre + n) post (Heap.p2s s) (p2s sv).

(** The state of the work loop in a store grown from [h0]. *)
Definition work_rel (h0 : Heap.heap) (h : Heap.heap) (s : Heap.work)
    (sv : work) : Prop :=
  (∃ new, h = h0 ++ new)
  ∧ Forall2 (points_to h) (Heap.stack s) (stack sv)
  ∧ points_to h (Heap.out s) (out sv).

(** What a caller can observe of a call: the error thrown, or the values of
    the objects behind the returned references. *)
Definition values (h : Heap.heap) (ls : list Heap.loc) : list (option vec3) :=
  (fun l => h !! l) <$> ls.

Definition observe (m : Heap.M (list Heap.loc)) (h : Heap.heap)
    : outcome (list (option vec3)) :=
  match m h with
  | Ok (ls, h') => Ok (values h' ls)
  | Raise e => Raise e
  end.

Definition observe_splines (m : Heap.M Heap.splines) (h : Heap.heap)
    : outcome (list (option vec3) * list (option vec3) * list (option vec3)) :=
  match m h with
  | Ok (r, h') =>
      Ok (values h' (Heap.uniformResult r), values h' (Heap.chordalResult r),
          values h' (Heap.centripetalResult r))
  | Raise e => Raise e
  end.

(** A call that returns leaves every object of the store it started in as
    it was: the store it ends in is the old one followed by new objects. *)
Definition unchanged {A : Type} (m : Heap.M A) (h : Heap.heap) : Prop :=
  ∀ a h', m h = Ok (a, h') → ∃ new, h' = h ++ new.

(** The observation that a value-level outcome stands for. *)
Definition observed (p : outcome (list vec3)) : outcome (list (option vec3)) :=
  match p with
  | Ok vs => Ok (Some <$> vs)
  | Raise e => Raise e
  end.

Definition observed_splines (p : outcome splines)
    : outcome (list (option vec3) * list (option vec3) * list (option vec3)) :=
  match p with
  | Ok r =>
      Ok (Some <$> uniformResult r, Some <$> chordalResult r,
          Some <$> centripetalResult r)
  | Raise e => Raise e
  end.

(** Two stores that hold the same four control points at different
    places, for a concrete instance of the statements below. *)
Definition four_points : list vec3 :=
  [Vec3 0 0 0; Vec3 1 2 0; Vec3 3 1 0; Vec3 4 0 0].
Definition store_a : Heap.heap := four_points.
Definition store_b : Heap.heap := Vec3 9 9 9 :: four_points.

(** * Further code of the repository

    What follows embeds the callers of the evaluators in [bezier-canvas.tsx]
    and [App.tsx], the helpers of [webgl-utils.ts] and parts of
    [legacygl.ts], and states further properties of the evaluators. *)

From stdpp Require Import gmap strings.

(** ** Auxiliary definitions for the evaluators *)

(** Parameters that increase strictly from above [lo]. *)
Fixpoint ascending (lo : R) (us : list R) : Prop :=
  match us with
  | [] => True
  | u :: us' => (lo < u)%R ∧ ascending u us'
  end.

(** The control points without the first and the last one. *)
Definition interior (ps : list vec3) : list vec3 := tail (pop ps).

(** A point inside the box spanned by the corners [lo] and [hi]. *)
Definition within (lo hi p : vec3) : Prop :=
  (c0 lo <= c0 p <= c0 hi ∧ c1 lo <= c1 p <= c1 hi
   ∧ c2 lo <= c2 p <= c2 hi)%R.

(** No two consecutive control points coincide: the knot intervals of the
    chordal and centripetal parametrizations are then positive, and
    [catmullRomImpl] does not divide by zero. *)
Definition distinct_neighbours (ps : list vec3) : Prop :=
  ∀ i p q, ps !! i = Some p → ps !! (S i) = Some q → p ≠ q.

(** The cubic of the uniform Catmull-Rom spline in its usual form, for one
    coordinate and for a point:
    [(2 b + (c - a) t + (2 a - 5 b + 4 c - d) t^2 + (3 b - a - 3 c + d) t^3) / 2]. *)
Definition catmull_rom_coordinate (a b c d t : R) : R :=
  ((2 * b + (c - a) * t + (2 * a - 5 * b + 4 * c - d) * (t * t)
    + (3 * b - a - 3 * c + d) * (t * t * t)) / 2)%R.

Definition catmull_rom_point (p0 p1 p2 p3 : vec3) (t : R) : vec3 :=
  Vec3 (catmull_rom_coordinate (c0 p0) (c0 p1) (c0 p2) (c0 p3) t)
       (catmull_rom_coordinate (c1 p0) (c1 p1) (c1 p2) (c1 p3) t)
       (catmull_rom_coordinate (c2 p0) (c2 p1) (c2 p2) (c2 p3) t).

(** A result under a function. *)
Definition outcome_map {A B : Type} (f : A → B) (o : outcome A) : outcome B :=
  match o with
  | Ok a => Ok (f a)
  | Raise e => Raise e
  end.

(** ** bezier-canvas.tsx *)

(** The test of [findFocus]: the pointer at [(x, y)] is within a tenth of
    the point [p], in the plane. *)
Definition near (x y : R) (p : vec3) : Prop :=
  ((x - c0 p) * (x - c0 p) + (y - c1 p) * (y - c1 p) < 0.01)%R.

(** The loop of [findFocus], at index [i] with [count] indices to go.  The
    indices it reads are below [controlPoints.length]. *)
Fixpoint findFocus_loop (x y : R) (controlPoints : list vec3) (i count : nat)
    : option nat :=
  match count with
  | O => None
  | S count' =>
    match controlPoints !! i with
    | None => None
    | Some p =>
      let dx := (x - c0 p)%R in
      let dy := (y - c1 p)%R in
      if Rlt_dec (dx * dx + dy * dy) 0.01 then Some i
      else findFocus_loop x y controlPoints (S i) count'
    end
  end.

(** [findFocus(x, y, controlPoints)]; [null] is [None]. *)
Definition findFocus (x y : R) (controlPoints : list vec3) : option nat :=
  findFocus_loop x y controlPoints 0 (length controlPoints).

(** The three numbers of a point, as a typed array stores them.  The
    numbers are kept exact here; a [Float32Array] rounds them to single
    precision. *)
Definition components (p : vec3) : list R := [c0 p; c1 p; c2 p].

(** [target.set(source, offset)] on a typed array; it throws a RangeError,
    here [None], when the source does not fit. *)
Definition typed_set (target source : list R) (offset : nat)
    : option (list R) :=
  if length target <? offset + length source then None
  else Some (take offset target ++ source
             ++ drop (offset + length source) target).

(** [for (let i = i0; i < i0 + count; i++) body], where the body may
    throw. *)
Fixpoint for_each {St : Type} (i count : nat) (body : nat → St → option St)
    (s : St) : option St :=
  match count with
  | O => Some s
  | S count' => s' ← body i s; for_each (S i) count' body s'
  end.

Definition fillVertices (samplePoints controlPoints : list vec3)
    : option (list R) :=
  let vertices :=
    replicate (length samplePoints * 3 + length controlPoints * 3) 0%R in
  vertices ← for_each 0 (length samplePoints)
                (fun i vertices =>
                   p ← samplePoints !! i;
                   typed_set vertices (components p) (i * 3))
                vertices;
  for_each 0 (length controlPoints)
    (fun i vertices =>
       p ← controlPoints !! i;
       typed_set vertices (components p) (length samplePoints * 3 + i * 3))
    vertices.

Definition fillColors (samplePoints controlPoints : list vec3)
    : option (list R) :=
  let colors :=
    replicate (length samplePoints * 3 + length controlPoints * 3) 0%R in
  colors ← for_each 0 (length samplePoints)
              (fun i colors => typed_set colors [1; 0.6; 0.2]%R (i * 3))
              colors;
  for_each 0 (length controlPoints)
    (fun i colors =>
       typed_set colors [0.2; 0.5; 1]%R (length samplePoints * 3 + i * 3))
    colors.

(** [sizes.fill(5)], then [sizes[samplePoints.length + focus] = 10]: a
    typed array ignores an assignment past its end, as list insert does. *)
Definition fillSizes (samplePoints controlPoints : list vec3)
    (focus : option nat) : list R :=
  let sizes := replicate (length samplePoints + length controlPoints) 0%R in
  let sizes := replicate (length sizes) 5%R in
  match focus with
  | Some focus => <[length samplePoints + focus := 10%R]> sizes
  | None => sizes
  end.

(** [ToLength(x)] for the length of [Array.from({ length: x }, ...)]: the
    number is truncated, and a negative one gives 0. *)
Definition to_length (x : R) : nat := Z.to_nat (Int_part x).

(** [Array.from({ length: nSteps }, (_, i) => i / (nSteps - 1))]; an array
    of 2^32 elements or more cannot be made (a RangeError, here with the
    message V8 gives it).  For [nSteps = 1] the source
    computes 0/0, which is no real number: the embedding says nothing
    faithful there. *)
Definition parameters (nSteps : R) : outcome (list R) :=
  if (2 ^ 32 <=? Int_part nSteps)%Z then Raise (Error "Invalid array length")
  else Ok ((fun i => INR i / (nSteps - 1))%R <$> seq 0 (to_length nSteps)).

Definition geometry (controlPoints : list vec3) (nSteps : R)
    : outcome (list vec3) :=
  let* ts := parameters nSteps in
  evaluateBezierCurve controlPoints ts.

(** [onmousemove]: from the position of the pointer, the rectangle of the
    canvas and its size, the values given to [setUV] and [setXY]. *)
Definition onmousemove (clientX clientY left top width height : R)
    : (R * R) * (R * R) :=
  let u := (clientX - left)%R in
  let v := (clientY - top)%R in
  let x := (2 * u / width - 1)%R in
  let y := (1 - 2 * v / height)%R in
  ((u, v), (x, y)).

Inductive CursorState : Type :=
  | Grab
  | Pointer (focus : nat)
  | Move (focus : nat)
  | Grabbing (translateFrom translation : vec3).

(** The fields of [BezierCurve2DConfig] the handlers read. *)
Record config : Type := Config {
  showControlPoints : bool;
  controlPoints : list vec3
}.

(** [a[i] = v] on an array: inside the array the element is replaced; past
    its end the array grows, with holes ([None]) before index [i]. *)
Definition assign {A : Type} (a : list A) (i : nat) (v : A)
    : list (option A) :=
  if i <? length a then Some <$> <[i := v]> a
  else (Some <$> a) ++ replicate (i - length a) None ++ [Some v].

(** [vec3.sub(out, a, b)], the vector written to [out]. *)
Definition sub (a b : vec3) : vec3 :=
  Vec3 (c0 a - c0 b) (c1 a - c1 b) (c2 a - c2 b).

(** [([x, y, z]) => [x + translation[0], y + translation[1], z]] *)
Definition pan (translation p : vec3) : vec3 :=
  Vec3 (c0 p + c0 translation) (c1 p + c1 translation) (c2 p).

(** The calls an event handler makes: to [setCursor] and to
    [config.setControlPoints], with their arguments. *)
Record updates : Type := Updates {
  setCursor : option CursorState;
  setControlPoints : option (list (option vec3))
}.

(** The effect run when [xy] or [leftClicked] has changed. *)
Definition cursor_effect (xy : option (R * R)) (leftClicked : bool)
    (cursor : CursorState) (cfg : config) : updates :=
  match xy with
  | None => Updates None None
  | Some (x, y) =>
    let newFocus :=
      if showControlPoints cfg then findFocus x y (controlPoints cfg)
      else None in
    match cursor with
    | Grab =>
      if leftClicked then
        Updates (Some (Grabbing (Vec3 x y 0) (Vec3 0 0 0))) None
      else
        match newFocus with
        | Some newFocus => Updates (Some (Pointer newFocus)) None
        | None => Updates None None
        end
    | Pointer focus =>
      if leftClicked then Updates (Some (Move focus)) None
      else
        match newFocus with
        | None => Updates (Some Grab) None
        | Some newFocus =>
          if newFocus =? focus then Updates None None
          else Updates (Some (Pointer newFocus)) None
        end
    | Move focus =>
      if leftClicked then
        Updates None (Some (assign (controlPoints cfg) focus (Vec3 x y 0)))
      else Updates (Some (Pointer focus)) None
    | Grabbing translateFrom _ =>
      let translation := sub (Vec3 x y 0) translateFrom in
      if leftClicked then
        Updates (Some (Grabbing translateFrom translation)) None
      else
        Updates (Some Grab)
          (Some (Some <$> (pan translation <$> controlPoints cfg)))
    end
  end.

(** [onContextMenu], after [e.preventDefault()]. *)
Definition onContextMenu (xy : option (R * R)) (cursor : CursorState)
    (cfg : config) : updates :=
  match xy, cursor with
  | Some (x, y), Grab =>
    if showControlPoints cfg then
      Updates None (Some (Some <$> (controlPoints cfg ++ [Vec3 x y 0])))
    else Updates None None
  | _, _ => Updates None None
  end.

(** A cursor whose focus, if it has one, is the index of a control
    point. *)
Definition focus_valid (cursor : CursorState) (controlPoints : list vec3)
    : Prop :=
  match cursor with
  | Pointer focus | Move focus => focus < length controlPoints
  | _ => True
  end.

(** ** App.tsx *)

(** [clip(x, min, max) = Math.max(min, Math.min(max, x))] *)
Definition clip (x min max : R) : R := Rmax min (Rmin max x).

(** The work state of [adaptiveSubdivision] with every point moved by
    [T]. *)
Definition move_work (T : vec3 → vec3) (s : work) : work :=
  Work (fmap (M := list) (fmap (M := list) T) (stack s))
       (fmap (M := list) T (out s)).

(** ** webgl-utils.ts *)

(** [getAttribLocations(gl, program, names)], given what
    [gl.getAttribLocation(program, name)] returns for every name; the
    object returned is a map from the names to the locations. *)
Definition getAttribLocations (getAttribLocation : string → Z)
    (names : list string) : outcome (gmap string Z) :=
  for_of names
    (fun name acc =>
       let loc := getAttribLocation (String.append "a_" name) in
       if (loc <? 0)%Z then
         Raise (Error (String.append "Attribute "
                         (String.append name " not found")))
       else Ok (<[name := loc]> acc))
    ∅.

(** [getUniformLocations(gl, program, names)], given what
    [gl.getUniformLocation(program, name)] returns: a location object, or
    [null], here [None]. *)
Definition getUniformLocations {L : Type}
    (getUniformLocation : string → option L) (names : list string)
    : outcome (gmap string L) :=
  for_of names
    (fun name acc =>
       match getUniformLocation (String.append "u_" name) with
       | None =>
         Raise (Error (String.append "Uniform "
                         (String.append name " not found")))
       | Some loc => Ok (<[name := loc]> acc)
       end)
    ∅.

(** ** legacygl.ts: the class [Uniform]

    The value of a uniform of a vector or matrix type is an object, which
    the callers of [value] change in place.  Objects live in a store and
    are named by their index in it; [A] is what an object holds. *)
Module Uniform.

Record state (A : Type) : Type := State {
  store : list A;
  _value : nat;
  stack : list nat
}.
Arguments State {A} _ _ _.
Arguments store {A} _.
Arguments _value {A} _.
Arguments stack {A} _.

(** [new Uniform(type, location)]: the value is a fresh object, the stack
    is empty. *)
Definition create {A : Type} (a : A) : state A := State [a] 0 [].

(** [this.copy()], for a vector or a matrix: [clone] makes a new object
    with the contents of [this._value]. *)
Definition copy {A : Type} (s : state A) : outcome (list A * nat) :=
  let* a := get (store s) (_value s) in
  Ok (store s ++ [a], length (store s)).

(** [push()] *)
Definition push {A : Type} (s : state A) : outcome (state A) :=
  let* r := copy s in
  Ok (State (fst r) (_value s) (stack s ++ [snd r])).

(** [pop()] *)
Definition pop {A : Type} (s : state A) : outcome (state A) :=
  match last (stack s) with
  | None => Raise (Error "Stack underflow")
  | Some v => Ok (State (store s) v (take (length (stack s) - 1) (stack s)))
  end.

(** [get value()]: the object itself, not a copy. *)
Definition value {A : Type} (s : state A) : nat := _value s.

(** What the object returned by [value] holds. *)
Definition contents {A : Type} (s : state A) : option A :=
  store s !! value s.

(** What a caller does with a uniform: [push()], [pop()], or a change in
    place of the object that [value] returns, such as
    [mat4.translate(u.value, u.value, v)]. *)
Inductive call (A : Type) : Type :=
  | Push
  | Pop
  | Update (f : A → A).
Arguments Push {A}.
Arguments Pop {A}.
Arguments Update {A} _.

Definition update {A : Type} (f : A → A) (s : state A) : outcome (state A) :=
  let* a := get (store s) (value s) in
  Ok (State (<[value s := f a]> (store s)) (_value s) (stack s)).

Definition step {A : Type} (c : call A) (s : state A) : outcome (state A) :=
  match c with
  | Push => push s
  | Pop => pop s
  | Update f => update f s
  end.

Fixpoint run {A : Type} (calls : list (call A)) (s : state A)
    : outcome (state A) :=
  match calls with
  | [] => Ok s
  | c :: calls' => let* s' := step c s in run calls' s'
  end.

(** Calls in which every [pop()] answers an earlier [push()] and every
    [push()] is answered. *)
Inductive neutral {A : Type} : list (call A) → Prop :=
  | neutral_nil : neutral []
  | neutral_update f calls : neutral calls → neutral (Update f :: calls)
  | neutral_bracket inner rest :
      neutral inner → neutral rest → neutral (Push :: inner ++ Pop :: rest).

(** The states the calls keep to: the value and the saved copies are
    objects of the store, all different. *)
Definition valid {A : Type} (s : state A) : Prop :=
  _value s < length (store s)
  ∧ NoDup (stack s)
  ∧ (_value s ∉ stack s)
  ∧ Forall (fun l => l < length (store s)) (stack s).

End Uniform.

(** ** legacygl.ts: the class [LegacyGL]

    The vertex attributes and the mode, which [begin] and [vertex] work
    on; the calls to WebGL are left out. *)
Module LegacyGL.

(** An element of [vertex_attributes].  An element of [array] is a number,
    or [undefined], here [None], where a value read had no such
    component. *)
Record vertex_attribute : Type := VertexAttribute {
  name : string;
  size : nat;
  current : list R;
  location : Z;
  array : list (option R)
}.

Record state : Type := State {
  vertex_attributes : list vertex_attribute;
  mode : Z
}.

(** [this.QUADS = 0], set by the constructor and never changed. *)
Definition QUADS : Z := 0.

(** [add_vertex_attribute(name, size)], given the location that
    [gl.getAttribLocation] returns. *)
Definition add_vertex_attribute (loc : Z) (name : string) (size : nat)
    (g : state) : state :=
  State (vertex_attributes g
         ++ [VertexAttribute name size (replicate size 0%R) loc []])
        (mode g).

(** [for (let j = 0; j < size; ++j) array.push(value[j])] *)
Definition push_value (value : list R) (va : vertex_attribute)
    : vertex_attribute :=
  VertexAttribute (name va) (size va) (current va) (location va)
    (foldl (fun array j => array ++ [value !! j]) (array va)
       (seq 0 (size va))).

(** [for (var j = 0; j < size; ++j) array.push(array[size * v + j])] *)
Definition push_copy (v : nat) (va : vertex_attribute) : vertex_attribute :=
  VertexAttribute (name va) (size va) (current va) (location va)
    (foldl (fun array j =>
              array ++ [default None (array !! (size va * v + j))])
       (array va) (seq 0 (size va))).

(** [name === "vertex" ? [x, y, z] : current] *)
Definition vertex_value (x y z : R) (va : vertex_attribute) : list R :=
  if String.eqb (name va) "vertex" then [x; y; z] else current va.

(** [vertex(x, y, z)].  [num_vertices] is the length of the first array
    divided by 3, and [num_vertices % 6 == 4] holds exactly when that
    length is 12 more than a multiple of 18.  Without any attribute the
    read of [vertex_attributes[0].array] fails. *)
Definition vertex (x y z : R) (g : state) : outcome state :=
  let attributes :=
    (fun va => push_value (vertex_value x y z va) va)
    <$> vertex_attributes g in
  let* first := get attributes 0 in
  let num_vertices := length (array first) / 3 in
  if (mode g =? QUADS)%Z && (length (array first) mod 18 =? 12) then
    let v0 := num_vertices - 4 in
    let attributes := push_copy (v0 + 0) <$> attributes in
    let attributes := push_copy (v0 + 2) <$> attributes in
    Ok (State attributes (mode g))
  else Ok (State attributes (mode g)).

(** [begin(mode)] *)
Definition begin (mode : Z) (g : state) : state :=
  State ((fun va =>
            VertexAttribute (name va) (size va) (current va) (location va)
              [])
         <$> vertex_attributes g)
        mode.

(** The calls [vertex(p[0], p[1], p[2])] for the points [ps], in order. *)
Definition vertices (ps : list vec3) (g : state) : outcome state :=
  for_of ps (fun p g => vertex (c0 p) (c1 p) (c2 p) g) g.

(** The four corners of a quad, as they are passed to [vertex], and the
    six vertices of the two triangles that stand for it. *)
Definition corners (q : vec3 * vec3 * vec3 * vec3) : list vec3 :=
  let '(a, b, c, d) := q in [a; b; c; d].

Definition triangles (q : vec3 * vec3 * vec3 * vec3) : list vec3 :=
  let '(a, b, c, d) := q in [a; b; c; d; a; c].

(** What the four calls for the [n]-th quad do to one attribute: four
    values pushed, then its vertices [6 n] and [6 n + 2] once more. *)
Definition quad_step (q : vec3 * vec3 * vec3 * vec3) (n : nat)
    (va : vertex_attribute) : vertex_attribute :=
  let '(a, b, c, d) := q in
  let pv (p : vec3) va :=
    push_value (vertex_value (c0 p) (c1 p) (c2 p) va) va in
  push_copy (6 * n + 2) (push_copy (6 * n + 0) (pv d (pv c (pv b (pv a va))))).

(** *** [end()] with [AUTO_NORMAL]

    An element of an array, or a component read from one, is a number or
    is [undefined]; arithmetic on [undefined] gives [NaN], and on [NaN]
    gives [NaN].  [None] stands for both. *)
Definition num_op (f : R → R → R) (a b : option R) : option R :=
  match a, b with
  | Some x, Some y => Some (f x y)
  | _, _ => None
  end.

(** [v[j]] *)
Definition component (v : list (option R)) (j : nat) : option R :=
  default None (v !! j).

(** [array.slice(start, start + 3)] *)
Definition slice3 (arr : list (option R)) (start : nat) : list (option R) :=
  take 3 (drop start arr).

(** [vec3.sub(out, a, b)]: the three components written to [out]. *)
Definition sub3 (a b : list (option R)) : list (option R) :=
  [num_op Rminus (component a 0) (component b 0);
   num_op Rminus (component a 1) (component b 1);
   num_op Rminus (component a 2) (component b 2)].

(** [vec3.cross(out, a, b)] *)
Definition cross3 (a b : list (option R)) : list (option R) :=
  let ax := component a 0 in
  let ay := component a 1 in
  let az := component a 2 in
  let bx := component b 0 in
  let by' := component b 1 in
  let bz := component b 2 in
  [num_op Rminus (num_op Rmult ay bz) (num_op Rmult az by');
   num_op Rminus (num_op Rmult az bx) (num_op Rmult ax bz);
   num_op Rminus (num_op Rmult ax by') (num_op Rmult ay bx)].

(** [vec3.normalize(out, a)]: [len = x*x + y*y + z*z], replaced by
    [1 / Math.sqrt(len)] if [len > 0], multiplies every component. *)
Definition normalize3 (a : list (option R)) : list (option R) :=
  let x := component a 0 in
  let y := component a 1 in
  let z := component a 2 in
  let len :=
    num_op Rplus (num_op Rplus (num_op Rmult x x) (num_op Rmult y y))
      (num_op Rmult z z) in
  let len :=
    match len with
    | Some l => if Rlt_dec 0 l then Some (1 / sqrt l)%R else Some l
    | None => None
    end in
  [num_op Rmult (component a 0) len; num_op Rmult (component a 1) len;
   num_op Rmult (component a 2) len].

(** [array.splice(start, 3, n[0], n[1], n[2])]: up to three elements from
    [start] on are replaced by the three of [n]; past the end of the array
    the three are appended. *)
Definition splice3 (start : nat) (n : list (option R))
    (arr : list (option R)) : list (option R) :=
  take start arr ++ n ++ drop (start + 3) arr.

Definition set_array (va : vertex_attribute) (arr : list (option R))
    : vertex_attribute :=
  VertexAttribute (name va) (size va) (current va) (location va) arr.

(** The body of [for (let i = 0; i < drawcall.num_vertices / 3; ++i)], for
    the attribute at index [k].  [array] is the array of the first
    attribute, the very object that is spliced when [k] is 0. *)
Definition auto_normal_body (k : nat) (i : nat)
    (attributes : list vertex_attribute)
    : outcome (list vertex_attribute) :=
  let* first := get attributes 0 in
  let array := array first in
  let v0 := slice3 array (9 * i) in
  let v1 := slice3 array (9 * i + 3) in
  let v2 := slice3 array (9 * i + 6) in
  let v1 := sub3 v1 v0 in
  let v2 := sub3 v2 v0 in
  let n := normalize3 (cross3 v1 v2) in
  let* va := get attributes k in
  Ok (<[k := set_array va
               (splice3 (9 * i + 6) n
                  (splice3 (9 * i + 3) n
                     (splice3 (9 * i) n (LegacyGL.array va))))]>
        attributes).

(** [end()], as far as the arrays go that it hands to [gl.bufferData]:
    [TRIANGLES] is the constant [gl.TRIANGLES], [AUTO_NORMAL] the flag
    [this.flags.AUTO_NORMAL].  [i < num_vertices / 3] holds for the
    indices [i] with [9 i] below the length of the first array. *)
Definition end_ (TRIANGLES : Z) (AUTO_NORMAL : bool) (g : state)
    : outcome state :=
  let* first := get (vertex_attributes g) 0 in
  let drawcall_mode :=
    if (mode g =? QUADS)%Z then TRIANGLES else mode g in
  let count := (length (array first) + 8) / 9 in
  let* attributes :=
    for_loop 0 (length (vertex_attributes g))
      (fun k attributes =>
         let* va := get attributes k in
         if (drawcall_mode =? TRIANGLES)%Z && String.eqb (name va) "normal"
            && AUTO_NORMAL
         then for_loop 0 count (auto_normal_body k) attributes
         else Ok attributes)
      (vertex_attributes g) in
  Ok (State attributes (mode g)).

(** The vectors of gl-matrix on points with three numbers. *)
Definition cross (u v : vec3) : vec3 :=
  Vec3 (c1 u * c2 v - c2 u * c1 v) (c2 u * c0 v - c0 u * c2 v)
       (c0 u * c1 v - c1 u * c0 v).

Definition dot (u v : vec3) : R :=
  (c0 u * c0 v + c1 u * c1 v + c2 u * c2 v)%R.

Definition normalize (u : vec3) : vec3 :=
  let len := dot u u in
  let len := if Rlt_dec 0 len then (1 / sqrt len)%R else len in
  Vec3 (c0 u * len) (c1 u * len) (c2 u * len).

(** The normal of the triangle [(a, b, c)]. *)
Definition flat_normal (t : vec3 * vec3 * vec3) : vec3 :=
  let '(a, b, c) := t in normalize (cross (sub b a) (sub c a)).

Definition triangle (t : vec3 * vec3 * vec3) : list vec3 :=
  let '(a, b, c) := t in [a; b; c].

(** The array of positions of a list of triangles, and the array that
    holds the normal of each triangle once for each of its vertices. *)
Definition positions (tris : list (vec3 * vec3 * vec3)) : list (option R) :=
  Some <$> flat_map components (flat_map triangle tris).

Definition normals (tris : list (vec3 * vec3 * vec3)) : list (option R) :=
  Some <$> flat_map components
             (flat_map (fun t => [flat_normal t; flat_normal t; flat_normal t])
                tris).

End LegacyGL.

(** * The subdivision in the arithmetic of the program

    The embeddings above compute with exact real numbers.  The program
    computes with the numbers of JavaScript, binary64 floating-point
    numbers, which are the primitive [float]s of Rocq; and gl-matrix makes
    every [vec3] it creates ([vec3.clone]) a [Float32Array], which rounds
    each number stored in it to single precision.  This third embedding of
    [adaptiveSubdivision] computes as the program does. *)

From Stdlib Require Floats.

Module Rounded.
Import PrimFloat SpecFloat.

(** A point: the three numbers read from a [vec3], whether it is an array
    of numbers passed by the caller or a [Float32Array]. *)
Record vec3 : Type := Vec3 { c0 : float; c1 : float; c2 : float }.

(** [Math.fround(x)], the number read back after [x] has been stored in a
    [Float32Array]: [x] rounded to the nearest number with a mantissa of 24
    bits and an exponent below 128, ties to even. *)
Definition fround (x : float) : float :=
  FloatOps.SF2Prim
    match FloatOps.Prim2SF x with
    | S754_finite s m e => binary_round 24 128 s m e
    | v => v
    end.

(** The number of a length. *)
Definition of_nat (n : nat) : float :=
  FloatOps.SF2Prim (binary_normalize 53 1024 (Z.of_nat n) 0 false).

(** [vec3.clone(a)]: a new [Float32Array] with the numbers of [a]. *)
Definition clone (a : vec3) : vec3 :=
  Vec3 (fround (c0 a)) (fround (c1 a)) (fround (c2 a)).

(** [vec3.lerp(out, a, b, t)]: [out[k] = a[k] + t * (b[k] - a[k])], where
    [out] is a [Float32Array]: in [adaptiveSubdivision] it is always one of
    the clones in [points]. *)
Definition lerp (a b : vec3) (t : float) : vec3 :=
  Vec3 (fround (c0 a + t * (c0 b - c0 a)))
       (fround (c1 a + t * (c1 b - c1 a)))
       (fround (c2 a + t * (c2 b - c2 a))).

(** [vec3.dist(a, b)], the square root of the sum of the squares (gl-matrix
    3.4; the versions before it call [Math.hypot]). *)
Definition dist (a b : vec3) : float :=
  let x := (c0 b - c0 a)%float in
  let y := (c1 b - c1 a)%float in
  let z := (c2 b - c2 a)%float in
  sqrt (x * x + y * y + z * z).

(** [vec3.lerp(points[i], points[i], points[i + 1], t)] *)
Definition lerp_at (t : float) (i : nat) (points : list vec3)
    : outcome (list vec3) :=
  let* a := get points i in
  let* b := get points (i + 1) in
  Ok (<[i := lerp a b t]> points).

(** [lp += vec3.dist(top[i], top[i + 1])] *)
Definition add_dist (top : list vec3) (i : nat) (lp : float)
    : outcome float :=
  let* a := get top i in
  let* b := get top (i + 1) in
  Ok (lp + dist a b)%float.

Record bisection : Type := Bisection {
  points : list vec3;
  p1s : list vec3;
  p2s : list vec3
}.

(** The body of the bisecting [while] loop. *)
Definition bisect_body (s : bisection) : outcome bisection :=
  let* points' :=
    for_loop 0 (length (points s) - 1) (lerp_at 0.5) (points s) in
  let points' := pop points' in
  let* a := get points' 0 in
  let* b := get points' (length points' - 1) in
  Ok (Bisection points' (push (p1s s) (clone a)) (push (p2s s) (clone b))).

Record work : Type := Work {
  stack : list (list vec3);
  out : list vec3
}.

(** One iteration of [while (stack.length > 0)]. *)
#[warnings="-inexact-float"]
Definition subdivide_body (s : work) : outcome work :=
  let* top := get (stack s) (length (stack s) - 1) in
  let stack := pop (stack s) in
  if length top <? 2 then Raise (Error too_few_2)
  else if length top =? 2 then
    let* p := get top 1 in
    Ok (Work stack (push (out s) p))
  else
    let* last := get top (length top - 1) in
    let* lp := for_loop 0 (length top - 1) (add_dist top) 0%float in
    let* first := get top 0 in
    let lc := dist first last in
    let n := of_nat (length top - 1) in
    if (1e-5 <? (n - 1) / (n + 1) * (lp - lc))%float then
      let* b := while_loop (length top) (fun b => 1 <? length (points b))
                  bisect_body
                  (Bisection (clone <$> top) [clone first] [clone last]) in
      Ok (Work (push (push stack (reverse (p2s b))) (p1s b)) (out s))
    else
      Ok (Work stack (push (out s) last)).

(** [adaptiveSubdivision(ps)]; [fuel] bounds the iterations of the work
    loop, which the source does not bound. *)
Definition adaptiveSubdivision (fuel : nat) (ps : list vec3)
    : outcome (list vec3) :=
  if length ps <? 2 then Raise (Error too_few_2)
  else if length ps =? 2 then Ok (clone <$> ps)
  else
    let* first := get ps 0 in
    let* s := while_loop fuel (fun s => 0 <? length (stack s))
                subdivide_body (Work [ps] [clone first]) in
    Ok (out s).

(** [([x, y, z]) => [x + translation[0], y + translation[1], z]], the
    control points after a pan: arrays of numbers, nothing is rounded to
    single precision. *)
Definition pan (translation p : vec3) : vec3 :=
  Vec3 (c0 p + c0 translation) (c1 p + c1 translation) (c2 p).

(** A right-angled triangle with legs of length 2, at the origin and moved
    by 2^24 along both axes, where consecutive single-precision numbers are
    2 apart. *)
Definition near_triangle : list vec3 :=
  [Vec3 0 0 0; Vec3 2 0 0; Vec3 2 2 0].

Definition far_triangle : list vec3 :=
  [Vec3 16777216 16777216 0; Vec3 16777218 16777216 0;
   Vec3 16777218 16777218 0].

(** The first corner of [far_triangle], and its left half: three times
    that corner. *)
Definition far_point : vec3 := Vec3 16777216 16777216 0.

Definition far_corner : list vec3 := [far_point; far_point; far_point].

End Rounded.

(** * Properties *)

(** ** The monad and the loops *)

Lemma bind_Ok {A B : Type} (m : outcome A) (k : A → outcome B) (b : B) :
  bind m k = Ok b ↔ ∃ a, m = Ok a ∧ k a = Ok b.
Proof.
  destruct m as [a|e]; simpl; split.
  - eauto.
  - intros (a' & Ha & Hk). by inversion Ha.
  - discriminate.
  - intros (a' & Ha & _). discriminate.
Qed.

Lemma get_Ok {A : Type} (l : list A) (i : nat) (a : A) :
  l !! i = Some a → get l i = Ok a.
Proof. unfold get. by intros ->. Qed.

Lemma get_inv {A : Type} (l : list A) (i : nat) (a : A) :
  get l i = Ok a → l !! i = Some a.
Proof. unfold get. destruct (l !! i); congruence. Qed.

Lemma get_middle {A : Type} (pre suf : list A) (a : A) :
  get (pre ++ a :: suf) (length pre) = Ok a.
Proof. apply get_Ok, list_lookup_middle. done. Qed.

Lemma length_pop {A : Type} (l : list A) : length (pop l) = length l - 1.
Proof. unfold pop. rewrite length_take. lia. Qed.

Lemma pop_push {A : Type} (l : list A) (x : A) : pop (push l x) = l.
Proof.
  unfold pop, push. rewrite length_app. simpl.
  replace (length l + 1 - 1) with (length l) by lia.
  by rewrite take_app_length.
Qed.

Lemma for_of_push {A B : Type} (f : A → B) (body : A → list B → outcome (list B))
    (l : list A) (acc : list B) :
  (∀ a acc', a ∈ l → body a acc' = Ok (push acc' (f a))) →
  for_of l body acc = Ok (acc ++ (f <$> l)).
Proof.
  revert acc. induction l as [|a l IH]; intros acc Hbody; simpl.
  - by rewrite app_nil_r.
  - rewrite Hbody by left. simpl. rewrite IH.
    + unfold push. by rewrite <- app_assoc.
    + intros a' acc' Hin. apply Hbody. by right.
Qed.

(** ** gl-matrix facts *)

Lemma clone_id (a : vec3) : vec3.clone a = a.
Proof. by destruct a. Qed.

Lemma map_clone (l : list vec3) : vec3.clone <$> l = l.
Proof.
  induction l as [|a l IH]; [done|]. by rewrite fmap_cons, clone_id, IH.
Qed.

Lemma lerp_eq (a b : vec3) (t : R) : vec3.lerp a b t = lerp_spec a b t.
Proof. unfold vec3.lerp, lerp_spec. f_equal; lra. Qed.

(** ** One pass of in-place interpolation *)

Lemma length_lerp_sweep t l : length (lerp_sweep t l) = length l.
Proof.
  induction l as [|a [|b l] IH]; simpl in *; auto.
Qed.

Lemma length_lerp_pairs t l : length (lerp_pairs t l) = length l - 1.
Proof.
  induction l as [|a [|b l] IH]; simpl in *; auto. rewrite IH. lia.
Qed.

Lemma lerp_sweep_pairs t l :
  l ≠ [] → ∃ z, lerp_sweep t l = push (lerp_pairs t l) z ∧ last l = Some z.
Proof.
  induction l as [|a [|b l] IH]; intros Hne; [done| |].
  - by exists a.
  - destruct IH as (z & Hz & Hlast); [done|]. exists z. split.
    + simpl in *. by rewrite Hz.
    + done.
Qed.

Lemma pop_lerp_sweep t l : pop (lerp_sweep t l) = lerp_pairs t l.
Proof.
  destruct l as [|a l]; [done|].
  destruct (lerp_sweep_pairs t (a :: l)) as (z & -> & _); [done|].
  apply pop_push.
Qed.

Lemma lerp_pass_frame t (pre l suf : list vec3) :
  for_loop (length pre) (length l - 1) (lerp_at t) (pre ++ l ++ suf)
  = Ok (pre ++ lerp_sweep t l ++ suf).
Proof.
  revert pre. induction l as [|a [|b l] IH]; intros pre; [done..|].
  replace (length (a :: b :: l) - 1) with (S (length (b :: l) - 1))
    by (simpl; lia).
  cbn [for_loop]. unfold lerp_at at 1.
  change (pre ++ (a :: b :: l) ++ suf) with (pre ++ a :: (b :: l ++ suf)).
  rewrite get_middle. cbn [bind].
  replace (pre ++ a :: b :: l ++ suf) with ((pre ++ [a]) ++ b :: l ++ suf)
    by (by rewrite <- app_assoc).
  replace (length pre + 1) with (length (pre ++ [a]))
    by (rewrite length_app; simpl; lia).
  rewrite get_middle. cbn [bind].
  rewrite <- app_assoc. cbn [app].
  rewrite insert_app_r_alt by lia. rewrite Nat.sub_diag.
  cbn [insert list_insert].
  specialize (IH (pre ++ [vec3.lerp a b t])).
  rewrite length_app, Nat.add_1_r, <- !app_assoc in IH.
  cbn [app length] in IH |- *. rewrite IH.
  by rewrite lerp_eq.
Qed.

Lemma lerp_pass t (l : list vec3) :
  for_loop 0 (length l - 1) (lerp_at t) l = Ok (lerp_sweep t l).
Proof.
  pose proof (lerp_pass_frame t [] l []) as H. simpl in H.
  by rewrite !app_nil_r in H.
Qed.

Lemma reduce_body_spec t l : reduce_body t l = Ok (lerp_pairs t l).
Proof.
  unfold reduce_body. rewrite lerp_pass. simpl. by rewrite pop_lerp_sweep.
Qed.

(** ** De Casteljau reduction *)

Lemma reduce_nil rounds t : reduce rounds t [] = None.
Proof. induction rounds; simpl; auto. Qed.

Lemma reduce_is_Some rounds t l :
  l ≠ [] → length l ≤ S rounds → is_Some (reduce rounds t l).
Proof.
  revert l. induction rounds as [|r IH]; intros l Hne Hlen.
  - destruct l as [|a [|b l]]; simpl in *; [done|eauto|lia].
  - destruct l as [|a [|b l]]; [done|simpl; eauto|].
    cbn [reduce]. apply IH.
    + simpl. discriminate.
    + rewrite length_lerp_pairs. simpl in *. lia.
Qed.

Lemma de_casteljau_is_Some t l : l ≠ [] → is_Some (de_casteljau t l).
Proof. intros Hne. apply reduce_is_Some; [done|lia]. Qed.

Lemma de_casteljau_curve_point t ps :
  ps ≠ [] → de_casteljau t ps = Some (curve_point ps t).
Proof.
  intros Hne. unfold curve_point.
  by destruct (de_casteljau_is_Some t ps Hne) as [p ->].
Qed.

Lemma while_reduce fuel t l p :
  reduce fuel t l = Some p →
  while_loop fuel (fun points => 1 <? length points) (reduce_body t) l
  = Ok [p].
Proof.
  revert l. induction fuel as [|f IH]; intros l Hred.
  - destruct l as [|a [|b l]]; simpl in *; congruence.
  - destruct l as [|a [|b l]].
    + rewrite reduce_nil in Hred. discriminate.
    + simpl in *. congruence.
    + cbn [reduce] in Hred.
      change (while_loop (S f) _ _ (a :: b :: l))
        with (let* s' := reduce_body t (a :: b :: l) in
              while_loop f (fun points => 1 <? length points)
                (reduce_body t) s').
      rewrite reduce_body_spec. cbn [bind]. by apply IH.
Qed.

Lemma evaluateBezierCurve_Ok ps ts :
  2 ≤ length ps →
  evaluateBezierCurve ps ts = Ok (curve_point ps <$> ts).
Proof.
  intros Hlen. unfold evaluateBezierCurve.
  destruct (Nat.ltb_spec (length ps) 2) as [|_]; [lia|].
  rewrite (for_of_push (curve_point ps)); [done|].
  intros t acc _. rewrite map_clone.
  rewrite (while_reduce _ _ _ (curve_point ps t)); [done|].
  apply de_casteljau_curve_point. intros ->. simpl in Hlen. lia.
Qed.

(** ** Parameters 0 and 1 *)

Lemma lerp_spec_0 a b : lerp_spec a b 0 = a.
Proof. destruct a. unfold lerp_spec. simpl. f_equal; lra. Qed.

Lemma lerp_spec_1 a b : lerp_spec a b 1 = b.
Proof. destruct b. unfold lerp_spec. simpl. f_equal; lra. Qed.

Lemma head_lerp_pairs_0 a b l :
  head (lerp_pairs 0 (a :: b :: l)) = Some a.
Proof. simpl. by rewrite lerp_spec_0. Qed.

Lemma last_lerp_pairs_1 a b l :
  last (lerp_pairs 1 (a :: b :: l)) = last (a :: b :: l).
Proof.
  revert a b. induction l as [|c l IH]; intros a b.
  - simpl. by rewrite lerp_spec_1.
  - change (lerp_pairs 1 (a :: b :: c :: l))
      with (lerp_spec a b 1 :: lerp_pairs 1 (b :: c :: l)).
    rewrite (last_cons (lerp_spec a b 1)), IH.
    rewrite (last_cons a (b :: c :: l)), (last_cons b (c :: l)), (last_cons c l).
    by destruct (last l).
Qed.

Lemma reduce_0 rounds l p : reduce rounds 0 l = Some p → head l = Some p.
Proof.
  revert l. induction rounds as [|r IH]; intros l Hred.
  - destruct l as [|a [|b l]]; simpl in *; congruence.
  - destruct l as [|a [|b l]].
    + rewrite reduce_nil in Hred. discriminate.
    + simpl in *. congruence.
    + cbn [reduce] in Hred. apply IH in Hred.
      by rewrite head_lerp_pairs_0 in Hred.
Qed.

Lemma reduce_1 rounds l p : reduce rounds 1 l = Some p → last l = Some p.
Proof.
  revert l. induction rounds as [|r IH]; intros l Hred.
  - destruct l as [|a [|b l]]; simpl in *; congruence.
  - destruct l as [|a [|b l]].
    + rewrite reduce_nil in Hred. discriminate.
    + simpl in *. congruence.
    + cbn [reduce] in Hred. apply IH in Hred.
      by rewrite last_lerp_pairs_1 in Hred.
Qed.

(** ** The work loop of [adaptiveSubdivision] *)

Lemma get_head {A : Type} (l : list A) (a : A) :
  head l = Some a → get l 0 = Ok a.
Proof. rewrite head_lookup. apply get_Ok. Qed.

Lemma get_last {A : Type} (l : list A) (z : A) :
  last l = Some z → get l (length l - 1) = Ok z.
Proof. rewrite last_lookup, Nat.sub_1_r. apply get_Ok. Qed.

Lemma get_push {A : Type} (l : list A) (x : A) :
  get (push l x) (length (push l x) - 1) = Ok x.
Proof. apply get_last. unfold push. apply last_snoc. Qed.

Lemma add_dist_frame (pre l : list vec3) (acc : R) :
  for_loop (length pre) (length l - 1) (add_dist (pre ++ l)) acc
  = Ok (acc + polygon_length l)%R.
Proof.
  revert pre acc. induction l as [|a [|b l] IH]; intros pre acc.
  - simpl. f_equal. lra.
  - simpl. f_equal. lra.
  - replace (length (a :: b :: l) - 1) with (S (length (b :: l) - 1))
      by (simpl; lia).
    cbn [for_loop]. unfold add_dist at 1.
    rewrite get_middle. cbn [bind].
    replace (pre ++ a :: b :: l) with ((pre ++ [a]) ++ b :: l)
      by (by rewrite <- app_assoc).
    replace (length pre + 1) with (length (pre ++ [a]))
      by (rewrite length_app; simpl; lia).
    rewrite get_middle. cbn [bind].
    specialize (IH (pre ++ [a]) (acc + vec3.dist a b)%R).
    rewrite length_app, Nat.add_1_r in IH. rewrite IH.
    f_equal. cbn [polygon_length]. lra.
Qed.

Lemma add_dist_loop (l : list vec3) :
  for_loop 0 (length l - 1) (add_dist l) 0%R = Ok (polygon_length l).
Proof.
  pose proof (add_dist_frame [] l 0%R) as H. simpl in H. rewrite H.
  f_equal. lra.
Qed.

Lemma lerp_pairs_nonempty t l : 2 ≤ length l → lerp_pairs t l ≠ [].
Proof. destruct l as [|a [|b l]]; simpl; [lia..|discriminate]. Qed.

Lemma bisect_body_spec row q1 q2 a z :
  head (lerp_pairs 0.5 row) = Some a →
  last (lerp_pairs 0.5 row) = Some z →
  bisect_body (Bisection row q1 q2)
  = Ok (Bisection (lerp_pairs 0.5 row) (push q1 a) (push q2 z)).
Proof.
  intros Ha Hz. unfold bisect_body. cbn [points p1s p2s].
  rewrite lerp_pass. cbn [bind]. rewrite pop_lerp_sweep.
  rewrite (get_head _ _ Ha), (get_last _ _ Hz). cbn [bind].
  by rewrite !clone_id.
Qed.

Lemma while_bisect fuel row q1 q2 :
  row ≠ [] → length row ≤ S fuel →
  ∃ pts,
    while_loop fuel (fun b => 1 <? length (points b)) bisect_body
      (Bisection row q1 q2)
    = Ok (Bisection pts
            (q1 ++ heads (length row - 1) 0.5 (lerp_pairs 0.5 row))
            (q2 ++ lasts (length row - 1) 0.5 (lerp_pairs 0.5 row))).
Proof.
  revert row q1 q2. induction fuel as [|f IH]; intros row q1 q2 Hne Hlen.
  - destruct row as [|a [|b row]]; simpl in *; [done| |lia].
    exists [a]. by rewrite !app_nil_r.
  - destruct row as [|a [|b row]]; [done| |].
    + exists [a]. simpl. by rewrite !app_nil_r.
    + set (l := a :: b :: row) in *.
      assert (Hne' : lerp_pairs 0.5 l ≠ []) by done.
      destruct (lerp_pairs 0.5 l) as [|h row'] eqn:Erow; [done|].
      destruct (last (h :: row')) as [z|] eqn:Ez;
        [|by apply last_None in Ez].
      destruct (IH (h :: row') (push q1 h) (push q2 z)) as (pts & Hpts).
      { done. }
      { rewrite <- Erow, length_lerp_pairs. simpl in *. lia. }
      exists pts.
      change (while_loop (S f) _ _ (Bisection l q1 q2))
        with (let* s' := bisect_body (Bisection l q1 q2) in
              while_loop f (fun b => 1 <? length (points b)) bisect_body s').
      rewrite (bisect_body_spec l q1 q2 h z) by (by rewrite Erow).
      cbn [bind]. rewrite Erow, Hpts. unfold push. rewrite <- !app_assoc.
      assert (Hl : length l - 1 = S (length (h :: row') - 1)).
      { rewrite <- Erow, length_lerp_pairs. unfold l. simpl. lia. }
      rewrite Hl. cbn [heads lasts]. by rewrite Ez.
Qed.

Lemma heads_unfold t l a :
  head l = Some a →
  heads (length l) t l = a :: heads (length l - 1) t (lerp_pairs t l).
Proof.
  destruct l as [|a' l]; [done|]. intros [= ->].
  cbn [length heads]. by rewrite Nat.sub_1_r.
Qed.

Lemma lasts_unfold t l z :
  last l = Some z →
  lasts (length l) t l = z :: lasts (length l - 1) t (lerp_pairs t l).
Proof.
  destruct l as [|a l]; [done|]. intros Hz.
  cbn [length lasts]. rewrite Hz. by rewrite Nat.sub_1_r.
Qed.

Lemma subdivide_body_spec stk top acc a z :
  3 ≤ length top → head top = Some a → last top = Some z →
  subdivide_body (Work (push stk top) acc)
  = Ok (if Rgt_dec (gravesen_error top) 1e-5
        then Work (push (push stk (right_half top)) (left_half top)) acc
        else Work stk (push acc z)).
Proof.
  intros Hlen Ha Hz. unfold subdivide_body. cbn [stack out].
  rewrite get_push. cbn [bind]. rewrite pop_push.
  destruct (Nat.ltb_spec (length top) 2) as [|_]; [lia|].
  destruct (Nat.eqb_spec (length top) 2) as [|_]; [lia|].
  rewrite (get_last _ _ Hz), add_dist_loop, (get_head _ _ Ha).
  cbn [bind].
  assert (Hc : vec3.dist a z = chord_length top).
  { unfold chord_length. by rewrite Ha, Hz. }
  rewrite Hc. fold (gravesen_error top).
  destruct (Rgt_dec (gravesen_error top) 1e-5) as [Hgt|Hle]; [|done].
  rewrite map_clone, !clone_id.
  destruct (while_bisect (length top) top [a] [z]) as (pts & ->).
  { intros ->. simpl in Hlen. lia. }
  { lia. }
  cbn [bind p1s p2s]. unfold left_half, right_half.
  by rewrite (heads_unfold _ _ _ Ha), (lasts_unfold _ _ _ Hz).
Qed.

(** ** The halves have as many points as the segment *)

Lemma length_heads rounds t l :
  length l ≤ rounds → length (heads rounds t l) = length l.
Proof.
  revert l. induction rounds as [|r IH]; intros l Hlen.
  - destruct l; simpl in *; [done|lia].
  - destruct l as [|a l]; [done|]. cbn [heads length].
    rewrite IH; rewrite length_lerp_pairs; simpl in *; lia.
Qed.

Lemma length_lasts rounds t l :
  length l ≤ rounds → length (lasts rounds t l) = length l.
Proof.
  revert l. induction rounds as [|r IH]; intros l Hlen.
  - destruct l; simpl in *; [done|lia].
  - destruct l as [|a l]; [done|].
    destruct (last (a :: l)) as [z|] eqn:Ez; [|by apply last_None in Ez].
    cbn [lasts]. rewrite Ez. cbn [length].
    rewrite IH; rewrite length_lerp_pairs; simpl in *; lia.
Qed.

Lemma length_left_half l : length (left_half l) = length l.
Proof. apply length_heads. lia. Qed.

Lemma length_right_half l : length (right_half l) = length l.
Proof.
  unfold right_half. rewrite length_reverse. apply length_lasts. lia.
Qed.

Lemma last_right_half l : l ≠ [] → last (right_half l) = last l.
Proof.
  intros Hne. unfold right_half. rewrite last_reverse.
  destruct l as [|a l]; [done|].
  destruct (last (a :: l)) as [z|] eqn:Ez; [|by apply last_None in Ez].
  cbn [length lasts]. by rewrite Ez.
Qed.

Lemma head_left_half l : head (left_half l) = head l.
Proof. by destruct l. Qed.

(** ** Bisection halves the spread of the control polygon *)

Section Spread.
Local Open Scope R_scope.

Lemma close_sym M a b : close M a b → close M b a.
Proof. unfold close. lra. Qed.

Lemma close_mono M M' a b : M <= M' → close M a b → close M' a b.
Proof. unfold close. lra. Qed.

Lemma chain_mono M M' l : M <= M' → chain M l → chain M' l.
Proof.
  intros HM. induction l as [|a [|b l] IH]; [done..|].
  intros [Hab Hl]. split; [by eapply close_mono|by apply IH].
Qed.

Lemma close_lerp_half M a b c :
  close M a b → close M b c →
  close M (lerp_spec a b 0.5) (lerp_spec b c 0.5).
Proof. unfold close, lerp_spec. simpl. lra. Qed.

Lemma close_head_half M a b :
  close M a b → close (M / 2) a (lerp_spec a b 0.5).
Proof. unfold close, lerp_spec. simpl. lra. Qed.

Lemma close_last_half M a b :
  close M a b → close (M / 2) b (lerp_spec a b 0.5).
Proof. unfold close, lerp_spec. simpl. lra. Qed.

Lemma chain_lerp_pairs M l : chain M l → chain M (lerp_pairs 0.5 l).
Proof.
  induction l as [|a [|b [|c l]] IH]; [done..|].
  intros (Hab & Hbc & Hl). split.
  - by apply close_lerp_half.
  - apply IH. by split.
Qed.

Lemma chain_heads M rounds l :
  chain M l → chain (M / 2) (heads rounds 0.5 l).
Proof.
  revert l. induction rounds as [|r IH]; intros l Hl; [done|].
  destruct l as [|a [|b l]]; [done| |].
  - simpl. by destruct r.
  - pose proof (IH _ (chain_lerp_pairs _ _ Hl)) as Hrec.
    cbn [heads]. destruct r as [|r']; [done|].
    cbn [lerp_pairs heads] in Hrec |- *. split; [|done].
    apply close_head_half, Hl.
Qed.

Lemma close_last_lerp_pairs M l z z' :
  chain M l → last l = Some z → last (lerp_pairs 0.5 l) = Some z' →
  close (M / 2) z z'.
Proof.
  induction l as [|a [|b [|c l]] IH]; [done..| |].
  - simpl. intros [Hab _] [= <-] [= <-]. by apply close_last_half.
  - intros (_ & Hl) Hz Hz'. apply IH; [done|exact Hz|exact Hz'].
Qed.

Lemma chain_lasts M rounds l :
  chain M l → chain (M / 2) (lasts rounds 0.5 l).
Proof.
  revert l. induction rounds as [|r IH]; intros l Hl; [done|].
  cbn [lasts]. destruct (last l) as [z|] eqn:Ez; [|done].
  pose proof (IH _ (chain_lerp_pairs _ _ Hl)) as Hrec.
  destruct r as [|r']; [done|]. cbn [lasts] in Hrec |- *.
  destruct (last (lerp_pairs 0.5 l)) as [z'|] eqn:Ez'; [|done].
  split; [|done]. by eapply close_last_lerp_pairs.
Qed.

Lemma chain_snoc M l b :
  chain M l → (∀ a, last l = Some a → close M a b) → chain M (l ++ [b]).
Proof.
  induction l as [|a [|c l] IH]; intros Hl Hb; [done| |].
  - simpl. split; [|done]. by apply Hb.
  - destruct Hl as [Hac Hl]. split; [done|]. by apply IH.
Qed.

Lemma chain_reverse M l : chain M l → chain M (reverse l).
Proof.
  induction l as [|a l IH]; intros Hl; [done|].
  rewrite reverse_cons. apply chain_snoc.
  - apply IH. by destruct l as [|b l]; [|destruct Hl].
  - intros b. rewrite last_reverse. destruct l as [|b' l]; [done|].
    intros [= ->]. apply close_sym, Hl.
Qed.

Lemma chain_left_half M l : chain M l → chain (M / 2) (left_half l).
Proof. apply chain_heads. Qed.

Lemma chain_right_half M l : chain M l → chain (M / 2) (right_half l).
Proof. intros Hl. by apply chain_reverse, chain_lasts. Qed.

(** Every polygon is a chain for some bound. *)
Lemma chain_exists l : ∃ M, 0 <= M ∧ chain M l.
Proof.
  induction l as [|a [|b l] IH].
  - exists 0. split; [lra|done].
  - exists 0. split; [lra|done].
  - destruct IH as (M & HM & Hl).
    set (x := c0 b - c0 a). set (y := c1 b - c1 a). set (z := c2 b - c2 a).
    exists (M + (x * x + 1) + (y * y + 1) + (z * z + 1)).
    assert (Hx : 0 <= x * x) by nra.
    assert (Hy : 0 <= y * y) by nra.
    assert (Hz : 0 <= z * z) by nra.
    split; [lra|]. split.
    + unfold close. fold x y z. repeat split; nra.
    + eapply chain_mono; [|exact Hl]. lra.
Qed.

(** ** A flat polygon passes the test *)

Lemma dist_nonneg a b : 0 <= vec3.dist a b.
Proof. apply sqrt_pos. Qed.

Lemma dist_close M a b : 0 <= M → close M a b → vec3.dist a b <= 2 * M.
Proof.
  intros HM (Hx & Hy & Hz). unfold vec3.dist. cbv zeta.
  set (x := c0 b - c0 a) in *. set (y := c1 b - c1 a) in *.
  set (z := c2 b - c2 a) in *.
  rewrite <- (sqrt_square (2 * M)) by lra.
  apply sqrt_le_1_alt. nra.
Qed.

Lemma polygon_length_nonneg l : 0 <= polygon_length l.
Proof.
  induction l as [|a [|b l] IH]; simpl in *; try lra.
  pose proof (dist_nonneg a b). lra.
Qed.

Lemma polygon_length_chain M l :
  0 <= M → chain M l → polygon_length l <= INR (length l) * (2 * M).
Proof.
  intros HM. induction l as [|a [|b l] IH]; intros Hl.
  - simpl. lra.
  - simpl. lra.
  - destruct Hl as [Hab Hl]. specialize (IH Hl).
    pose proof (dist_close _ _ _ HM Hab).
    change (polygon_length (a :: b :: l))
      with (vec3.dist a b + polygon_length (b :: l)).
    change (length (a :: b :: l)) with (S (length (b :: l))).
    rewrite S_INR. lra.
Qed.

Lemma chord_length_nonneg l : 0 <= chord_length l.
Proof.
  unfold chord_length. destruct (head l), (last l); try lra.
  apply dist_nonneg.
Qed.

Lemma gravesen_error_chain M l :
  (3 ≤ length l)%nat → 0 <= M → chain M l →
  gravesen_error l <= INR (length l) * (2 * M).
Proof.
  intros Hlen HM Hl. unfold gravesen_error. cbv zeta.
  pose proof (polygon_length_chain _ _ HM Hl) as Hp.
  pose proof (polygon_length_nonneg l) as Hp0.
  pose proof (chord_length_nonneg l) as Hc.
  assert (Hn : 3 <= INR (length l)).
  { replace 3 with (INR 3) by (simpl; lra). by apply le_INR. }
  set (N := INR (length l)) in *.
  assert (Hinv : 0 < / (N - 1 + 1)) by (apply Rinv_0_lt_compat; lra).
  assert (Hone : (N - 1 + 1) * / (N - 1 + 1) = 1) by (apply Rinv_r; lra).
  unfold Rdiv. set (i := / (N - 1 + 1)) in *.
  set (d := polygon_length l - chord_length l) in *.
  assert (Hf : 0 <= (N - 1 - 1) * i <= 1) by nra.
  assert (Hd : d <= N * (2 * M)) by (unfold d; lra).
  destruct (Rle_dec 0 d); nra.
Qed.

(** Halving often enough brings any bound under the threshold. *)
Lemma depth_exists (B : R) : ∃ d : nat, B <= 1e-5 * 2 ^ d.
Proof.
  destruct (Pow_x_infinity 2) with (b := B * 100000) as [N HN].
  { rewrite Rabs_right; lra. }
  exists N. specialize (HN N (Nat.le_refl N)).
  rewrite Rabs_right in HN; [lra|].
  apply Rle_ge, pow_le. lra.
Qed.

End Spread.

(** ** The work loop terminates *)

Abbreviation work_loop fuel :=
  (while_loop fuel (fun s => 0 <? length (stack s)) subdivide_body).

Lemma work_loop_done fuel acc : work_loop fuel (Work [] acc) = Ok (Work [] acc).
Proof. by destruct fuel. Qed.

Lemma work_loop_step fuel stk top acc :
  work_loop (S fuel) (Work (push stk top) acc)
  = let* s' := subdivide_body (Work (push stk top) acc) in work_loop fuel s'.
Proof.
  cbn [while_loop stack]. unfold push at 1. rewrite length_app.
  simpl. by rewrite Nat.add_1_r.
Qed.

Lemma work_loop_flat fuel stk top acc a z :
  3 ≤ length top → head top = Some a → last top = Some z →
  ¬ (gravesen_error top > 1e-5)%R →
  work_loop (S fuel) (Work (push stk top) acc)
  = work_loop fuel (Work stk (push acc z)).
Proof.
  intros Hlen Ha Hz Hflat.
  rewrite work_loop_step, (subdivide_body_spec _ _ _ a z) by done.
  by destruct (Rgt_dec (gravesen_error top) 1e-5).
Qed.

Lemma work_loop_bisect fuel stk top acc a z :
  3 ≤ length top → head top = Some a → last top = Some z →
  (gravesen_error top > 1e-5)%R →
  work_loop (S fuel) (Work (push stk top) acc)
  = work_loop fuel
      (Work (push (push stk (right_half top)) (left_half top)) acc).
Proof.
  intros Hlen Ha Hz Hcurved.
  rewrite work_loop_step, (subdivide_body_spec _ _ _ a z) by done.
  by destruct (Rgt_dec (gravesen_error top) 1e-5).
Qed.

Lemma head_last_exist (l : list vec3) :
  1 ≤ length l → ∃ a z, head l = Some a ∧ last l = Some z.
Proof.
  intros Hlen. destruct l as [|a l]; [simpl in Hlen; lia|].
  destruct (last (a :: l)) as [z|] eqn:Ez; [|by apply last_None in Ez].
  by exists a, z.
Qed.

(** A segment whose spread is below the threshold times [2 ^ d] is
    consumed after finitely many iterations, which append to [out] a
    non-empty run of points ending with the last point of the segment. *)
Lemma process_segment (d : nat) (M : R) (top : list vec3) :
  3 ≤ length top → (0 <= M)%R → chain M top →
  (INR (length top) * (2 * M) <= 1e-5 * 2 ^ d)%R →
  ∃ fuel pts, pts ≠ [] ∧ last pts = last top ∧
    ∀ stk acc k,
      work_loop (fuel + k) (Work (push stk top) acc)
      = work_loop k (Work stk (acc ++ pts)).
Proof.
  revert M top. induction d as [|d IH]; intros M top Hlen HM Hchain Hd;
    destruct (head_last_exist top) as (a & z & Ha & Hz); try lia;
    pose proof (gravesen_error_chain _ _ Hlen HM Hchain) as HE.
  - exists 1, [z]. split; [done|]. split; [done|]. intros stk acc k.
    apply (work_loop_flat _ _ _ _ a z); try done. simpl in Hd. lra.
  - destruct (Rgt_dec (gravesen_error top) 1e-5) as [Hcurved|Hflat].
    + destruct (IH (M / 2)%R (left_half top)) as (fl & pl & Hpl & _ & Hl).
      { rewrite length_left_half. lia. }
      { lra. }
      { by apply chain_left_half. }
      { rewrite length_left_half. simpl in Hd. lra. }
      destruct (IH (M / 2)%R (right_half top)) as (fr & pr & Hpr & Hlast & Hr).
      { rewrite length_right_half. lia. }
      { lra. }
      { by apply chain_right_half. }
      { rewrite length_right_half. simpl in Hd. lra. }
      exists (S (fl + fr)), (pl ++ pr). split; [|split].
      * by destruct pl.
      * rewrite last_app, Hlast, last_right_half, Hz; [done|].
        intros ->. simpl in Hlen. lia.
      * intros stk acc k.
        replace (S (fl + fr) + k) with (S (fl + (fr + k))) by lia.
        rewrite (work_loop_bisect _ _ _ _ a z) by done.
        by rewrite Hl, Hr, app_assoc.
    + exists 1, [z]. split; [done|]. split; [done|]. intros stk acc k.
      by apply (work_loop_flat _ _ _ _ a z).
Qed.

Lemma segment_terminates (top : list vec3) :
  3 ≤ length top →
  ∃ fuel pts, pts ≠ [] ∧ last pts = last top ∧
    ∀ stk acc k,
      work_loop (fuel + k) (Work (push stk top) acc)
      = work_loop k (Work stk (acc ++ pts)).
Proof.
  intros Hlen. destruct (chain_exists top) as (M & HM & Hchain).
  destruct (depth_exists (INR (length top) * (2 * M))) as [d Hd].
  by apply (process_segment d M).
Qed.

(** ** The work loop raises nothing *)

Lemma subdivide_body_lengths (n : nat) (s : work) :
  3 ≤ n → Forall (fun top => length top = n) (stack s) → stack s ≠ [] →
  ∃ s', subdivide_body s = Ok s'
        ∧ Forall (fun top => length top = n) (stack s').
Proof.
  intros Hn Hall Hne. destruct s as [stk acc]. cbn [stack] in *.
  destruct stk as [|top stk _] using rev_ind; [done|].
  apply Forall_app in Hall as [Hstk Htop].
  rewrite Forall_singleton in Htop.
  destruct (head_last_exist top) as (a & z & Ha & Hz); [lia|].
  fold (push stk top). rewrite (subdivide_body_spec _ _ _ a z) by (done || lia).
  destruct (Rgt_dec (gravesen_error top) 1e-5); eexists; (split; [done|]);
    cbn [stack]; [|done].
  unfold push. rewrite !Forall_app, !Forall_singleton.
  by rewrite length_left_half, length_right_half.
Qed.

Lemma work_loop_outcome (n fuel : nat) (s : work) :
  3 ≤ n → Forall (fun top => length top = n) (stack s) →
  (∃ acc, work_loop fuel s = Ok (Work [] acc))
  ∨ work_loop fuel s = Raise OutOfFuel.
Proof.
  intros Hn. revert s. induction fuel as [|f IH]; intros s Hall.
  - destruct s as [[|top stk] acc]; [left|right]; eauto.
  - destruct s as [[|top stk] acc]; [left; eauto|].
    destruct (subdivide_body_lengths n (Work (top :: stk) acc))
      as (s' & Hs' & Hall'); [done..|].
    cbn [while_loop stack length Nat.ltb Nat.leb]. rewrite Hs'. cbn [bind].
    by apply IH.
Qed.

Lemma adaptiveSubdivision_outcome (fuel : nat) (ps : list vec3) :
  2 ≤ length ps →
  (∃ acc, adaptiveSubdivision fuel ps = Ok acc)
  ∨ adaptiveSubdivision fuel ps = Raise OutOfFuel.
Proof.
  intros Hlen. unfold adaptiveSubdivision.
  destruct (Nat.ltb_spec (length ps) 2) as [|_]; [lia|].
  destruct (Nat.eqb_spec (length ps) 2) as [|Hne]; [left; eauto|].
  destruct (head_last_exist ps) as (a & _ & Ha & _); [lia|].
  rewrite (get_head _ _ Ha). cbn [bind].
  destruct (work_loop_outcome (length ps) fuel (Work [ps] [vec3.clone a]))
    as [[acc ->]| ->]; [lia|by apply Forall_singleton|left|right]; eauto.
Qed.

Lemma adaptiveSubdivision_returns (ps : list vec3) :
  3 ≤ length ps →
  ∃ fuel pts a, head ps = Some a ∧ pts ≠ [] ∧ last pts = last ps ∧
    ∀ k, adaptiveSubdivision (fuel + k) ps = Ok (a :: pts).
Proof.
  intros Hlen.
  destruct (segment_terminates ps Hlen) as (fuel & pts & Hpts & Hlast & Hrun).
  destruct (head_last_exist ps) as (a & _ & Ha & _); [lia|].
  exists fuel, pts, a. repeat split; try done. intros k.
  unfold adaptiveSubdivision.
  destruct (Nat.ltb_spec (length ps) 2) as [|_]; [lia|].
  destruct (Nat.eqb_spec (length ps) 2) as [|_]; [lia|].
  rewrite (get_head _ _ Ha). cbn [bind].
  change [ps] with (push [] ps). rewrite Hrun, work_loop_done.
  cbn [bind out]. by rewrite clone_id.
Qed.

(** ** Catmull-Rom sampling *)

Lemma for_loop_push {A : Type} (f : nat → A) (i count : nat) (acc : list A) :
  for_loop i count (fun i acc => Ok (push acc (f i))) acc
  = Ok (acc ++ (f <$> seq i count)).
Proof.
  revert i acc. induction count as [|n IH]; intros i acc; simpl.
  - by rewrite app_nil_r.
  - rewrite IH. unfold push. by rewrite <- app_assoc.
Qed.

Lemma sample_segment_spec alpha tension p0 p1 p2 p3 acc :
  sample_segment alpha tension p0 p1 p2 p3 acc
  = Ok (acc ++ segment_samples alpha tension p0 p1 p2 p3).
Proof. unfold sample_segment. apply for_loop_push. Qed.

Lemma length_segment_samples alpha tension p0 p1 p2 p3 :
  length (segment_samples alpha tension p0 p1 p2 p3) = 21.
Proof. unfold segment_samples. by rewrite length_fmap, length_seq. Qed.

Lemma length_spline_samples alpha tension ps :
  length (spline_samples alpha tension ps) = 21 * (length ps - 3).
Proof.
  induction ps as [|p0 [|p1 [|p2 [|p3 ps]]] IH]; [done..|].
  change (spline_samples alpha tension (p0 :: p1 :: p2 :: p3 :: ps))
    with (segment_samples alpha tension p0 p1 p2 p3
          ++ spline_samples alpha tension (p1 :: p2 :: p3 :: ps)).
  rewrite length_app, length_segment_samples, IH. simpl. lia.
Qed.

Lemma segments_frame alpha tension (pre l acc : list vec3) :
  for_loop (length pre) (length l - 3)
    (segment_body (pre ++ l) alpha tension) acc
  = Ok (acc ++ spline_samples alpha tension l).
Proof.
  revert pre acc.
  induction l as [|p0 [|p1 [|p2 [|p3 l]]] IH]; intros pre acc;
    try (simpl; by rewrite app_nil_r).
  replace (length (p0 :: p1 :: p2 :: p3 :: l) - 3)
    with (S (length (p1 :: p2 :: p3 :: l) - 3)) by (simpl; lia).
  cbn [for_loop]. unfold segment_body at 1.
  rewrite get_middle. cbn [bind].
  rewrite (get_Ok _ _ p1), (get_Ok _ _ p2), (get_Ok _ _ p3).
  2-4: rewrite lookup_app_r by lia.
  2: by replace (length pre + 3 - length pre) with 3 by lia.
  2: by replace (length pre + 2 - length pre) with 2 by lia.
  2: by replace (length pre + 1 - length pre) with 1 by lia.
  cbn [bind]. rewrite sample_segment_spec. cbn [bind].
  specialize (IH (pre ++ [p0])
                 (acc ++ segment_samples alpha tension p0 p1 p2 p3)).
  rewrite length_app, Nat.add_1_r, <- app_assoc in IH.
  cbn [app] in IH. rewrite IH.
  by rewrite <- app_assoc.
Qed.

Lemma catmullRomImpl_spec ps alpha tension :
  catmullRomImpl ps alpha tension = Ok (spline_samples alpha tension ps).
Proof.
  unfold catmullRomImpl. apply (segments_frame alpha tension [] ps []).
Qed.

Lemma cubic_sample_0 a b c d : cubic_sample a b c d 0 = d.
Proof.
  destruct d. unfold cubic_sample, vec3.fromValues. simpl. f_equal; lra.
Qed.

Lemma cubic_sample_20 alpha tension p0 p1 p2 p3 :
  cubic_sample (coef_a alpha tension p0 p1 p2 p3)
               (coef_b alpha tension p0 p1 p2 p3)
               (m1 alpha tension p0 p1 p2) p1 20
  = p2.
Proof.
  destruct p2 as [x2 y2 z2].
  unfold cubic_sample, vec3.fromValues, coef_a, coef_b. cbn [c0 c1 c2].
  replace (INR 20 / 20)%R with 1%R by (simpl; lra).
  f_equal; lra.
Qed.

(** ** More fuel changes nothing *)

Lemma while_loop_mono {St : Type} (cond : St → bool) (body : St → outcome St)
    (fuel k : nat) (s r : St) :
  while_loop fuel cond body s = Ok r →
  while_loop (fuel + k) cond body s = Ok r.
Proof.
  revert s. induction fuel as [|f IH]; intros s; simpl.
  - destruct (cond s) eqn:Ec; [done|]. intros [= <-].
    destruct k; simpl; by rewrite Ec.
  - destruct (cond s); [|done]. destruct (body s) as [s'|e]; [|done].
    simpl. apply IH.
Qed.

Lemma adaptiveSubdivision_mono (fuel k : nat) (ps acc : list vec3) :
  adaptiveSubdivision fuel ps = Ok acc →
  adaptiveSubdivision (fuel + k) ps = Ok acc.
Proof.
  unfold adaptiveSubdivision.
  destruct (length ps <? 2); [done|]. destruct (length ps =? 2); [done|].
  destruct (get ps 0) as [a|e]; [|done]. cbn [bind].
  destruct (while_loop fuel _ _ _) as [s|e] eqn:Es; [|done].
  by rewrite (while_loop_mono _ _ _ k _ _ Es).
Qed.

Lemma adaptiveSubdivision_unique (f1 f2 : nat) (ps o1 o2 : list vec3) :
  adaptiveSubdivision f1 ps = Ok o1 → adaptiveSubdivision f2 ps = Ok o2 →
  o1 = o2.
Proof.
  intros H1 H2.
  apply (adaptiveSubdivision_mono _ f2) in H1.
  apply (adaptiveSubdivision_mono _ f1) in H2.
  rewrite (Nat.add_comm f2 f1) in H2. congruence.
Qed.

(** ** [quadraticUniformBSpline] on three points *)

Lemma quadraticUniformBSpline_3 p0 p1 p2 ts :
  quadraticUniformBSpline [p0; p1; p2] ts = Ok ((fun _ => p1) <$> ts).
Proof.
  unfold quadraticUniformBSpline. cbn [length Nat.ltb Nat.leb].
  rewrite (for_of_push (fun _ => p1)); [done|].
  intros t acc _. rewrite map_clone.
  cbn [while_loop length Nat.ltb Nat.leb Nat.sub for_loop bind].
  unfold lerp_at. by cbn.
Qed.

(** ** [quadraticUniformBSpline] returns *)

Lemma quadratic_body t (l : list vec3) :
  2 ≤ length l →
  (let* points' := for_loop 0 (length l - 2) (lerp_at t) l in Ok (pop points'))
  = Ok (lerp_sweep t (pop l)).
Proof.
  intros Hlen. destruct l as [|z l _] using rev_ind; [simpl in Hlen; lia|].
  fold (push l z). rewrite pop_push.
  pose proof (lerp_pass_frame t [] l [z]) as Hpass. simpl in Hpass.
  unfold push. rewrite length_app. simpl.
  replace (length l + 1 - 2) with (length l - 1) by lia.
  rewrite Hpass. cbn [bind]. f_equal. apply pop_push.
Qed.

Lemma quadratic_while fuel t (l : list vec3) :
  2 ≤ length l → length l ≤ fuel + 2 →
  ∃ pts,
    while_loop fuel (fun points => 2 <? length points)
      (fun points =>
         let* points' := for_loop 0 (length points - 2) (lerp_at t) points in
         Ok (pop points')) l
    = Ok pts
    ∧ length pts = 2.
Proof.
  revert l. induction fuel as [|f IH]; intros l Hlo Hhi.
  - exists l. assert (Hl : length l = 2) by lia. simpl. by rewrite Hl.
  - destruct (Nat.ltb_spec 2 (length l)) as [Hlt|Hge].
    + destruct (IH (lerp_sweep t (pop l))) as (pts & Hpts & Hlen).
      { rewrite length_lerp_sweep, length_pop. lia. }
      { rewrite length_lerp_sweep, length_pop. lia. }
      exists pts. split; [|done]. cbn [while_loop].
      destruct (Nat.ltb_spec 2 (length l)) as [_|]; [|lia].
      rewrite quadratic_body by lia. cbn [bind]. exact Hpts.
    + exists l. split; [|lia]. cbn [while_loop].
      by destruct (Nat.ltb_spec 2 (length l)) as [|_]; [lia|].
Qed.

Lemma quadraticUniformBSpline_returns ps ts :
  3 ≤ length ps → ∃ res, quadraticUniformBSpline ps ts = Ok res.
Proof.
  intros Hlen. unfold quadraticUniformBSpline.
  destruct (Nat.ltb_spec (length ps) 3) as [|_]; [lia|].
  generalize (@nil vec3). induction ts as [|t ts IH]; intros acc; [by eexists|].
  cbn [for_of].
  destruct (quadratic_while (length ps) t (vec3.clone <$> ps))
    as (pts & -> & Hpts); rewrite ?length_fmap; try lia.
  cbn [bind]. destruct pts as [|a [|b pts]]; try (simpl in Hpts; lia).
  cbn. apply IH.
Qed.

Lemma cubicCatmullRomSpline_returns ps k :
  4 ≤ length ps → ∃ r, cubicCatmullRomSpline ps k = Ok r.
Proof.
  intros Hlen. unfold cubicCatmullRomSpline, push_all_if.
  destruct (Nat.ltb_spec (length ps) 4) as [|_]; [lia|].
  rewrite !catmullRomImpl_spec.
  destruct (uniform k), (chordal k), (centripetal k); cbn [bind]; by eexists.
Qed.

Lemma uniformBSpline_eq ps ts : uniformBSpline ps ts = evaluateBezierCurve ps ts.
Proof. reflexivity. Qed.

(** ** The two halves trace the two halves of the curve *)

Section Halves.
Local Open Scope R_scope.

Lemma lerp_spec_comm a b c s t :
  lerp_spec (lerp_spec a b t) (lerp_spec b c t) s
  = lerp_spec (lerp_spec a b s) (lerp_spec b c s) t.
Proof. unfold lerp_spec. simpl. f_equal; ring. Qed.

Lemma lerp_pairs_cons t a b l :
  lerp_pairs t (a :: b :: l) = lerp_spec a b t :: lerp_pairs t (b :: l).
Proof. done. Qed.

Lemma heads_cons rounds t a l :
  heads (S rounds) t (a :: l) = a :: heads rounds t (lerp_pairs t (a :: l)).
Proof. done. Qed.

Lemma lerp_pairs_comm s t l :
  lerp_pairs s (lerp_pairs t l) = lerp_pairs t (lerp_pairs s l).
Proof.
  induction l as [|a [|b [|c l]] IH]; [done..|].
  rewrite (lerp_pairs_cons t a b), (lerp_pairs_cons s a b).
  rewrite (lerp_pairs_cons t b c), (lerp_pairs_cons s b c) in *.
  rewrite (lerp_pairs_cons s (lerp_spec a b t)).
  rewrite (lerp_pairs_cons t (lerp_spec a b s)).
  by rewrite IH, lerp_spec_comm.
Qed.

Lemma lerp_spec_nested a b u h :
  lerp_spec a (lerp_spec a b h) u = lerp_spec a b (u * h).
Proof. unfold lerp_spec. simpl. f_equal; ring. Qed.

Lemma lerp_pairs_heads u h rounds l :
  lerp_pairs u (heads rounds h l)
  = heads (rounds - 1)%nat h (lerp_pairs (u * h) l).
Proof.
  revert l. induction rounds as [|r IH]; intros l; [done|].
  destruct l as [|a [|b l]].
  - by destruct r.
  - simpl. by destruct r.
  - destruct r as [|r']; [done|].
    set (D := lerp_pairs h (a :: b :: l)).
    set (E := lerp_pairs (u * h) (a :: b :: l)).
    specialize (IH D).
    rewrite (heads_cons (S r')). fold D.
    change (S (S r') - 1)%nat with (S r').
    change (S r' - 1)%nat with (r' - 0)%nat in IH.
    rewrite Nat.sub_0_r in IH.
    assert (HD : D = lerp_spec a b h :: lerp_pairs h (b :: l)) by done.
    assert (HE : E = lerp_spec a b (u * h) :: lerp_pairs (u * h) (b :: l))
      by done.
    rewrite HD in IH |- *. rewrite heads_cons in IH |- *.
    rewrite lerp_pairs_cons, IH, lerp_spec_nested.
    rewrite HE, heads_cons. rewrite <- HD, <- HE.
    f_equal. f_equal. unfold D, E. apply lerp_pairs_comm.
Qed.
Lemma reduce_S rounds t a b l :
  reduce (S rounds) t (a :: b :: l)
  = reduce rounds t (lerp_pairs t (a :: b :: l)).
Proof. done. Qed.

Lemma reduce_heads u h k rounds l :
  (length l ≤ rounds)%nat →
  reduce k u (heads rounds h l) = reduce k (u * h) l.
Proof.
  revert rounds l. induction k as [|k IH]; intros rounds l Hlen.
  - destruct l as [|a [|b l]].
    + by destruct rounds.
    + destruct rounds as [|r]; [simpl in Hlen; lia|]. simpl. by destruct r.
    + destruct rounds as [|[|r]]; try (simpl in Hlen; lia). done.
  - destruct l as [|a [|b l]].
    + destruct rounds; simpl; by rewrite !reduce_nil.
    + destruct rounds as [|r]; [simpl in Hlen; lia|]. simpl. by destruct r.
    + destruct rounds as [|[|r]]; try (simpl in Hlen; lia).
      rewrite reduce_S.
      pose proof (lerp_pairs_heads u h (S (S r)) (a :: b :: l)) as Hpairs.
      rewrite !heads_cons in Hpairs |- *. rewrite lerp_pairs_cons in Hpairs |- *.
      rewrite heads_cons in Hpairs |- *. rewrite reduce_S, Hpairs.
      apply IH. rewrite length_lerp_pairs. simpl in *. lia.
Qed.

(** The left half, at [u], is the segment at [u / 2]. *)
Lemma de_casteljau_left_half u l :
  de_casteljau u (left_half l) = de_casteljau (u * 0.5) l.
Proof.
  unfold de_casteljau. rewrite length_left_half. by apply reduce_heads.
Qed.
Lemma lerp_spec_swap a b u : lerp_spec b a u = lerp_spec a b (1 - u).
Proof. unfold lerp_spec. f_equal; ring. Qed.

Lemma lerp_pairs_snoc u l a :
  lerp_pairs u (l ++ [a])
  = lerp_pairs u l
    ++ match last l with Some z => [lerp_spec z a u] | None => [] end.
Proof.
  induction l as [|b [|c l] IH]; [done..|].
  change ((b :: c :: l) ++ [a]) with (b :: c :: (l ++ [a])).
  rewrite !lerp_pairs_cons. change (c :: l ++ [a]) with ((c :: l) ++ [a]).
  by rewrite IH.
Qed.

Lemma lerp_pairs_reverse u l :
  lerp_pairs u (reverse l) = reverse (lerp_pairs (1 - u) l).
Proof.
  induction l as [|a l IH]; [done|].
  rewrite reverse_cons, lerp_pairs_snoc, IH, last_reverse.
  destruct l as [|b l]; [done|].
  rewrite lerp_pairs_cons, reverse_cons. cbn [head].
  by rewrite lerp_spec_swap.
Qed.

Lemma reduce_long rounds t l :
  (2 ≤ length l)%nat →
  reduce (S rounds) t l = reduce rounds t (lerp_pairs t l).
Proof. destruct l as [|a [|b l]]; simpl; [lia..|done]. Qed.

Lemma reduce_reverse k u l : reduce k u (reverse l) = reduce k (1 - u) l.
Proof.
  revert l. induction k as [|k IH]; intros l.
  - destruct l as [|a [|b l]]; [done..|].
    destruct (reverse (a :: b :: l)) as [|x [|y l']] eqn:Er; [done| |done].
    apply (f_equal length) in Er. rewrite length_reverse in Er.
    simpl in Er. lia.
  - destruct l as [|a [|b l]]; [by rewrite !reduce_nil|done|].
    rewrite !reduce_long by (rewrite ?length_reverse; simpl; lia).
    by rewrite lerp_pairs_reverse, IH.
Qed.

Lemma lasts_heads rounds h l :
  lasts rounds h l = heads rounds (1 - h) (reverse l).
Proof.
  revert l. induction rounds as [|r IH]; intros l; [done|].
  cbn [lasts]. rewrite <- head_reverse.
  destruct (reverse l) as [|z tl] eqn:Er; [done|].
  cbn [head]. rewrite heads_cons, <- Er, lerp_pairs_reverse, IH.
  by replace (1 - (1 - h)) with h by ring.
Qed.

(** The right half, at [u], is the segment at [(1 + u) / 2]. *)
Lemma de_casteljau_right_half u l :
  de_casteljau u (right_half l) = de_casteljau (0.5 + u * 0.5) l.
Proof.
  unfold de_casteljau. rewrite length_right_half. unfold right_half.
  rewrite reduce_reverse, lasts_heads, reduce_heads
    by (by rewrite length_reverse).
  rewrite reduce_reverse. f_equal. lra.
Qed.
End Halves.

(** * The evaluators over the store *)

(** ** Simulation rules *)

Lemma sim_ret {A B : Type} (I : Heap.heap → A → B → Prop) h a b :
  I h a b → sim I (Heap.ret a) h (Ok b).
Proof. intros HI. by exists a, h. Qed.

Lemma sim_bind {A B A' B' : Type} (I1 : Heap.heap → A → B → Prop)
    (I2 : Heap.heap → A' → B' → Prop) m k h p kp :
  sim I1 m h p →
  (∀ h' a b, I1 h' a b → sim I2 (k a) h' (kp b)) →
  sim I2 (Heap.bind m k) h (bind p kp).
Proof.
  intros Hm Hk. destruct p as [b|e]; simpl in *.
  - destruct Hm as (a & h' & Hm & HI). specialize (Hk h' a b HI).
    unfold sim, Heap.bind in *. by rewrite Hm.
  - unfold Heap.bind. by rewrite Hm.
Qed.

Lemma sim_mono {A B : Type} (I I' : Heap.heap → A → B → Prop) m h p :
  (∀ h' a b, I h' a b → I' h' a b) → sim I m h p → sim I' m h p.
Proof.
  intros Himp. destruct p as [b|e]; simpl; [|done].
  intros (a & h' & Hm & HI). exists a, h'. auto.
Qed.

Lemma sim_throw {A B : Type} (I : Heap.heap → A → B → Prop) h e :
  sim I (Heap.throw e) h (Raise e).
Proof. done. Qed.

Lemma sim_for_loop {A B : Type} (I : Heap.heap → A → B → Prop) bodyh bodyp :
  (∀ i h a b, I h a b → sim I (bodyh i a) h (bodyp i b)) →
  ∀ count i h a b,
    I h a b →
    sim I (Heap.for_loop i count bodyh a) h (for_loop i count bodyp b).
Proof.
  intros Hbody. induction count as [|n IH]; intros i h a b HI.
  - by apply sim_ret.
  - cbn [Heap.for_loop for_loop].
    eapply sim_bind; [by apply Hbody|]. intros h' a' b' HI'. by apply IH.
Qed.

Lemma sim_for_of {T A B : Type} (I : Heap.heap → A → B → Prop)
    (bodyh : T → A → Heap.M A) (bodyp : T → B → outcome B) :
  (∀ t h a b, I h a b → sim I (bodyh t a) h (bodyp t b)) →
  ∀ (l : list T) h a b,
    I h a b → sim I (Heap.for_of l bodyh a) h (for_of l bodyp b).
Proof.
  intros Hbody. induction l as [|t l IH]; intros h a b HI.
  - by apply sim_ret.
  - cbn [Heap.for_of for_of].
    eapply sim_bind; [by apply Hbody|]. intros h' a' b' HI'. by apply IH.
Qed.

Lemma sim_while {A B : Type} (I : Heap.heap → A → B → Prop)
    condh condp bodyh bodyp :
  (∀ h a b, I h a b → condh a = condp b) →
  (∀ h a b, I h a b → condp b = true → sim I (bodyh a) h (bodyp b)) →
  ∀ fuel h a b,
    I h a b →
    sim I (Heap.while_loop fuel condh bodyh a) h
          (while_loop fuel condp bodyp b).
Proof.
  intros Hcond Hbody. induction fuel as [|f IH]; intros h a b HI.
  - simpl. rewrite (Hcond _ _ _ HI).
    destruct (condp b); [done|by apply sim_ret].
  - cbn [Heap.while_loop while_loop]. rewrite (Hcond _ _ _ HI).
    destruct (condp b) eqn:Ec; [|by apply sim_ret].
    eapply sim_bind; [by apply Hbody|]. intros h' a' b' HI'. by apply IH.
Qed.

(** ** References *)

Lemma points_to_app h new ls vs :
  points_to h ls vs → points_to (h ++ new) ls vs.
Proof.
  unfold points_to. intros Hls. eapply Forall2_impl; [exact Hls|].
  intros l v Hl. by apply lookup_app_l_Some.
Qed.

Lemma points_to_push h ls vs l v :
  points_to h ls vs → h !! l = Some v → points_to h (push ls l) (push vs v).
Proof.
  intros Hls Hl. unfold push. apply Forall2_app; [done|].
  by apply Forall2_cons.
Qed.

Lemma points_to_length h ls vs : points_to h ls vs → length ls = length vs.
Proof. apply Forall2_length. Qed.

(** Reading an array of references next to the array of their values. *)
Lemma sim_get h ls vs i :
  points_to h ls vs →
  sim (fun h' l v => h' = h ∧ h !! l = Some v) (Heap.get ls i) h (get vs i).
Proof.
  intros Hls. unfold Heap.get, Heap.lift, get.
  destruct (vs !! i) as [v|] eqn:Ev.
  - destruct (Forall2_lookup_r _ _ _ _ _ Hls Ev) as (l & -> & Hl).
    by exists l, h.
  - destruct (ls !! i) as [l|] eqn:El; [|done].
    destruct (Forall2_lookup_l _ _ _ _ _ Hls El) as (v & Hv & _). congruence.
Qed.

Lemma clone_run h a v :
  h !! a = Some v → Heap.clone a h = Ok (length h, h ++ [v]).
Proof.
  intros Ha. unfold Heap.clone, Heap.bind, Heap.read, Heap.alloc.
  by rewrite Ha, clone_id.
Qed.

Lemma map_clone_run ps vs :
  ∀ h, points_to h ps vs →
  Heap.map_array Heap.clone ps h = Ok (seq (length h) (length vs), h ++ vs).
Proof.
  unfold points_to. revert vs. induction ps as [|a ps IH]; intros vs h Hps.
  - apply Forall2_nil_inv_l in Hps as ->. simpl. unfold Heap.ret.
    by rewrite app_nil_r.
  - apply Forall2_cons_inv_l in Hps as (v & vs' & Ha & Hps & ->).
    cbn [Heap.map_array]. unfold Heap.bind at 1.
    rewrite (clone_run _ _ _ Ha). unfold Heap.bind at 1.
    rewrite (IH vs' (h ++ [v])).
    + unfold Heap.ret. rewrite length_app, Nat.add_1_r, <- app_assoc. done.
    + eapply Forall2_impl; [exact Hps|]. intros l w Hl.
      by apply lookup_app_l_Some.
Qed.

(** ** In-place interpolation in the store *)

Lemma sim_get_seq h m0 (l : list vec3) i :
  sim (fun h' a v => h' = h ∧ a = m0 + i ∧ l !! i = Some v)
      (Heap.get (seq m0 (length l)) i) h (get l i).
Proof.
  unfold Heap.get, Heap.lift, get. destruct (l !! i) as [v|] eqn:Ev.
  - apply lookup_lt_Some in Ev as Hlt.
    rewrite (lookup_seq_lt _ _ _ Hlt). by exists (m0 + i), h.
  - apply lookup_ge_None in Ev. by rewrite (lookup_seq_ge _ _ _ Ev).
Qed.

Lemma lerp_run h dst a b t va vb :
  h !! a = Some va → h !! b = Some vb → dst < length h →
  Heap.lerp dst a b t h = Ok (tt, <[dst := vec3.lerp va vb t]> h).
Proof.
  intros Ha Hb Hdst. unfold Heap.lerp, Heap.bind, Heap.read, Heap.write.
  cbv beta. rewrite Ha. cbv beta iota. rewrite Hb. cbv beta iota. by destruct (Nat.ltb_spec dst (length h)) as [_|]; [|lia].
Qed.

Lemma lookup_in_place (pre l rest : list vec3) i :
  i < length l → (pre ++ l ++ rest) !! (length pre + i) = l !! i.
Proof.
  intros Hi. rewrite lookup_app_r by lia.
  replace (length pre + i - length pre) with i by lia.
  by rewrite lookup_app_l.
Qed.

Lemma insert_in_place (pre l rest : list vec3) i v :
  i < length l →
  <[length pre + i := v]> (pre ++ l ++ rest) = pre ++ <[i := v]> l ++ rest.
Proof.
  intros Hi. rewrite insert_app_r_alt by lia.
  replace (length pre + i - length pre) with i by lia.
  by rewrite insert_app_l.
Qed.

Lemma lerp_at_sim t pre rest n i h u l :
  during_pass pre rest n h u l →
  sim (during_pass pre rest n) (Heap.lerp_at t (seq (length pre) n) i u) h
      (lerp_at t i l).
Proof.
  intros [-> Hlen]. subst n. unfold Heap.lerp_at, lerp_at.
  eapply sim_bind; [apply sim_get_seq|].
  intros h' a va (-> & -> & Ha).
  eapply sim_bind; [apply sim_get_seq|].
  intros h' b vb (-> & -> & Hb).
  apply lookup_lt_Some in Ha as Hi. apply lookup_lt_Some in Hb as Hi'.
  hnf. eexists tt, _. split.
  - apply (lerp_run _ _ _ _ _ va vb).
    + by rewrite lookup_in_place.
    + by rewrite lookup_in_place.
    + rewrite !length_app. lia.
  - split.
    + by apply insert_in_place.
    + by rewrite length_insert.
Qed.

Lemma pop_seq m0 n : pop (seq m0 n) = seq m0 (n - 1).
Proof. unfold pop. rewrite length_seq, take_seq. f_equal. lia. Qed.

(** A pass over the first [count] pairs, then [points.pop()]. *)
Lemma pass_pop_sim t (count : nat → nat) pre h pts l :
  in_place pre h pts l →
  sim (in_place pre)
      (Heap.bind (Heap.for_loop 0 (count (length pts)) (Heap.lerp_at t pts) tt)
                 (fun _ => Heap.ret (pop pts)))
      h
      (let* points' := for_loop 0 (count (length l)) (lerp_at t) l in
       Ok (pop points')).
Proof.
  intros [[rest ->] ->]. rewrite length_seq.
  eapply sim_bind.
  - apply (sim_for_loop (during_pass pre rest (length l))).
    + intros i h u l'. apply lerp_at_sim.
    + done.
  - intros h' [] l' [-> Hlen]. apply sim_ret. split.
    + exists (drop (length l' - 1) l' ++ rest).
      f_equal. rewrite app_assoc. f_equal. unfold pop.
      by rewrite take_drop.
    + by rewrite pop_seq, length_pop, Hlen.
Qed.

Lemma sim_run {A A' B : Type} (I : Heap.heap → A' → B → Prop)
    (m : Heap.M A) (k : A → Heap.M A') h a h' p :
  m h = Ok (a, h') → sim I (k a) h' p → sim I (Heap.bind m k) h p.
Proof.
  intros Hm Hk. unfold sim, Heap.bind in *. by rewrite Hm.
Qed.

Lemma in_place_length pre h pts l :
  in_place pre h pts l → length pts = length l.
Proof. intros [_ ->]. apply length_seq. Qed.

Lemma in_place_while_sim t (count : nat → nat) (stop fuel : nat) pre h pts l :
  in_place pre h pts l →
  sim (in_place pre)
      (Heap.while_loop fuel (fun points => stop <? length points)
         (fun points =>
            Heap.bind
              (Heap.for_loop 0 (count (length points))
                 (Heap.lerp_at t points) tt)
              (fun _ => Heap.ret (pop points)))
         pts)
      h
      (while_loop fuel (fun points => stop <? length points)
         (fun points =>
            let* points' :=
              for_loop 0 (count (length points)) (lerp_at t) points in
            Ok (pop points'))
         l).
Proof.
  apply (sim_while (in_place pre)).
  - intros h' a b Hin. by rewrite (in_place_length _ _ _ _ Hin).
  - intros h' a b Hin _. by apply pass_pop_sim.
Qed.

(** The body of the loop over [ts], for the three evaluators that reduce
    by repeated interpolation: clone the control points, reduce in place
    until [stop] points remain, push the point at index [idx]. *)
Lemma curve_body_sim t (count : nat → nat) (stop idx fuel : nat) h0 ps vs
    h res vals :
  points_to h0 ps vs → returned h0 h res vals →
  sim (returned h0)
      (Heap.bind (Heap.map_array Heap.clone ps) (fun points =>
       Heap.bind
         (Heap.while_loop fuel (fun points => stop <? length points)
            (fun points =>
               Heap.bind
                 (Heap.for_loop 0 (count (length points))
                    (Heap.lerp_at t points) tt)
                 (fun _ => Heap.ret (pop points)))
            points) (fun points =>
       Heap.bind (Heap.get points idx) (fun p =>
       Heap.ret (push res p)))))
      h
      (let* points :=
         while_loop fuel (fun points => stop <? length points)
           (fun points =>
              let* points' :=
                for_loop 0 (count (length points)) (lerp_at t) points in
              Ok (pop points'))
           (vec3.clone <$> vs) in
       let* p := get points idx in
       Ok (push vals p)).
Proof.
  intros Hps [[new ->] Hres].
  eapply sim_run; [apply map_clone_run; by apply points_to_app|].
  rewrite map_clone.
  eapply sim_bind.
  { apply in_place_while_sim. split; [|done]. exists []. by rewrite app_nil_r. }
  intros h' pts l [[rest ->] ->].
  eapply sim_bind; [apply sim_get_seq|].
  intros h' a v (-> & -> & Hv). apply sim_ret. split.
  - exists (new ++ l ++ rest). by rewrite <- app_assoc.
  - apply points_to_push; [by apply points_to_app|].
    apply lookup_lt_Some in Hv as Hlt. by rewrite lookup_in_place.
Qed.

Lemma returned_nil h : returned h h [] [].
Proof. split; [exists []; by rewrite app_nil_r|constructor]. Qed.

Lemma evaluateBezierCurve_sim h ps vs ts :
  points_to h ps vs →
  sim (returned h) (Heap.evaluateBezierCurve ps ts) h
      (evaluateBezierCurve vs ts).
Proof.
  intros Hps. unfold Heap.evaluateBezierCurve, evaluateBezierCurve.
  rewrite (points_to_length _ _ _ Hps).
  destruct (length vs <? 2); [apply sim_throw|].
  apply (sim_for_of (returned h)); [|apply returned_nil].
  intros t h' res vals Hret.
  by apply (curve_body_sim t (fun n => n - 1) 1 0).
Qed.

Lemma uniformBSpline_sim h ps vs ts :
  points_to h ps vs →
  sim (returned h) (Heap.uniformBSpline ps ts) h (uniformBSpline vs ts).
Proof.
  intros Hps. unfold Heap.uniformBSpline, uniformBSpline.
  rewrite (points_to_length _ _ _ Hps).
  destruct (length vs <? 2); [apply sim_throw|].
  apply (sim_for_of (returned h)); [|apply returned_nil].
  intros t h' res vals Hret.
  by apply (curve_body_sim t (fun n => n - 1) 1 0).
Qed.

Lemma quadraticUniformBSpline_sim h ps vs ts :
  points_to h ps vs →
  sim (returned h) (Heap.quadraticUniformBSpline ps ts) h
      (quadraticUniformBSpline vs ts).
Proof.
  intros Hps. unfold Heap.quadraticUniformBSpline, quadraticUniformBSpline.
  rewrite (points_to_length _ _ _ Hps).
  destruct (length vs <? 3); [apply sim_throw|].
  apply (sim_for_of (returned h)); [|apply returned_nil].
  intros t h' res vals Hret.
  by apply (curve_body_sim t (fun n => n - 2) 2 1).
Qed.

(** ** Catmull-Rom sampling in the store *)

Lemma read_run h a v : h !! a = Some v → Heap.read a h = Ok (v, h).
Proof. intros Ha. unfold Heap.read. by rewrite Ha. Qed.

Lemma write_run h a v :
  a < length h → Heap.write a v h = Ok (tt, <[a := v]> h).
Proof.
  intros Ha. unfold Heap.write.
  by destruct (Nat.ltb_spec a (length h)) as [_|]; [|lia].
Qed.

Lemma returned_trans h0 h1 h2 ls vs :
  (∃ new, h1 = h0 ++ new) → returned h1 h2 ls vs → returned h0 h2 ls vs.
Proof.
  intros [new ->] [[new' ->] Hls]. split; [|done].
  exists (new ++ new'). by rewrite app_assoc.
Qed.

Lemma push_sample_sim h1 a b c d va vb vc vd i h res vals :
  h1 !! a = Some va → h1 !! b = Some vb →
  h1 !! c = Some vc → h1 !! d = Some vd →
  returned h1 h res vals →
  sim (returned h1) (Heap.push_sample a b c d i res) h
      (Ok (push vals (cubic_sample va vb vc vd i))).
Proof.
  intros Ha Hb Hc Hd [[new ->] Hres]. unfold Heap.push_sample.
  do 4 (eapply sim_run; [apply read_run; by apply lookup_app_l_Some|]).
  eapply sim_run; [reflexivity|]. apply sim_ret. split.
  - exists (new ++ [cubic_sample va vb vc vd i]). by rewrite app_assoc.
  - apply points_to_push; [by apply points_to_app|].
    by rewrite lookup_app_r, Nat.sub_diag by lia.
Qed.

Lemma alloc_tail (h l : list vec3) v :
  Heap.alloc v (h ++ l) = Ok (length h + length l, h ++ (l ++ [v])).
Proof. unfold Heap.alloc. by rewrite length_app, app_assoc. Qed.

Lemma write_tail (h l : list vec3) i v :
  i < length l →
  Heap.write (length h + i) v (h ++ l) = Ok (tt, h ++ <[i := v]> l).
Proof.
  intros Hi. rewrite write_run by (rewrite length_app; lia).
  by rewrite insert_app_r.
Qed.

Lemma segment_body_sim h0 ps vs alpha tension k h res vals :
  points_to h0 ps vs → returned h0 h res vals →
  sim (returned h0) (Heap.segment_body ps alpha tension k res) h
      (segment_body vs alpha tension k vals).
Proof.
  intros Hps [[new ->] Hres].
  assert (Hps' : points_to (h0 ++ new) ps vs) by (by apply points_to_app).
  unfold Heap.segment_body, segment_body.
  eapply sim_bind; [by apply sim_get|]. intros ? p0 v0 [-> Hp0].
  eapply sim_bind; [by apply sim_get|]. intros ? p1 v1 [-> Hp1].
  eapply sim_bind; [by apply sim_get|]. intros ? p2 v2 [-> Hp2].
  eapply sim_bind; [by apply sim_get|]. intros ? p3 v3 [-> Hp3].
  do 4 (eapply sim_run; [by apply read_run|]).
  set (h := h0 ++ new) in *. rewrite <- (app_nil_r h) at 1.
  do 2 (eapply sim_run; [apply alloc_tail|]; cbn [length app]).
  do 2 (eapply sim_run; [apply write_tail; simpl; lia|];
        cbn [insert list_insert]).
  do 2 (eapply sim_run; [apply alloc_tail|]; cbn [length app]).
  do 2 (eapply sim_run; [apply write_tail; simpl; lia|];
        cbn [insert list_insert]).
  set (h1 := h ++ _). unfold sample_segment.
  eapply sim_mono; [intros h' ls ws; apply returned_trans|].
  { exists (new ++ [m1 alpha tension v0 v1 v2; m2 alpha tension v1 v2 v3;
                    coef_a alpha tension v0 v1 v2 v3;
                    coef_b alpha tension v0 v1 v2 v3]).
    unfold h1, h. by rewrite app_assoc. }
  apply (sim_for_loop (returned h1)).
  - intros i h' res' vals' Hret.
    apply (push_sample_sim h1); try done; unfold h1.
    + by rewrite lookup_app_r, Nat.add_comm, Nat.add_sub by lia.
    + by rewrite lookup_app_r, Nat.add_comm, Nat.add_sub by lia.
    + by rewrite lookup_app_r, Nat.add_comm, Nat.add_sub by lia.
    + by apply lookup_app_l_Some.
  - split; [exists []; by rewrite app_nil_r|]. by apply points_to_app.
Qed.

Lemma catmullRomImpl_sim h0 h ps vs alpha tension :
  (∃ new, h = h0 ++ new) → points_to h0 ps vs →
  sim (returned h0) (Heap.catmullRomImpl ps alpha tension) h
      (catmullRomImpl vs alpha tension).
Proof.
  intros [new ->] Hps. unfold Heap.catmullRomImpl, catmullRomImpl.
  rewrite (points_to_length _ _ _ Hps).
  apply (sim_for_loop (returned h0)).
  - intros i h res vals Hret. by apply segment_body_sim.
  - split; [by exists new|constructor].
Qed.

Lemma push_all_if_sim h0 h flag ps vs alpha tension :
  (∃ new, h = h0 ++ new) → points_to h0 ps vs →
  sim (returned h0)
      (Heap.push_all_if flag (Heap.catmullRomImpl ps alpha tension)) h
      (push_all_if flag (catmullRomImpl vs alpha tension)).
Proof.
  intros Hh Hps. unfold Heap.push_all_if, push_all_if. destruct flag.
  - eapply sim_bind; [by apply catmullRomImpl_sim|].
    intros h' ls ws Hret. by apply sim_ret.
  - apply sim_ret. split; [done|constructor].
Qed.

Lemma cubicCatmullRomSpline_sim h ps vs k :
  points_to h ps vs →
  sim (returned_splines h) (Heap.cubicCatmullRomSpline ps k) h
      (cubicCatmullRomSpline vs k).
Proof.
  intros Hps. unfold Heap.cubicCatmullRomSpline, cubicCatmullRomSpline.
  rewrite (points_to_length _ _ _ Hps).
  destruct (length vs <? 4); [apply sim_throw|].
  assert (Hrefl : ∀ h' : list vec3, ∃ new, h' = h' ++ new).
  { intros h'. exists []. by rewrite app_nil_r. }
  eapply sim_bind; [by apply push_all_if_sim|].
  intros h1 l1 w1 [[n1 ->] H1].
  eapply sim_bind.
  { apply (push_all_if_sim (h ++ n1)); [done|by apply points_to_app]. }
  intros h2 l2 w2 [[n2 ->] H2].
  eapply sim_bind.
  { apply (push_all_if_sim ((h ++ n1) ++ n2)); [done|].
    by do 2 apply points_to_app. }
  intros h3 l3 w3 [[n3 ->] H3].
  apply sim_ret. split; [|split; [|split]]; cbn.
  - exists (n1 ++ n2 ++ n3). by rewrite !app_assoc.
  - by do 2 apply points_to_app.
  - by apply points_to_app.
  - done.
Qed.

(** ** Adaptive subdivision in the store *)

Lemma sim_get_rel {A B : Type} (Rel : A → B → Prop) h (ls : list A)
    (vs : list B) i :
  Forall2 Rel ls vs →
  sim (fun h' a b => h' = h ∧ Rel a b) (Heap.get ls i) h (get vs i).
Proof.
  intros Hls. unfold Heap.get, Heap.lift, get.
  destruct (vs !! i) as [v|] eqn:Ev.
  - destruct (Forall2_lookup_r _ _ _ _ _ Hls Ev) as (l & -> & Hl).
    by exists l, h.
  - destruct (ls !! i) as [l|] eqn:El; [|done].
    destruct (Forall2_lookup_l _ _ _ _ _ Hls El) as (v & Hv & _). congruence.
Qed.

Lemma dist_run h a b va vb :
  h !! a = Some va → h !! b = Some vb →
  Heap.dist a b h = Ok (vec3.dist va vb, h).
Proof.
  intros Ha Hb. unfold Heap.dist, Heap.bind, Heap.read, Heap.ret.
  cbv beta. rewrite Ha. cbv beta iota. by rewrite Hb.
Qed.

Lemma add_dist_sim h top vtop i lp :
  points_to h top vtop →
  sim (fun h' r rv => h' = h ∧ r = rv) (Heap.add_dist top i lp) h
      (add_dist vtop i lp).
Proof.
  intros Htop. unfold Heap.add_dist, add_dist.
  eapply sim_bind; [by apply sim_get|]. intros ? a va [-> Ha].
  eapply sim_bind; [by apply sim_get|]. intros ? b vb [-> Hb].
  eapply sim_run; [by apply dist_run|]. by apply sim_ret.
Qed.


Lemma polygon_loop_sim h top vtop count i lp :
  points_to h top vtop →
  sim (fun h' r rv => h' = h ∧ r = rv)
      (Heap.for_loop i count (Heap.add_dist top) lp) h
      (for_loop i count (add_dist vtop) lp).
Proof.
  intros Htop.
  apply (sim_for_loop (fun h' r rv => h' = h ∧ r = rv)
           (Heap.add_dist top) (add_dist vtop)); [|done].
  intros j h' r rv [-> ->]. by apply add_dist_sim.
Qed.

Lemma in_post_app base post new ls vs :
  in_post base post ls vs → in_post base (post ++ new) ls vs.
Proof.
  unfold in_post. intros Hls. eapply Forall2_impl; [exact Hls|].
  intros l v [Hl Hv]. split; [done|]. by apply lookup_app_l_Some.
Qed.

Lemma in_post_push base post ls vs v :
  in_post base post ls vs →
  in_post base (post ++ [v]) (push ls (base + length post)) (push vs v).
Proof.
  intros Hls. unfold push. apply Forall2_app; [by apply in_post_app|].
  apply Forall2_cons. split; [|constructor]. split; [lia|].
  replace (base + length post - base) with (length post) by lia.
  by rewrite lookup_app_r, Nat.sub_diag by lia.
Qed.

Lemma in_post_points_to (pre w post : list vec3) ls vs :
  in_post (length pre + length w) post ls vs →
  points_to (pre ++ w ++ post) ls vs.
Proof.
  unfold in_post, points_to. intros Hls. eapply Forall2_impl; [exact Hls|].
  intros l v [Hl Hv].
  by rewrite app_assoc, lookup_app_r; rewrite length_app.
Qed.

Lemma bisect_body_sim pre n h s sv :
  bisect_rel pre n h s sv →
  sim (bisect_rel pre n) (Heap.bisect_body s) h (bisect_body sv).
Proof.
  destruct s as [pts q1 q2], sv as [l v1 v2].
  intros (g & post & -> & Hn & Hpts & Hq1 & Hq2). cbn in Hn, Hpts, Hq1, Hq2.
  subst pts. unfold Heap.bisect_body, bisect_body.
  cbn [Heap.points Heap.p1s Heap.p2s points p1s p2s].
  rewrite length_seq.
  eapply sim_bind.
  { apply (sim_for_loop (during_pass pre (g ++ post) (length l))).
    - intros i h u l'. apply lerp_at_sim.
    - split; [by rewrite <- !app_assoc|done]. }
  intros h' [] l' [-> Hlen]. cbv zeta.
  rewrite pop_seq, <- Hlen, <- length_pop, length_seq.
  set (g' := drop (length l' - 1) l' ++ g).
  assert (Hsplit : l' ++ g ++ post = pop l' ++ g' ++ post).
  { unfold g', pop. rewrite <- (app_assoc (drop _ _)).
    by rewrite (app_assoc (take _ _)), take_drop. }
  assert (Hn' : length (pop l') + length g' = n).
  { unfold g'. rewrite length_pop, length_app, length_drop. lia. }
  rewrite Hsplit.
  eapply sim_bind; [apply sim_get_seq|]. intros ? a va (-> & -> & Ha).
  apply lookup_lt_Some in Ha as Hlta.
  eapply sim_run.
  { apply clone_run. by rewrite lookup_in_place. }
  eapply sim_bind; [apply sim_get_seq|]. intros ? b vb (-> & -> & Hb).
  apply lookup_lt_Some in Hb as Hltb.
  eapply sim_run.
  { apply clone_run, lookup_app_l_Some. by rewrite lookup_in_place. }
  apply sim_ret. exists g', (post ++ [va] ++ [vb]).
  cbn [Heap.points Heap.p1s Heap.p2s points p1s p2s].
  split; [by rewrite <- !app_assoc|]. split; [done|]. split; [done|].
  rewrite !clone_id.
  assert (Hlen1 : length (pre ++ pop l' ++ g' ++ post)
                  = length pre + n + length post).
  { rewrite !length_app. lia. }
  assert (Hlen2 : length ((pre ++ pop l' ++ g' ++ post) ++ [va])
                  = length pre + n + length (post ++ [va])).
  { rewrite !length_app. simpl. lia. }
  rewrite Hlen1, Hlen2. split.
  - rewrite app_assoc. apply in_post_app. by apply in_post_push.
  - rewrite app_assoc. apply in_post_push. by apply in_post_app.
Qed.

Lemma bisect_while_sim pre n fuel h s sv :
  bisect_rel pre n h s sv →
  sim (bisect_rel pre n)
      (Heap.while_loop fuel (fun b => 1 <? length (Heap.points b))
         Heap.bisect_body s)
      h
      (while_loop fuel (fun b => 1 <? length (points b)) bisect_body sv).
Proof.
  apply (sim_while (bisect_rel pre n)).
  - intros h' a b (g & post & _ & _ & -> & _). by rewrite length_seq.
  - intros h' a b Hrel _. by apply bisect_body_sim.
Qed.

Lemma stack_app h new (stk : list (list Heap.loc)) (vstk : list (list vec3)) :
  Forall2 (points_to h) stk vstk → Forall2 (points_to (h ++ new)) stk vstk.
Proof.
  intros Hstk. eapply Forall2_impl; [exact Hstk|].
  intros ls vs. apply points_to_app.
Qed.

Lemma subdivide_body_sim h0 h s sv :
  work_rel h0 h s sv →
  sim (work_rel h0) (Heap.subdivide_body s) h (subdivide_body sv).
Proof.
  destruct s as [stk o], sv as [vstk vo].
  intros ([new ->] & Hstk & Hout). cbn [Heap.stack Heap.out stack out] in *.
  unfold Heap.subdivide_body, subdivide_body.
  cbn [Heap.stack Heap.out stack out].
  rewrite (Forall2_length _ _ _ Hstk).
  eapply sim_bind; [by apply sim_get_rel|]. intros ? top vtop [-> Htop].
  cbv zeta. rewrite (points_to_length _ _ _ Htop).
  assert (Hpop : Forall2 (points_to (h0 ++ new)) (pop stk) (pop vstk)).
  { unfold pop. rewrite (Forall2_length _ _ _ Hstk). by apply Forall2_take. }
  destruct (length vtop <? 2); [apply sim_throw|].
  destruct (length vtop =? 2).
  - eapply sim_bind; [by apply sim_get|]. intros ? p v [-> Hp].
    apply sim_ret. split; [by eexists|]. split; [done|].
    by apply points_to_push.
  - eapply sim_bind; [by apply sim_get|]. intros ? lastl vlast [-> Hlast].
    eapply sim_bind; [by apply polygon_loop_sim|]. intros ? lp ? [-> ->].
    eapply sim_bind; [by apply sim_get|]. intros ? first vfirst [-> Hfirst].
    eapply sim_run; [by apply dist_run|].
    destruct (Rgt_dec _ _) as [_|_].
    + set (h := h0 ++ new) in *.
      eapply sim_run; [by apply map_clone_run|].
      eapply sim_run; [apply clone_run; by apply lookup_app_l_Some|].
      eapply sim_run; [apply clone_run; by do 2 apply lookup_app_l_Some|].
      rewrite map_clone, !clone_id.
      eapply sim_bind.
      { apply (bisect_while_sim h (length vtop)).
        exists [], [vfirst; vlast].
        cbn [Heap.points Heap.p1s Heap.p2s points p1s p2s].
        rewrite app_nil_r, !length_app. cbn [length].
        split; [by rewrite <- !app_assoc|]. split; [lia|]. split; [done|].
        split; (apply Forall2_cons; split; [|constructor]); (split; [lia|]).
        - by rewrite Nat.sub_diag.
        - by replace (length h + length vtop + 1 - (length h + length vtop))
            with 1 by lia. }
      intros h' bs bv (g & post & -> & Hn & _ & Hp1 & Hp2). apply sim_ret.
      assert (Hbase : length h + length vtop
                      = length h + length (points bv ++ g)).
      { rewrite length_app. lia. }
      rewrite Hbase in Hp1, Hp2.
      apply in_post_points_to in Hp1. apply in_post_points_to in Hp2.
      split; [|split]; cbn [Heap.stack Heap.out stack out].
      * exists (new ++ (points bv ++ g) ++ post). unfold h.
        by rewrite <- !app_assoc.
      * unfold push. repeat apply Forall2_app.
        -- by apply stack_app.
        -- apply Forall2_cons. split; [|constructor].
           by apply Forall2_reverse.
        -- apply Forall2_cons. by split; [|constructor].
      * by apply points_to_app.
    + apply sim_ret. split; [by eexists|]. split; [done|].
      by apply points_to_push.
Qed.

Lemma points_to_seq (h vs rest : list vec3) :
  points_to (h ++ vs ++ rest) (seq (length h) (length vs)) vs.
Proof.
  revert h. induction vs as [|v vs IH]; intros h; [constructor|].
  cbn [length seq]. apply Forall2_cons. split.
  - by apply list_lookup_middle.
  - specialize (IH (h ++ [v])).
    rewrite length_app, Nat.add_1_r, <- app_assoc in IH. exact IH.
Qed.

Lemma adaptiveSubdivision_sim fuel h ps vs :
  points_to h ps vs →
  sim (returned h) (Heap.adaptiveSubdivision fuel ps) h
      (adaptiveSubdivision fuel vs).
Proof.
  intros Hps. unfold Heap.adaptiveSubdivision, adaptiveSubdivision.
  rewrite (points_to_length _ _ _ Hps).
  destruct (length vs <? 2); [apply sim_throw|].
  destruct (length vs =? 2).
  - hnf. eexists _, _. split; [by apply map_clone_run|].
    rewrite map_clone. split; [by eexists|].
    rewrite <- (app_nil_r vs) at 1. apply points_to_seq.
  - eapply sim_bind; [by apply sim_get|]. intros ? first vfirst [-> Hfirst].
    eapply sim_run; [by apply clone_run|].
    eapply sim_bind.
    { apply (sim_while (work_rel h)).
      - intros h' a b (_ & Hstk & _). by rewrite (Forall2_length _ _ _ Hstk).
      - intros h' a b Hrel _. by apply subdivide_body_sim.
      - split; [by eexists|]. cbn [Heap.stack Heap.out stack out]. split.
        + apply Forall2_cons. split; [by apply points_to_app|constructor].
        + apply Forall2_cons. split; [|constructor].
          by rewrite clone_id, lookup_app_r, Nat.sub_diag by lia. }
    intros h' s sv (Hnew & _ & Hout). by apply sim_ret.
Qed.

(** ** What a caller observes *)

Lemma points_to_values h ls vs : points_to h ls vs → values h ls = Some <$> vs.
Proof.
  unfold values. induction 1 as [|l v ls vs Hl _ IH]; [done|].
  by rewrite !fmap_cons, Hl, IH.
Qed.

Lemma sim_observe m h p :
  sim (returned h) m h p → observe m h = observed p ∧ unchanged m h.
Proof.
  unfold observe, unchanged. destruct p as [vs|e]; simpl.
  - intros (ls & h' & -> & Hnew & Hls). split.
    + by rewrite (points_to_values _ _ _ Hls).
    + by intros a h'' [= _ <-].
  - intros ->. by split.
Qed.

Lemma sim_observe_splines m h p :
  sim (returned_splines h) m h p →
  observe_splines m h = observed_splines p ∧ unchanged m h.
Proof.
  unfold observe_splines, unchanged. destruct p as [r|e]; simpl.
  - intros (ls & h' & -> & Hnew & H1 & H2 & H3). split.
    + by rewrite (points_to_values _ _ _ H1), (points_to_values _ _ _ H2),
        (points_to_values _ _ _ H3).
    + by intros a h'' [= _ <-].
  - intros ->. by split.
Qed.

(** Two calls on control points with the same values, in any two stores,
    are observed alike; the first leaves its store unchanged, so that a
    second call started where the first ended is observed like the
    first. *)
Lemma sim_deterministic (F : list Heap.loc → Heap.M (list Heap.loc))
    (f : list vec3 → outcome (list vec3)) :
  (∀ h ps vs, points_to h ps vs → sim (returned h) (F ps) h (f vs)) →
  ∀ h1 h2 ps1 ps2 vs,
    points_to h1 ps1 vs → points_to h2 ps2 vs →
    observe (F ps1) h1 = observe (F ps2) h2
    ∧ unchanged (F ps1) h1
    ∧ ∀ r h', F ps1 h1 = Ok (r, h') → observe (F ps1) h' = observe (F ps1) h1.
Proof.
  intros Hsim h1 h2 ps1 ps2 vs H1 H2.
  destruct (sim_observe _ _ _ (Hsim _ _ _ H1)) as [Ho1 Hu1].
  destruct (sim_observe _ _ _ (Hsim _ _ _ H2)) as [Ho2 _].
  split; [congruence|]. split; [done|].
  intros r h' Hrun. destruct (Hu1 _ _ Hrun) as [new ->].
  destruct (sim_observe _ _ _ (Hsim _ _ _ (points_to_app _ new _ _ H1)))
    as [Ho3 _].
  congruence.
Qed.

Lemma sim_deterministic_splines (F : list Heap.loc → Heap.M Heap.splines)
    (f : list vec3 → outcome splines) :
  (∀ h ps vs, points_to h ps vs → sim (returned_splines h) (F ps) h (f vs)) →
  ∀ h1 h2 ps1 ps2 vs,
    points_to h1 ps1 vs → points_to h2 ps2 vs →
    observe_splines (F ps1) h1 = observe_splines (F ps2) h2
    ∧ unchanged (F ps1) h1
    ∧ ∀ r h', F ps1 h1 = Ok (r, h') →
        observe_splines (F ps1) h' = observe_splines (F ps1) h1.
Proof.
  intros Hsim h1 h2 ps1 ps2 vs H1 H2.
  destruct (sim_observe_splines _ _ _ (Hsim _ _ _ H1)) as [Ho1 Hu1].
  destruct (sim_observe_splines _ _ _ (Hsim _ _ _ H2)) as [Ho2 _].
  split; [congruence|]. split; [done|].
  intros r h' Hrun. destruct (Hu1 _ _ Hrun) as [new ->].
  destruct (sim_observe_splines _ _ _
              (Hsim _ _ _ (points_to_app _ new _ _ H1))) as [Ho3 _].
  congruence.
Qed.

(** ** The work loop in the arithmetic of the program *)

Lemma while_loop_step {St : Type} (cond : St → bool) (body : St → outcome St)
    (fuel : nat) (s : St) :
  cond s = true →
  while_loop (S fuel) cond body s
  = let* s' := body s in while_loop fuel cond body s'.
Proof. intros Hc. cbn [while_loop]. by rewrite Hc. Qed.

Lemma while_loop_out_of_fuel {St : Type} (cond : St → bool)
    (body : St → outcome St) (s : St) :
  cond s = true → while_loop 0 cond body s = Raise OutOfFuel.
Proof. intros Hc. cbn [while_loop]. by rewrite Hc. Qed.

Lemma rounded_stack_nonempty (stk : list (list Rounded.vec3))
    (top acc : list Rounded.vec3) :
  (0 <? length (Rounded.stack (Rounded.Work (push stk top) acc))) = true.
Proof.
  cbn [Rounded.stack]. unfold push. rewrite length_app. simpl.
  apply Nat.ltb_lt. lia.
Qed.

(** The far triangle is cut: its left half is one point three times, its
    right half is the triangle itself. *)
Lemma rounded_far_cut (stk : list (list Rounded.vec3))
    (acc : list Rounded.vec3) :
  Rounded.subdivide_body (Rounded.Work (push stk Rounded.far_triangle) acc)
  = Ok (Rounded.Work
          (push (push stk Rounded.far_triangle) Rounded.far_corner) acc).
Proof.
  unfold Rounded.subdivide_body. cbn [Rounded.stack Rounded.out].
  rewrite get_push. cbn [bind]. rewrite pop_push.
  vm_compute. reflexivity.
Qed.

(** The left half is flat: its last point goes to the output. *)
Lemma rounded_far_flat (stk : list (list Rounded.vec3))
    (acc : list Rounded.vec3) :
  Rounded.subdivide_body (Rounded.Work (push stk Rounded.far_corner) acc)
  = Ok (Rounded.Work stk (push acc Rounded.far_point)).
Proof.
  unfold Rounded.subdivide_body. cbn [Rounded.stack Rounded.out].
  rewrite get_push. cbn [bind]. rewrite pop_push.
  vm_compute. reflexivity.
Qed.

(** With the far triangle on the stack the work loop never ends: whatever
    the budget, it is used up. *)
Lemma rounded_far_loop (fuel : nat) :
  ∀ stk acc,
    while_loop fuel (fun s => 0 <? length (Rounded.stack s))
      Rounded.subdivide_body
      (Rounded.Work (push stk Rounded.far_triangle) acc)
    = Raise OutOfFuel
    ∧ while_loop fuel (fun s => 0 <? length (Rounded.stack s))
        Rounded.subdivide_body
        (Rounded.Work (push (push stk Rounded.far_triangle)
                         Rounded.far_corner) acc)
      = Raise OutOfFuel.
Proof.
  induction fuel as [|fuel IH]; intros stk acc.
  - split; apply while_loop_out_of_fuel, rounded_stack_nonempty.
  - split.
    + rewrite while_loop_step by apply rounded_stack_nonempty.
      rewrite rounded_far_cut. cbn [bind]. apply IH.
    + rewrite while_loop_step by apply rounded_stack_nonempty.
      rewrite rounded_far_flat. cbn [bind]. apply IH.
Qed.

Lemma rounded_far_never (fuel : nat) :
  Rounded.adaptiveSubdivision fuel Rounded.far_triangle = Raise OutOfFuel.
Proof.
  unfold Rounded.adaptiveSubdivision.
  change (length Rounded.far_triangle <? 2) with false.
  change (length Rounded.far_triangle =? 2) with false.
  cbn [Rounded.far_triangle get lookup list_lookup bind].
  fold Rounded.far_triangle.
  change [Rounded.far_triangle] with (push [] Rounded.far_triangle).
  by rewrite (proj1 (rounded_far_loop fuel _ _)).
Qed.

(** * The claims of the specification *)

(** C1: for control points [ps] with at least 2 points and parameters [ts]
    of length m, [evaluateBezierCurve ps ts] returns exactly m points, one
    per parameter and in the same order, the k-th being the De Casteljau
    reduction of [ps] at [ts[k]]: the working sequence is replaced by the
    interpolations [(1-t)*a + t*b] of its consecutive pairs until one point
    remains. *)
Theorem evaluateBezierCurve_de_casteljau (ps : list vec3) (ts : list R) :
  2 ≤ length ps →
  ∃ res, evaluateBezierCurve ps ts = Ok res
         ∧ length res = length ts
         ∧ ∀ k t, ts !! k = Some t →
             ∃ p, res !! k = Some p ∧ de_casteljau t ps = Some p.
Proof.
  intros Hlen. exists (curve_point ps <$> ts). split; [|split].
  - by apply evaluateBezierCurve_Ok.
  - by rewrite length_fmap.
  - intros k t Hk. exists (curve_point ps t). split.
    + by rewrite list_lookup_fmap, Hk.
    + apply de_casteljau_curve_point. intros ->. simpl in Hlen. lia.
Qed.

Lemma evaluateBezierCurve_de_casteljau_witness :
  2 ≤ length [Vec3 0 0 0; Vec3 1 2 0; Vec3 3 1 0]
  ∧ ∃ res, evaluateBezierCurve [Vec3 0 0 0; Vec3 1 2 0; Vec3 3 1 0]
             [0%R; 0.5%R; 1%R] = Ok res
           ∧ length res = length [0%R; 0.5%R; 1%R]
           ∧ ∀ k t, [0%R; 0.5%R; 1%R] !! k = Some t →
               ∃ p, res !! k = Some p
                    ∧ de_casteljau t [Vec3 0 0 0; Vec3 1 2 0; Vec3 3 1 0]
                      = Some p.
Proof.
  split; [simpl; lia|].
  apply (evaluateBezierCurve_de_casteljau
           [Vec3 0 0 0; Vec3 1 2 0; Vec3 3 1 0] [0%R; 0.5%R; 1%R]).
  simpl. lia.
Defined.

(** C2, as the code has it: on exactly 3 control points p0, p1, p2
    [quadraticUniformBSpline] returns, for every t, the point p1: the loop
    stops at the pair [lerp(p0,p1,t), p1] and the second of the pair is
    returned.  For ps = [(0,0,0),(1,0,0),(2,1,0)] and t = 0.5 the point is
    (1, 0, 0). *)
Theorem quadraticUniformBSpline_three_points (p0 p1 p2 : vec3) (ts : list R) :
  (∃ res, quadraticUniformBSpline [p0; p1; p2] ts = Ok res
          ∧ length res = length ts
          ∧ ∀ k t, ts !! k = Some t → res !! k = Some p1)
  ∧ quadraticUniformBSpline [Vec3 0 0 0; Vec3 1 0 0; Vec3 2 1 0] [0.5%R]
    = Ok [Vec3 1 0 0].
Proof.
  split; [|apply quadraticUniformBSpline_3].
  exists ((fun _ => p1) <$> ts). split; [|split].
  - apply quadraticUniformBSpline_3.
  - by rewrite length_fmap.
  - intros k t Hk. by rewrite list_lookup_fmap, Hk.
Qed.

(** C2, as the specification states it, fails: at
    ps = [(0,0,0),(1,0,0),(2,1,0)] and t = 0.5 the interpolation of
    lerp(p0,p1,t) and lerp(p1,p2,t) is (1, 0.25, 0), and the code returns
    (1, 0, 0). *)
Lemma quadraticUniformBSpline_not_nested_lerp :
  lerp_spec (lerp_spec (Vec3 0 0 0) (Vec3 1 0 0) 0.5)
            (lerp_spec (Vec3 1 0 0) (Vec3 2 1 0) 0.5) 0.5
  = Vec3 1 0.25 0
  ∧ quadraticUniformBSpline [Vec3 0 0 0; Vec3 1 0 0; Vec3 2 1 0] [0.5%R]
    = Ok [Vec3 1 0 0]
  ∧ quadraticUniformBSpline [Vec3 0 0 0; Vec3 1 0 0; Vec3 2 1 0] [0.5%R]
    ≠ Ok [Vec3 1 0.25 0].
Proof.
  split; [|split].
  - unfold lerp_spec. simpl. f_equal; lra.
  - apply quadraticUniformBSpline_3.
  - rewrite quadraticUniformBSpline_3. simpl. intros [= H]. lra.
Qed.

(** C3: for control points of length at least 2, the point
    [evaluateBezierCurve] returns for a parameter 0 is the first control
    point and the point it returns for a parameter 1 is the last control
    point (exact real arithmetic). *)
Theorem evaluateBezierCurve_endpoints (ps : list vec3) (ts : list R) :
  2 ≤ length ps →
  ∃ res first final,
    evaluateBezierCurve ps ts = Ok res
    ∧ head ps = Some first ∧ last ps = Some final
    ∧ (∀ k, ts !! k = Some 0%R → res !! k = Some first)
    ∧ (∀ k, ts !! k = Some 1%R → res !! k = Some final).
Proof.
  intros Hlen.
  destruct (head_last_exist ps) as (a & z & Ha & Hz); [lia|].
  assert (Hne : ps ≠ []) by (intros ->; simpl in Hlen; lia).
  exists (curve_point ps <$> ts), a, z.
  split; [by apply evaluateBezierCurve_Ok|]. do 2 (split; [done|]).
  split; intros k Hk; rewrite list_lookup_fmap, Hk; simpl; f_equal.
  - pose proof (de_casteljau_curve_point 0 ps Hne) as Hp.
    apply reduce_0 in Hp. congruence.
  - pose proof (de_casteljau_curve_point 1 ps Hne) as Hp.
    apply reduce_1 in Hp. congruence.
Qed.

Lemma evaluateBezierCurve_endpoints_witness :
  2 ≤ length [Vec3 0 0 0; Vec3 1 2 0; Vec3 3 1 0]
  ∧ ∃ res first final,
      evaluateBezierCurve [Vec3 0 0 0; Vec3 1 2 0; Vec3 3 1 0]
        [0%R; 0.5%R; 1%R] = Ok res
      ∧ head [Vec3 0 0 0; Vec3 1 2 0; Vec3 3 1 0] = Some first
      ∧ last [Vec3 0 0 0; Vec3 1 2 0; Vec3 3 1 0] = Some final
      ∧ (∀ k, [0%R; 0.5%R; 1%R] !! k = Some 0%R → res !! k = Some first)
      ∧ (∀ k, [0%R; 0.5%R; 1%R] !! k = Some 1%R → res !! k = Some final).
Proof.
  split; [simpl; lia|].
  apply (evaluateBezierCurve_endpoints
           [Vec3 0 0 0; Vec3 1 2 0; Vec3 3 1 0] [0%R; 0.5%R; 1%R]).
  simpl. lia.
Defined.

(** C4, over exact real arithmetic: for control points [ps] of length at
    least 2, [adaptiveSubdivision] returns; its output is non-empty, begins
    with the first control point and ends with the last one; for exactly 2
    points the output is the two input points.  In the arithmetic of the
    program the call need not return, as is shown below. *)
Theorem adaptiveSubdivision_endpoints (ps : list vec3) :
  2 ≤ length ps →
  ∃ fuel res,
    (∀ k, adaptiveSubdivision (fuel + k) ps = Ok res)
    ∧ (∀ fuel' res', adaptiveSubdivision fuel' ps = Ok res' → res' = res)
    ∧ res ≠ []
    ∧ head res = head ps
    ∧ last res = last ps
    ∧ (length ps = 2 → res = ps).
Proof.
  intros Hlen.
  assert (Hcases : length ps = 2 ∨ 3 ≤ length ps) by lia.
  destruct Hcases as [H2|H3].
  - assert (Hrun : ∀ fuel, adaptiveSubdivision fuel ps = Ok ps).
    { intros fuel. unfold adaptiveSubdivision. rewrite H2. simpl.
      by rewrite map_clone. }
    exists 0, ps. repeat split; try done.
    + intros fuel' res'. rewrite Hrun. congruence.
    + intros ->. simpl in H2. lia.
  - destruct (adaptiveSubdivision_returns ps H3)
      as (fuel & pts & a & Ha & Hpts & Hlast & Hrun).
    exists fuel, (a :: pts). repeat split; try done.
    + intros fuel' res' Hres'.
      eapply adaptiveSubdivision_unique; [exact Hres'|apply (Hrun 0)].
    + rewrite last_cons, Hlast.
      destruct (head_last_exist ps) as (_ & z & _ & ->); [lia|done].
    + lia.
Qed.

Lemma adaptiveSubdivision_endpoints_witness :
  2 ≤ length [Vec3 0 0 0; Vec3 1 2 0; Vec3 3 1 0]
  ∧ ∃ fuel res,
      (∀ k, adaptiveSubdivision (fuel + k)
              [Vec3 0 0 0; Vec3 1 2 0; Vec3 3 1 0] = Ok res)
      ∧ (∀ fuel' res',
           adaptiveSubdivision fuel' [Vec3 0 0 0; Vec3 1 2 0; Vec3 3 1 0]
           = Ok res' → res' = res)
      ∧ res ≠ []
      ∧ head res = head [Vec3 0 0 0; Vec3 1 2 0; Vec3 3 1 0]
      ∧ last res = last [Vec3 0 0 0; Vec3 1 2 0; Vec3 3 1 0]
      ∧ (length [Vec3 0 0 0; Vec3 1 2 0; Vec3 3 1 0] = 2 →
         res = [Vec3 0 0 0; Vec3 1 2 0; Vec3 3 1 0]).
Proof.
  split; [simpl; lia|].
  apply (adaptiveSubdivision_endpoints [Vec3 0 0 0; Vec3 1 2 0; Vec3 3 1 0]).
  simpl. lia.
Defined.

(** C4, as the claim is worded, fails in the arithmetic of the program.
    The triangle with corners (2^24, 2^24), (2^24 + 2, 2^24) and
    (2^24 + 2, 2^24 + 2) has 3 control points, and [adaptiveSubdivision]
    has no output on it: the midpoints of its sides, stored in single
    precision, are its corners again, so that its right half is the
    triangle itself and the work loop uses up every budget. *)
Lemma adaptiveSubdivision_no_output_in_single_precision :
  2 ≤ length Rounded.far_triangle
  ∧ (∀ fuel,
       Rounded.adaptiveSubdivision fuel Rounded.far_triangle
       = Raise OutOfFuel)
  ∧ (∀ fuel res,
       Rounded.adaptiveSubdivision fuel Rounded.far_triangle ≠ Ok res).
Proof.
  split; [simpl; lia|]. split.
  - apply rounded_far_never.
  - intros fuel res. by rewrite rounded_far_never.
Qed.

(** C5: in the work loop of [adaptiveSubdivision], a popped segment [top]
    of 3 or more points is bisected at t = 0.5, its right half pushed before
    its left half so that the left half is popped next, if and only if
    (n-1)/(n+1) * (Lp - Lc) > 1e-5, with n the point count minus 1, Lp the
    sum of the distances between consecutive points and Lc the distance
    between the first and the last point; otherwise its last point is
    appended to the output.  The halves are the two diagonals of De
    Casteljau's triangle at 0.5, and they do cut the curve in two: the left
    half at u is the curve at u/2, the right half at u the curve at
    1/2 + u/2. *)
Theorem subdivide_body_gravesen (stk : list (list vec3)) (top acc : list vec3) :
  3 ≤ length top →
  ∃ s' z,
    subdivide_body (Work (push stk top) acc) = Ok s'
    ∧ last top = Some z
    ∧ ((gravesen_error top > 1e-5)%R ↔
       s' = Work (push (push stk (right_half top)) (left_half top)) acc)
    ∧ ((gravesen_error top > 1e-5)%R →
       get (stack s') (length (stack s') - 1) = Ok (left_half top)
       ∧ get (pop (stack s')) (length (pop (stack s')) - 1)
         = Ok (right_half top))
    ∧ (¬ (gravesen_error top > 1e-5)%R ↔ s' = Work stk (push acc z))
    ∧ (∀ u : R,
         de_casteljau u (left_half top) = de_casteljau (u * 0.5) top
         ∧ de_casteljau u (right_half top)
           = de_casteljau (0.5 + u * 0.5) top).
Proof.
  intros Hlen.
  destruct (head_last_exist top) as (a & z & Ha & Hz); [lia|].
  pose proof (subdivide_body_spec stk top acc a z Hlen Ha Hz) as Hbody.
  assert (Hdiff : Work (push (push stk (right_half top)) (left_half top)) acc
                  ≠ Work stk (push acc z)).
  { intros [= _ Hacc]. apply (f_equal length) in Hacc.
    unfold push in Hacc. rewrite length_app in Hacc. simpl in Hacc. lia. }
  assert (Hhalves : ∀ u : R,
            de_casteljau u (left_half top) = de_casteljau (u * 0.5) top
            ∧ de_casteljau u (right_half top)
              = de_casteljau (0.5 + u * 0.5) top).
  { intros u. split;
      [apply de_casteljau_left_half|apply de_casteljau_right_half]. }
  destruct (Rgt_dec (gravesen_error top) 1e-5) as [Hgt|Hle];
    eexists; exists z; (split; [exact Hbody|]); (split; [done|]).
  - split; [done|]. split; [|split; [|done]].
    + intros _. cbn [stack]. by rewrite get_push, pop_push, get_push.
    + split; [done|]. intros Heq. by destruct Hdiff.
  - split; [|split; [done|split; [done|done]]].
    split; [done|]. intros Heq. by destruct Hdiff.
Qed.

Lemma subdivide_body_gravesen_witness :
  3 ≤ length [Vec3 0 0 0; Vec3 1 2 0; Vec3 3 1 0]
  ∧ ∃ s' z,
      subdivide_body (Work (push [] [Vec3 0 0 0; Vec3 1 2 0; Vec3 3 1 0]) [])
      = Ok s'
      ∧ last [Vec3 0 0 0; Vec3 1 2 0; Vec3 3 1 0] = Some z
      ∧ ((gravesen_error [Vec3 0 0 0; Vec3 1 2 0; Vec3 3 1 0] > 1e-5)%R ↔
         s' = Work (push (push []
                      (right_half [Vec3 0 0 0; Vec3 1 2 0; Vec3 3 1 0]))
                      (left_half [Vec3 0 0 0; Vec3 1 2 0; Vec3 3 1 0])) [])
      ∧ ((gravesen_error [Vec3 0 0 0; Vec3 1 2 0; Vec3 3 1 0] > 1e-5)%R →
         get (stack s') (length (stack s') - 1)
         = Ok (left_half [Vec3 0 0 0; Vec3 1 2 0; Vec3 3 1 0])
         ∧ get (pop (stack s')) (length (pop (stack s')) - 1)
           = Ok (right_half [Vec3 0 0 0; Vec3 1 2 0; Vec3 3 1 0]))
      ∧ (¬ (gravesen_error [Vec3 0 0 0; Vec3 1 2 0; Vec3 3 1 0] > 1e-5)%R ↔
         s' = Work [] (push [] z))
      ∧ (∀ u : R,
           de_casteljau u (left_half [Vec3 0 0 0; Vec3 1 2 0; Vec3 3 1 0])
           = de_casteljau (u * 0.5) [Vec3 0 0 0; Vec3 1 2 0; Vec3 3 1 0]
           ∧ de_casteljau u (right_half [Vec3 0 0 0; Vec3 1 2 0; Vec3 3 1 0])
             = de_casteljau (0.5 + u * 0.5)
                 [Vec3 0 0 0; Vec3 1 2 0; Vec3 3 1 0]).
Proof.
  split; [simpl; lia|].
  apply (subdivide_body_gravesen [] [Vec3 0 0 0; Vec3 1 2 0; Vec3 3 1 0] []).
  simpl. lia.
Defined.

(** C6: on exactly 4 control points p0, p1, p2, p3 with only [uniform]
    selected, [cubicCatmullRomSpline] returns a [uniformResult] of exactly
    21 points, the samples of the segment's cubic at t = i/20 for
    i = 0 .. 20; sample 0 is p1 and sample 20 is p2 (exact real arithmetic).
    In general every selected parametrization yields exactly 21 samples for
    each of the [length ps - 3] windows of 4 consecutive control points, and
    a parametrization that is not selected yields none. *)
Theorem cubicCatmullRomSpline_samples :
  (∀ p0 p1 p2 p3 : vec3,
     ∃ r, cubicCatmullRomSpline [p0; p1; p2; p3]
            (KnotParametrization true false false) = Ok r
          ∧ uniformResult r
            = cubic_sample (coef_a 0 0 p0 p1 p2 p3) (coef_b 0 0 p0 p1 p2 p3)
                           (m1 0 0 p0 p1 p2) p1 <$> seq 0 21
          ∧ length (uniformResult r) = 21
          ∧ uniformResult r !! 0 = Some p1
          ∧ uniformResult r !! 20 = Some p2
          ∧ chordalResult r = [] ∧ centripetalResult r = [])
  ∧ (∀ (p0 p1 p2 p3 : vec3) (rest : list vec3) (k : knotParametrization),
       let ps := p0 :: p1 :: p2 :: p3 :: rest in
       ∃ r, cubicCatmullRomSpline ps k = Ok r
            ∧ uniformResult r
              = (if uniform k then spline_samples 0 0 ps else [])
            ∧ chordalResult r
              = (if chordal k then spline_samples 1 0 ps else [])
            ∧ centripetalResult r
              = (if centripetal k then spline_samples 0.5 0 ps else [])
            ∧ length (uniformResult r)
              = (if uniform k then 21 * (length ps - 3) else 0)
            ∧ length (chordalResult r)
              = (if chordal k then 21 * (length ps - 3) else 0)
            ∧ length (centripetalResult r)
              = (if centripetal k then 21 * (length ps - 3) else 0)).
Proof.
  split.
  - intros p0 p1 p2 p3. eexists. split.
    + unfold cubicCatmullRomSpline, push_all_if. cbn [length Nat.ltb Nat.leb].
      cbn [uniform chordal centripetal]. rewrite catmullRomImpl_spec.
      cbn [bind]. reflexivity.
    + cbn [uniformResult chordalResult centripetalResult spline_samples app].
      rewrite app_nil_r. unfold segment_samples.
      split; [done|]. split; [by rewrite length_fmap, length_seq|].
      split; [|split; [|done]].
      * change (seq 0 21) with (0 :: seq 1 20). rewrite fmap_cons.
        cbn [lookup list_lookup]. by rewrite cubic_sample_0.
      * rewrite list_lookup_fmap.
        change (seq 0 21 !! 20) with (Some 20). cbn [fmap option_fmap option_map].
        by rewrite cubic_sample_20.
  - intros p0 p1 p2 p3 rest k ps.
    exists (Splines (if uniform k then spline_samples 0 0 ps else [])
                    (if chordal k then spline_samples 1 0 ps else [])
                    (if centripetal k then spline_samples 0.5 0 ps else [])).
    split.
    + unfold cubicCatmullRomSpline, push_all_if. cbn [ps length Nat.ltb Nat.leb].
      rewrite !catmullRomImpl_spec.
      destruct (uniform k), (chordal k), (centripetal k); cbn [bind];
        reflexivity.
    + destruct (uniform k), (chordal k), (centripetal k);
        cbn [uniformResult chordalResult centripetalResult app];
        rewrite ?length_spline_samples; done.
Qed.

(** C7: an evaluator raises its invalid-input error if and only if it is
    given fewer control points than it requires: fewer than 2 for
    [evaluateBezierCurve], [adaptiveSubdivision] and [uniformBSpline], fewer
    than 3 for [quadraticUniformBSpline], fewer than 4 for
    [cubicCatmullRomSpline].  The error is then the whole outcome of the
    call (no partial result); with enough points the call returns a
    result. *)
Theorem invalid_input_iff (ps : list vec3) (ts : list R)
    (k : knotParametrization) :
  (((∃ msg, evaluateBezierCurve ps ts = Raise (Error msg)) ↔ length ps < 2)
   ∧ (length ps < 2 →
      evaluateBezierCurve ps ts
      = Raise (Error "At least 2 control points are required"))
   ∧ (2 ≤ length ps → ∃ res, evaluateBezierCurve ps ts = Ok res))
  ∧ (((∃ fuel msg, adaptiveSubdivision fuel ps = Raise (Error msg))
      ↔ length ps < 2)
     ∧ (length ps < 2 →
        ∀ fuel, adaptiveSubdivision fuel ps
                = Raise (Error "At least 2 control points are required"))
     ∧ (2 ≤ length ps →
        ∃ fuel res, ∀ n, adaptiveSubdivision (fuel + n) ps = Ok res))
  ∧ (((∃ msg, uniformBSpline ps ts = Raise (Error msg)) ↔ length ps < 2)
     ∧ (length ps < 2 →
        uniformBSpline ps ts
        = Raise (Error "At least 2 control points are required"))
     ∧ (2 ≤ length ps → ∃ res, uniformBSpline ps ts = Ok res))
  ∧ (((∃ msg, quadraticUniformBSpline ps ts = Raise (Error msg))
      ↔ length ps < 3)
     ∧ (length ps < 3 →
        quadraticUniformBSpline ps ts
        = Raise (Error "At least 3 control points are required"))
     ∧ (3 ≤ length ps → ∃ res, quadraticUniformBSpline ps ts = Ok res))
  ∧ (((∃ msg, cubicCatmullRomSpline ps k = Raise (Error msg))
      ↔ length ps < 4)
     ∧ (length ps < 4 →
        cubicCatmullRomSpline ps k
        = Raise (Error "At least 4 control points are required"))
     ∧ (4 ≤ length ps → ∃ r, cubicCatmullRomSpline ps k = Ok r)).
Proof.
  split; [|split; [|split; [|split]]].
  - split; [|split].
    + split.
      * intros [msg Hraise].
        destruct (Nat.lt_ge_cases (length ps) 2) as [|Hlen]; [done|].
        rewrite (evaluateBezierCurve_Ok ps ts Hlen) in Hraise. congruence.
      * intros Hlen. eexists. unfold evaluateBezierCurve.
        by destruct (Nat.ltb_spec (length ps) 2) as [_|]; [|lia].
    + intros Hlen. unfold evaluateBezierCurve.
      by destruct (Nat.ltb_spec (length ps) 2) as [_|]; [|lia].
    + intros Hlen. eexists. by apply evaluateBezierCurve_Ok.
  - split; [|split].
    + split.
      * intros (fuel & msg & Hraise).
        destruct (Nat.lt_ge_cases (length ps) 2) as [|Hlen]; [done|].
        destruct (adaptiveSubdivision_outcome fuel ps Hlen) as [[acc Hacc]|Hacc];
          congruence.
      * intros Hlen. exists 0, too_few_2. unfold adaptiveSubdivision.
        by destruct (Nat.ltb_spec (length ps) 2) as [_|]; [|lia].
    + intros Hlen fuel. unfold adaptiveSubdivision.
      by destruct (Nat.ltb_spec (length ps) 2) as [_|]; [|lia].
    + intros Hlen.
      assert (Hcases : length ps = 2 ∨ 3 ≤ length ps) by lia.
      destruct Hcases as [H2|H3].
      * exists 0, (vec3.clone <$> ps). intros n.
        unfold adaptiveSubdivision. by rewrite H2.
      * destruct (adaptiveSubdivision_returns ps H3)
          as (fuel & pts & a & _ & _ & _ & Hrun).
        by exists fuel, (a :: pts).
  - split; [|split].
    + split.
      * intros [msg Hraise].
        destruct (Nat.lt_ge_cases (length ps) 2) as [|Hlen]; [done|].
        rewrite uniformBSpline_eq, (evaluateBezierCurve_Ok ps ts Hlen)
          in Hraise.
        congruence.
      * intros Hlen. eexists. unfold uniformBSpline.
        by destruct (Nat.ltb_spec (length ps) 2) as [_|]; [|lia].
    + intros Hlen. unfold uniformBSpline.
      by destruct (Nat.ltb_spec (length ps) 2) as [_|]; [|lia].
    + intros Hlen. eexists. rewrite uniformBSpline_eq.
      by apply evaluateBezierCurve_Ok.
  - split; [|split].
    + split.
      * intros [msg Hraise].
        destruct (Nat.lt_ge_cases (length ps) 3) as [|Hlen]; [done|].
        destruct (quadraticUniformBSpline_returns ps ts Hlen) as [res Hres].
        congruence.
      * intros Hlen. eexists. unfold quadraticUniformBSpline.
        by destruct (Nat.ltb_spec (length ps) 3) as [_|]; [|lia].
    + intros Hlen. unfold quadraticUniformBSpline.
      by destruct (Nat.ltb_spec (length ps) 3) as [_|]; [|lia].
    + apply quadraticUniformBSpline_returns.
  - split; [|split].
    + split.
      * intros [msg Hraise].
        destruct (Nat.lt_ge_cases (length ps) 4) as [|Hlen]; [done|].
        destruct (cubicCatmullRomSpline_returns ps k Hlen) as [res Hres].
        congruence.
      * intros Hlen. eexists. unfold cubicCatmullRomSpline.
        by destruct (Nat.ltb_spec (length ps) 4) as [_|]; [|lia].
    + intros Hlen. unfold cubicCatmullRomSpline.
      by destruct (Nat.ltb_spec (length ps) 4) as [_|]; [|lia].
    + apply cubicCatmullRomSpline_returns.
Qed.

(** C8: [uniformBSpline] and [evaluateBezierCurve] have the same outcome on
    the same inputs; for control points of length at least 2 both return
    the same sequence of points. *)
Theorem uniformBSpline_is_evaluateBezierCurve (ps : list vec3) (ts : list R) :
  uniformBSpline ps ts = evaluateBezierCurve ps ts
  ∧ (2 ≤ length ps →
     ∃ res, uniformBSpline ps ts = Ok res
            ∧ evaluateBezierCurve ps ts = Ok res).
Proof.
  split; [apply uniformBSpline_eq|].
  intros Hlen. exists (curve_point ps <$> ts).
  rewrite uniformBSpline_eq. split; by apply evaluateBezierCurve_Ok.
Qed.

(** C10: on at least 2 control points [adaptiveSubdivision] never raises
    the error of its work loop ("At least 2 control points are required"),
    nor any other: the two halves a bisection pushes have exactly as many
    points as the segment they come from, so every segment on the stack has
    the point count of the input (at least 3) and the iteration never
    fails; over exact real arithmetic the loop ends and the call returns.
    In the arithmetic of the program the loop need not end, as is shown
    below. *)
Theorem adaptiveSubdivision_no_inner_error (ps : list vec3) :
  2 ≤ length ps →
  (∀ fuel msg, adaptiveSubdivision fuel ps ≠ Raise (Error msg))
  ∧ (∀ fuel, adaptiveSubdivision fuel ps ≠ Raise OutOfRange)
  ∧ (∃ fuel res, ∀ k, adaptiveSubdivision (fuel + k) ps = Ok res)
  ∧ (∀ stk top acc,
       3 ≤ length top → (gravesen_error top > 1e-5)%R →
       ∃ l r,
         subdivide_body (Work (push stk top) acc)
         = Ok (Work (push (push stk r) l) acc)
         ∧ length l = length top ∧ length r = length top)
  ∧ (∀ s,
       3 ≤ length ps →
       Forall (fun top => length top = length ps) (stack s) →
       stack s ≠ [] →
       ∃ s', subdivide_body s = Ok s'
             ∧ Forall (fun top => length top = length ps) (stack s')).
Proof.
  intros Hlen. split; [|split; [|split; [|split]]].
  - intros fuel msg Hraise.
    destruct (adaptiveSubdivision_outcome fuel ps Hlen) as [[acc Hacc]|Hacc];
      congruence.
  - intros fuel Hraise.
    destruct (adaptiveSubdivision_outcome fuel ps Hlen) as [[acc Hacc]|Hacc];
      congruence.
  - assert (Hcases : length ps = 2 ∨ 3 ≤ length ps) by lia.
    destruct Hcases as [H2|H3].
    + exists 0, (vec3.clone <$> ps). intros n.
      unfold adaptiveSubdivision. by rewrite H2.
    + destruct (adaptiveSubdivision_returns ps H3)
        as (fuel & pts & a & _ & _ & _ & Hrun).
      by exists fuel, (a :: pts).
  - intros stk top acc Htop Hgt.
    destruct (head_last_exist top) as (a & z & Ha & Hz); [lia|].
    exists (left_half top), (right_half top).
    rewrite (subdivide_body_spec stk top acc a z Htop Ha Hz).
    destruct (Rgt_dec (gravesen_error top) 1e-5); [|done].
    by rewrite length_left_half, length_right_half.
  - intros s H3 Hall Hne. by apply subdivide_body_lengths.
Qed.

Lemma adaptiveSubdivision_no_inner_error_witness :
  2 ≤ length [Vec3 0 0 0; Vec3 1 2 0; Vec3 3 1 0]
  ∧ (∀ fuel msg,
       adaptiveSubdivision fuel [Vec3 0 0 0; Vec3 1 2 0; Vec3 3 1 0]
       ≠ Raise (Error msg))
  ∧ (∀ fuel,
       adaptiveSubdivision fuel [Vec3 0 0 0; Vec3 1 2 0; Vec3 3 1 0]
       ≠ Raise OutOfRange)
  ∧ (∃ fuel res, ∀ k,
       adaptiveSubdivision (fuel + k) [Vec3 0 0 0; Vec3 1 2 0; Vec3 3 1 0]
       = Ok res)
  ∧ (∀ stk top acc,
       3 ≤ length top → (gravesen_error top > 1e-5)%R →
       ∃ l r,
         subdivide_body (Work (push stk top) acc)
         = Ok (Work (push (push stk r) l) acc)
         ∧ length l = length top ∧ length r = length top)
  ∧ (∀ s,
       3 ≤ length [Vec3 0 0 0; Vec3 1 2 0; Vec3 3 1 0] →
       Forall (fun top =>
                 length top = length [Vec3 0 0 0; Vec3 1 2 0; Vec3 3 1 0])
              (stack s) →
       stack s ≠ [] →
       ∃ s', subdivide_body s = Ok s'
             ∧ Forall (fun top =>
                         length top
                         = length [Vec3 0 0 0; Vec3 1 2 0; Vec3 3 1 0])
                      (stack s')).
Proof.
  split; [simpl; lia|].
  apply (adaptiveSubdivision_no_inner_error
           [Vec3 0 0 0; Vec3 1 2 0; Vec3 3 1 0]).
  simpl. lia.
Defined.

(** C10, as the claim is worded, fails in the arithmetic of the program:
    [adaptiveSubdivision] does not always return.  On the triangle with
    corners (2^24, 2^24), (2^24 + 2, 2^24) and (2^24 + 2, 2^24 + 2) one
    iteration of the work loop cuts the triangle into one point three
    times and the triangle itself, the next one puts that point out, and
    the loop is where it began with one more point in its output: it raises
    no error and never ends. *)
Lemma adaptiveSubdivision_never_returns_in_single_precision :
  (∀ stk acc,
     Rounded.subdivide_body
       (Rounded.Work (push stk Rounded.far_triangle) acc)
     = Ok (Rounded.Work
             (push (push stk Rounded.far_triangle) Rounded.far_corner) acc)
     ∧ Rounded.subdivide_body
         (Rounded.Work
            (push (push stk Rounded.far_triangle) Rounded.far_corner) acc)
       = Ok (Rounded.Work (push stk Rounded.far_triangle)
               (push acc Rounded.far_point)))
  ∧ (∀ fuel,
       ¬ ∃ res,
           Rounded.adaptiveSubdivision fuel Rounded.far_triangle = Ok res)
  ∧ (∀ fuel msg,
       Rounded.adaptiveSubdivision fuel Rounded.far_triangle
       ≠ Raise (Error msg)).
Proof.
  split; [|split].
  - intros stk acc. split; [apply rounded_far_cut|apply rounded_far_flat].
  - intros fuel [res Hres]. by rewrite rounded_far_never in Hres.
  - intros fuel msg. by rewrite rounded_far_never.
Qed.

(** C9: every evaluator is deterministic and keeps no state between calls.
    In the store of [vec3] objects: two calls on control points with the
    same values, from any two stores, throw the same error or return
    references to objects with the same values; a call that returns leaves
    every object of the store it started in unchanged (the control points
    included); and a second call with the same arguments, started in the
    store the first one left, is observed exactly like the first. *)
Theorem evaluators_deterministic (h1 h2 : Heap.heap) (ps1 ps2 : list Heap.loc)
    (vs : list vec3) (ts : list R) (fuel : nat) (k : knotParametrization) :
  points_to h1 ps1 vs → points_to h2 ps2 vs →
  (observe (Heap.evaluateBezierCurve ps1 ts) h1
   = observe (Heap.evaluateBezierCurve ps2 ts) h2
   ∧ unchanged (Heap.evaluateBezierCurve ps1 ts) h1
   ∧ ∀ r h', Heap.evaluateBezierCurve ps1 ts h1 = Ok (r, h') →
       observe (Heap.evaluateBezierCurve ps1 ts) h'
       = observe (Heap.evaluateBezierCurve ps1 ts) h1)
  ∧ (observe (Heap.adaptiveSubdivision fuel ps1) h1
     = observe (Heap.adaptiveSubdivision fuel ps2) h2
     ∧ unchanged (Heap.adaptiveSubdivision fuel ps1) h1
     ∧ ∀ r h', Heap.adaptiveSubdivision fuel ps1 h1 = Ok (r, h') →
         observe (Heap.adaptiveSubdivision fuel ps1) h'
         = observe (Heap.adaptiveSubdivision fuel ps1) h1)
  ∧ (observe (Heap.uniformBSpline ps1 ts) h1
     = observe (Heap.uniformBSpline ps2 ts) h2
     ∧ unchanged (Heap.uniformBSpline ps1 ts) h1
     ∧ ∀ r h', Heap.uniformBSpline ps1 ts h1 = Ok (r, h') →
         observe (Heap.uniformBSpline ps1 ts) h'
         = observe (Heap.uniformBSpline ps1 ts) h1)
  ∧ (observe (Heap.quadraticUniformBSpline ps1 ts) h1
     = observe (Heap.quadraticUniformBSpline ps2 ts) h2
     ∧ unchanged (Heap.quadraticUniformBSpline ps1 ts) h1
     ∧ ∀ r h', Heap.quadraticUniformBSpline ps1 ts h1 = Ok (r, h') →
         observe (Heap.quadraticUniformBSpline ps1 ts) h'
         = observe (Heap.quadraticUniformBSpline ps1 ts) h1)
  ∧ (observe_splines (Heap.cubicCatmullRomSpline ps1 k) h1
     = observe_splines (Heap.cubicCatmullRomSpline ps2 k) h2
     ∧ unchanged (Heap.cubicCatmullRomSpline ps1 k) h1
     ∧ ∀ r h', Heap.cubicCatmullRomSpline ps1 k h1 = Ok (r, h') →
         observe_splines (Heap.cubicCatmullRomSpline ps1 k) h'
         = observe_splines (Heap.cubicCatmullRomSpline ps1 k) h1).
Proof.
  intros H1 H2. split; [|split; [|split; [|split]]].
  - apply (sim_deterministic (fun ps => Heap.evaluateBezierCurve ps ts)
             (fun vs => evaluateBezierCurve vs ts)) with (vs := vs);
      [|done..].
    intros h ps ws. apply evaluateBezierCurve_sim.
  - apply (sim_deterministic (Heap.adaptiveSubdivision fuel)
             (adaptiveSubdivision fuel)) with (vs := vs); [|done..].
    intros h ps ws. apply adaptiveSubdivision_sim.
  - apply (sim_deterministic (fun ps => Heap.uniformBSpline ps ts)
             (fun vs => uniformBSpline vs ts)) with (vs := vs); [|done..].
    intros h ps ws. apply uniformBSpline_sim.
  - apply (sim_deterministic (fun ps => Heap.quadraticUniformBSpline ps ts)
             (fun vs => quadraticUniformBSpline vs ts)) with (vs := vs);
      [|done..].
    intros h ps ws. apply quadraticUniformBSpline_sim.
  - apply (sim_deterministic_splines
             (fun ps => Heap.cubicCatmullRomSpline ps k)
             (fun vs => cubicCatmullRomSpline vs k)) with (vs := vs);
      [|done..].
    intros h ps ws. apply cubicCatmullRomSpline_sim.
Qed.

Lemma evaluators_deterministic_witness :
  points_to store_a [0; 1; 2; 3] four_points
  ∧ points_to store_b [1; 2; 3; 4] four_points
  ∧ (observe (Heap.evaluateBezierCurve [0; 1; 2; 3] [0.5%R]) store_a
   = observe (Heap.evaluateBezierCurve [1; 2; 3; 4] [0.5%R]) store_b
   ∧ unchanged (Heap.evaluateBezierCurve [0; 1; 2; 3] [0.5%R]) store_a
   ∧ ∀ r h', Heap.evaluateBezierCurve [0; 1; 2; 3] [0.5%R] store_a = Ok (r, h') →
       observe (Heap.evaluateBezierCurve [0; 1; 2; 3] [0.5%R]) h'
       = observe (Heap.evaluateBezierCurve [0; 1; 2; 3] [0.5%R]) store_a)
  ∧ (observe (Heap.adaptiveSubdivision 8 [0; 1; 2; 3]) store_a
     = observe (Heap.adaptiveSubdivision 8 [1; 2; 3; 4]) store_b
     ∧ unchanged (Heap.adaptiveSubdivision 8 [0; 1; 2; 3]) store_a
     ∧ ∀ r h', Heap.adaptiveSubdivision 8 [0; 1; 2; 3] store_a = Ok (r, h') →
         observe (Heap.adaptiveSubdivision 8 [0; 1; 2; 3]) h'
         = observe (Heap.adaptiveSubdivision 8 [0; 1; 2; 3]) store_a)
  ∧ (observe (Heap.uniformBSpline [0; 1; 2; 3] [0.5%R]) store_a
     = observe (Heap.uniformBSpline [1; 2; 3; 4] [0.5%R]) store_b
     ∧ unchanged (Heap.uniformBSpline [0; 1; 2; 3] [0.5%R]) store_a
     ∧ ∀ r h', Heap.uniformBSpline [0; 1; 2; 3] [0.5%R] store_a = Ok (r, h') →
         observe (Heap.uniformBSpline [0; 1; 2; 3] [0.5%R]) h'
         = observe (Heap.uniformBSpline [0; 1; 2; 3] [0.5%R]) store_a)
  ∧ (observe (Heap.quadraticUniformBSpline [0; 1; 2; 3] [0.5%R]) store_a
     = observe (Heap.quadraticUniformBSpline [1; 2; 3; 4] [0.5%R]) store_b
     ∧ unchanged (Heap.quadraticUniformBSpline [0; 1; 2; 3] [0.5%R]) store_a
     ∧ ∀ r h', Heap.quadraticUniformBSpline [0; 1; 2; 3] [0.5%R] store_a = Ok (r, h') →
         observe (Heap.quadraticUniformBSpline [0; 1; 2; 3] [0.5%R]) h'
         = observe (Heap.quadraticUniformBSpline [0; 1; 2; 3] [0.5%R]) store_a)
  ∧ (observe_splines (Heap.cubicCatmullRomSpline [0; 1; 2; 3]
            (KnotParametrization true true true)) store_a
     = observe_splines (Heap.cubicCatmullRomSpline [1; 2; 3; 4]
            (KnotParametrization true true true)) store_b
     ∧ unchanged (Heap.cubicCatmullRomSpline [0; 1; 2; 3]
            (KnotParametrization true true true)) store_a
     ∧ ∀ r h', Heap.cubicCatmullRomSpline [0; 1; 2; 3]
                 (KnotParametrization true true true) store_a = Ok (r, h') →
         observe_splines (Heap.cubicCatmullRomSpline [0; 1; 2; 3]
            (KnotParametrization true true true)) h'
         = observe_splines (Heap.cubicCatmullRomSpline [0; 1; 2; 3]
            (KnotParametrization true true true)) store_a).
Proof.
  assert (H1 : points_to store_a [0; 1; 2; 3] four_points)
    by (repeat constructor).
  assert (H2 : points_to store_b [1; 2; 3; 4] four_points)
    by (repeat constructor).
  split; [exact H1|]. split; [exact H2|].
  exact (evaluators_deterministic store_a store_b [0; 1; 2; 3] [1; 2; 3; 4]
           four_points [0.5%R] 8 (KnotParametrization true true true) H1 H2).
Defined.

(** * Further properties *)

(** ** Adaptive subdivision samples the curve *)

Section OnCurve.
Local Open Scope R_scope.

Lemma curve_point_left_half u l :
  curve_point (left_half l) u = curve_point l (u * 0.5).
Proof. unfold curve_point. by rewrite de_casteljau_left_half. Qed.

Lemma curve_point_right_half u l :
  curve_point (right_half l) u = curve_point l (0.5 + u * 0.5).
Proof. unfold curve_point. by rewrite de_casteljau_right_half. Qed.

Lemma curve_point_0 l a : head l = Some a → curve_point l 0 = a.
Proof.
  intros Ha. assert (Hne : l ≠ []) by (by intros ->).
  pose proof (de_casteljau_curve_point 0 l Hne) as Hp.
  apply reduce_0 in Hp. congruence.
Qed.

Lemma curve_point_1 l z : last l = Some z → curve_point l 1 = z.
Proof.
  intros Hz. assert (Hne : l ≠ []) by (by intros ->).
  pose proof (de_casteljau_curve_point 1 l Hne) as Hp.
  apply reduce_1 in Hp. congruence.
Qed.

Lemma ascending_scale lo us :
  ascending lo us → ascending (lo * 0.5) ((fun u => u * 0.5) <$> us).
Proof.
  revert lo. induction us as [|u us IH]; intros lo; [done|].
  intros [Hlo Hus]. split; [lra|by apply IH].
Qed.

Lemma ascending_shift lo us :
  ascending lo us →
  ascending (0.5 + lo * 0.5) ((fun u => 0.5 + u * 0.5) <$> us).
Proof.
  revert lo. induction us as [|u us IH]; intros lo; [done|].
  intros [Hlo Hus]. split; [lra|by apply IH].
Qed.

Lemma ascending_app lo mid us vs :
  ascending lo us → last us = Some mid → ascending mid vs →
  ascending lo (us ++ vs).
Proof.
  revert lo. induction us as [|u [|u' us] IH]; intros lo Hus Hlast Hvs.
  - done.
  - simpl in *. destruct Hus as [Hlo _]. by injection Hlast as ->.
  - destruct Hus as [Hlo Hus]. split; [done|]. by apply IH.
Qed.

Lemma ascending_weaken lo lo' us :
  lo' <= lo → ascending lo us → ascending lo' us.
Proof. destruct us as [|u us]; [done|]. intros Hle [Hlo Hus]. split; [lra|done]. Qed.

(** The points a segment contributes to the output are points of its curve,
    at parameters that increase up to 1. *)
Lemma process_segment_curve (d : nat) (M : R) (top : list vec3) :
  (3 ≤ length top)%nat → 0 <= M → chain M top →
  INR (length top) * (2 * M) <= 1e-5 * 2 ^ d →
  ∃ fuel us, ascending 0 us ∧ last us = Some 1 ∧
    ∀ stk acc k,
      work_loop (fuel + k) (Work (push stk top) acc)
      = work_loop k (Work stk (acc ++ (curve_point top <$> us))).
Proof.
  revert M top. induction d as [|d IH]; intros M top Hlen HM Hchain Hd;
    destruct (head_last_exist top) as (a & z & Ha & Hz); try lia;
    pose proof (gravesen_error_chain _ _ Hlen HM Hchain) as HE.
  - exists 1%nat, [1]. split; [simpl; lra|]. split; [done|].
    intros stk acc k. cbn [fmap list_fmap]. rewrite (curve_point_1 _ _ Hz).
    apply (work_loop_flat _ _ _ _ a z); try done. simpl in Hd. lra.
  - destruct (Rgt_dec (gravesen_error top) 1e-5) as [Hcurved|Hflat].
    + destruct (IH (M / 2) (left_half top)) as (fl & ul & Hul & Hlastl & Hl).
      { rewrite length_left_half. lia. }
      { lra. }
      { by apply chain_left_half. }
      { rewrite length_left_half. simpl in Hd. lra. }
      destruct (IH (M / 2) (right_half top)) as (fr & ur & Hur & Hlastr & Hr).
      { rewrite length_right_half. lia. }
      { lra. }
      { by apply chain_right_half. }
      { rewrite length_right_half. simpl in Hd. lra. }
      exists (S (fl + fr)),
        (((fun u => u * 0.5) <$> ul) ++ ((fun u => 0.5 + u * 0.5) <$> ur)).
      split; [|split].
      * apply (ascending_app _ 0.5).
        -- apply ascending_scale in Hul. by rewrite Rmult_0_l in Hul.
        -- rewrite fmap_last, Hlastl. simpl. f_equal. lra.
        -- apply ascending_shift in Hur.
           eapply ascending_weaken; [|exact Hur]. lra.
      * rewrite last_app, fmap_last, Hlastr. simpl. f_equal. lra.
      * intros stk acc k.
        replace (S (fl + fr) + k)%nat with (S (fl + (fr + k))) by lia.
        rewrite (work_loop_bisect _ _ _ _ a z) by done.
        assert (Hfl : curve_point top <$> ((fun u => u * 0.5) <$> ul)
                      = curve_point (left_half top) <$> ul).
        { rewrite <- list_fmap_compose. apply list_fmap_ext.
          intros i u _. symmetry. apply curve_point_left_half. }
        assert (Hfr : curve_point top <$> ((fun u => 0.5 + u * 0.5) <$> ur)
                      = curve_point (right_half top) <$> ur).
        { rewrite <- list_fmap_compose. apply list_fmap_ext.
          intros i u _. symmetry. apply curve_point_right_half. }
        by rewrite Hl, Hr, fmap_app, Hfl, Hfr, app_assoc.
    + exists 1%nat, [1]. split; [simpl; lra|]. split; [done|].
      intros stk acc k. cbn [fmap list_fmap]. rewrite (curve_point_1 _ _ Hz).
      by apply (work_loop_flat _ _ _ _ a z).
Qed.
End OnCurve.

Lemma adaptiveSubdivision_samples (ps : list vec3) :
  2 ≤ length ps →
  ∃ fuel us,
    (∀ k, adaptiveSubdivision (fuel + k) ps
          = Ok (curve_point ps <$> 0%R :: us))
    ∧ ascending 0 us
    ∧ last us = Some 1%R.
Proof.
  intros Hlen.
  destruct (head_last_exist ps) as (a & z & Ha & Hz); [lia|].
  assert (Hcases : length ps = 2 ∨ 3 ≤ length ps) by lia.
  destruct Hcases as [H2|H3].
  - exists 0, [1%R]. split; [|split; [simpl; lra|done]].
    intros k. unfold adaptiveSubdivision. rewrite H2. simpl.
    rewrite map_clone, (curve_point_0 _ _ Ha), (curve_point_1 _ _ Hz).
    destruct ps as [|p [|q [|r ps]]]; simpl in H2; try lia.
    simpl in Ha, Hz. congruence.
  - destruct (chain_exists ps) as (M & HM & Hchain).
    destruct (depth_exists (INR (length ps) * (2 * M))) as [d Hd].
    destruct (process_segment_curve d M ps H3 HM Hchain Hd)
      as (fuel & us & Hus & Hlast & Hrun).
    exists fuel, us. split; [|done]. intros k.
    unfold adaptiveSubdivision.
    destruct (Nat.ltb_spec (length ps) 2) as [|_]; [lia|].
    destruct (Nat.eqb_spec (length ps) 2) as [|_]; [lia|].
    rewrite (get_head _ _ Ha). cbn [bind].
    change [ps] with (push [] ps). rewrite Hrun, work_loop_done.
    cbn [bind out]. by rewrite clone_id, fmap_cons, (curve_point_0 _ _ Ha).
Qed.


(** X1: on at least 2 control points [adaptiveSubdivision] returns points
    of the Bézier curve of its control points: the first is the curve at
    0, the others are the curve at parameters that increase strictly and
    end at 1.  Every run that returns, whatever its budget, returns these
    points. *)
Theorem adaptiveSubdivision_on_curve (ps : list vec3) :
  2 ≤ length ps →
  ∃ fuel us,
    (∀ k, adaptiveSubdivision (fuel + k) ps
          = Ok (curve_point ps <$> 0%R :: us))
    ∧ (∀ fuel' res, adaptiveSubdivision fuel' ps = Ok res →
         res = curve_point ps <$> 0%R :: us)
    ∧ ascending 0 us
    ∧ last us = Some 1%R.
Proof.
  intros Hlen.
  destruct (adaptiveSubdivision_samples ps Hlen)
    as (fuel & us & Hrun & Hus & Hlast).
  exists fuel, us. split; [done|]. split; [|done].
  intros fuel' res Hres.
  eapply adaptiveSubdivision_unique; [exact Hres|apply (Hrun 0)].
Qed.

Lemma adaptiveSubdivision_on_curve_witness :
  2 ≤ length [Vec3 0 0 0; Vec3 1 2 0; Vec3 3 1 0]
  ∧ ∃ fuel us,
      (∀ k, adaptiveSubdivision (fuel + k) [Vec3 0 0 0; Vec3 1 2 0; Vec3 3 1 0]
            = Ok (curve_point [Vec3 0 0 0; Vec3 1 2 0; Vec3 3 1 0]
                  <$> 0%R :: us))
      ∧ (∀ fuel' res,
           adaptiveSubdivision fuel' [Vec3 0 0 0; Vec3 1 2 0; Vec3 3 1 0]
           = Ok res →
           res = curve_point [Vec3 0 0 0; Vec3 1 2 0; Vec3 3 1 0]
                 <$> 0%R :: us)
      ∧ ascending 0 us
      ∧ last us = Some 1%R.
Proof.
  split; [simpl; lia|].
  apply (adaptiveSubdivision_on_curve [Vec3 0 0 0; Vec3 1 2 0; Vec3 3 1 0]).
  simpl. lia.
Defined.

(** ** [quadraticUniformBSpline] on any number of points *)

Lemma tail_lerp_pairs t l : tail (lerp_pairs t l) = lerp_pairs t (tail l).
Proof. by destruct l as [|a [|b l]]. Qed.

Lemma de_casteljau_lerp_pairs t l :
  2 ≤ length l → de_casteljau t (lerp_pairs t l) = de_casteljau t l.
Proof.
  intros Hlen. unfold de_casteljau. rewrite length_lerp_pairs.
  destruct (length l) as [|n] eqn:En; [lia|].
  rewrite reduce_long by lia. by rewrite Nat.sub_1_r.
Qed.

Lemma length_tail {A : Type} (l : list A) : length (tail l) = length l - 1.
Proof. destruct l; simpl; lia. Qed.

Lemma length_interior l : length (interior l) = length l - 2.
Proof.
  unfold interior. rewrite length_tail, length_pop. lia.
Qed.

Lemma quadratic_while_spec fuel t (l : list vec3) :
  3 ≤ length l → length l ≤ fuel + 2 →
  ∃ pts,
    while_loop fuel (fun points => 2 <? length points)
      (fun points =>
         let* points' := for_loop 0 (length points - 2) (lerp_at t) points in
         Ok (pop points')) l
    = Ok pts
    ∧ pts !! 1 = de_casteljau t (interior l).
Proof.
  revert l. induction fuel as [|f IH]; intros l Hlo Hhi; [lia|].
  cbn [while_loop]. destruct (Nat.ltb_spec 2 (length l)) as [_|]; [|lia].
  rewrite quadratic_body by lia. cbn [bind].
  set (l' := lerp_sweep t (pop l)).
  assert (Hl' : length l' = length l - 1)
    by (unfold l'; rewrite length_lerp_sweep, length_pop; lia).
  assert (Hcases : length l = 3 ∨ 4 ≤ length l) by lia.
  destruct Hcases as [H3|H4].
  - exists l'. split.
    + destruct f; simpl; by rewrite Hl', H3.
    + destruct l as [|a [|b [|c [|e l]]]]; simpl in H3; try lia. done.
  - destruct (IH l') as (pts & Hpts & Hp); [lia..|].
    exists pts. split; [done|]. rewrite Hp. unfold interior, l'.
    rewrite pop_lerp_sweep, tail_lerp_pairs.
    apply de_casteljau_lerp_pairs. rewrite length_tail, length_pop. lia.
Qed.

Lemma quadraticUniformBSpline_interior ps ts :
  3 ≤ length ps →
  quadraticUniformBSpline ps ts = Ok (curve_point (interior ps) <$> ts).
Proof.
  intros Hlen. unfold quadraticUniformBSpline.
  destruct (Nat.ltb_spec (length ps) 3) as [|_]; [lia|].
  rewrite (for_of_push (curve_point (interior ps))); [done|].
  intros t acc _. rewrite map_clone.
  destruct (quadratic_while_spec (length ps) t ps) as (pts & -> & Hp); [lia..|].
  cbn [bind]. unfold get. rewrite Hp.
  rewrite de_casteljau_curve_point; [done|].
  intros Hnil. apply (f_equal length) in Hnil.
  rewrite length_interior in Hnil. simpl in Hnil. lia.
Qed.

Lemma interior_ends (a z : vec3) (mid : list vec3) :
  interior (a :: mid ++ [z]) = mid.
Proof.
  unfold interior. change (a :: mid ++ [z]) with (push (a :: mid) z).
  by rewrite pop_push.
Qed.

(** X2: on 3 or more control points, a first one [a], a last one [z] and
    the points [mid] between them, [quadraticUniformBSpline] returns for
    every parameter the De Casteljau point of [mid] alone: the first and
    the last control point have no influence on the result. *)
Theorem quadraticUniformBSpline_ignores_ends (a z : vec3) (mid : list vec3)
    (ts : list R) :
  mid ≠ [] →
  ∃ res, quadraticUniformBSpline (a :: mid ++ [z]) ts = Ok res
         ∧ length res = length ts
         ∧ ∀ k t, ts !! k = Some t →
             ∃ p, res !! k = Some p ∧ de_casteljau t mid = Some p.
Proof.
  intros Hne. exists (curve_point mid <$> ts). split; [|split].
  - rewrite quadraticUniformBSpline_interior, interior_ends; [done|].
    destruct mid; [done|]. simpl. rewrite length_app. simpl. lia.
  - by rewrite length_fmap.
  - intros k t Hk. exists (curve_point mid t). split.
    + by rewrite list_lookup_fmap, Hk.
    + by apply de_casteljau_curve_point.
Qed.

Lemma quadraticUniformBSpline_ignores_ends_witness :
  [Vec3 1 2 0; Vec3 3 1 0] ≠ []
  ∧ ∃ res, quadraticUniformBSpline
             (Vec3 0 0 0 :: [Vec3 1 2 0; Vec3 3 1 0] ++ [Vec3 4 0 0]) [0.5%R]
           = Ok res
           ∧ length res = length [0.5%R]
           ∧ ∀ k t, [0.5%R] !! k = Some t →
               ∃ p, res !! k = Some p
                    ∧ de_casteljau t [Vec3 1 2 0; Vec3 3 1 0] = Some p.
Proof.
  split; [done|].
  apply (quadraticUniformBSpline_ignores_ends (Vec3 0 0 0) (Vec3 4 0 0)
           [Vec3 1 2 0; Vec3 3 1 0] [0.5%R]).
  done.
Defined.

(** ** The samples stay in the box of the control points *)

Section Box.
Local Open Scope R_scope.
Variables lo hi : vec3.

Lemma lerp_within a b t :
  0 <= t <= 1 → within lo hi a → within lo hi b →
  within lo hi (lerp_spec a b t).
Proof. unfold within, lerp_spec. simpl. intros Ht Ha Hb. repeat split; nra. Qed.

Lemma lerp_pairs_within t l :
  0 <= t <= 1 → Forall (within lo hi) l →
  Forall (within lo hi) (lerp_pairs t l).
Proof.
  intros Ht. induction l as [|a [|b l] IH]; intros Hl; [constructor..|].
  rewrite lerp_pairs_cons. apply Forall_cons in Hl as [Ha Hl].
  apply Forall_cons. split; [|by apply IH].
  apply Forall_cons in Hl as [Hb _]. by apply lerp_within.
Qed.

Lemma reduce_within rounds t l p :
  0 <= t <= 1 → Forall (within lo hi) l → reduce rounds t l = Some p →
  within lo hi p.
Proof.
  intros Ht. revert l. induction rounds as [|r IH]; intros l Hl Hred.
  - destruct l as [|a [|b l]]; simpl in Hred; try congruence.
    injection Hred as <-. by apply Forall_cons in Hl as [Ha _].
  - destruct l as [|a [|b l]].
    + rewrite reduce_nil in Hred. discriminate.
    + simpl in Hred. injection Hred as <-.
      by apply Forall_cons in Hl as [Ha _].
    + rewrite reduce_S in Hred. eapply IH; [|exact Hred].
      by apply lerp_pairs_within.
Qed.

Lemma curve_point_within l t :
  l ≠ [] → 0 <= t <= 1 → Forall (within lo hi) l →
  within lo hi (curve_point l t).
Proof.
  intros Hne Ht Hl. eapply reduce_within; [exact Ht|exact Hl|].
  by apply de_casteljau_curve_point.
Qed.

Lemma ascending_bounds a b us :
  ascending a us → last us = Some b → Forall (fun u => a < u <= b) us.
Proof.
  revert a. induction us as [|u [|u' us] IH]; intros a Hus Hlast.
  - constructor.
  - destruct Hus as [Ha _]. injection Hlast as ->.
    apply Forall_cons. split; [lra|constructor].
  - destruct Hus as [Ha Hus]. specialize (IH u Hus Hlast).
    apply Forall_cons. split.
    + apply Forall_cons in IH as [Hu' _]. lra.
    + eapply Forall_impl; [exact IH|]. simpl. intros x Hx. lra.
Qed.
End Box.

(** X3: the samples never leave the box of the control points.  When every
    control point lies in the box with corners [lo] and [hi], so does every
    point [evaluateBezierCurve] returns for parameters in [0, 1], and so
    does every point [adaptiveSubdivision] returns. *)
Theorem samples_within_box (lo hi : vec3) (ps : list vec3) (ts : list R) :
  2 ≤ length ps →
  Forall (within lo hi) ps →
  Forall (fun t => 0 <= t <= 1)%R ts →
  (∃ res, evaluateBezierCurve ps ts = Ok res ∧ Forall (within lo hi) res)
  ∧ (∃ fuel res,
       (∀ k, adaptiveSubdivision (fuel + k) ps = Ok res)
       ∧ Forall (within lo hi) res).
Proof.
  intros Hlen Hps Hts.
  assert (Hne : ps ≠ []) by (intros ->; simpl in Hlen; lia).
  split.
  - exists (curve_point ps <$> ts).
    split; [by apply evaluateBezierCurve_Ok|].
    apply Forall_fmap. eapply Forall_impl; [exact Hts|].
    intros t Ht. by apply curve_point_within.
  - destruct (adaptiveSubdivision_samples ps Hlen)
      as (fuel & us & Hrun & Hus & Hlast).
    exists fuel, (curve_point ps <$> 0%R :: us). split; [done|].
    apply Forall_fmap, Forall_cons. split.
    + apply curve_point_within; [done|lra|done].
    + eapply Forall_impl; [exact (ascending_bounds _ _ _ Hus Hlast)|].
      intros u Hu. apply curve_point_within; [done|lra|done].
Qed.

Lemma samples_within_box_witness :
  2 ≤ length [Vec3 0 0 0; Vec3 1 2 0; Vec3 3 1 0]
  ∧ Forall (within (Vec3 0 0 0) (Vec3 3 2 0))
      [Vec3 0 0 0; Vec3 1 2 0; Vec3 3 1 0]
  ∧ Forall (fun t => 0 <= t <= 1)%R [0%R; 0.5%R; 1%R]
  ∧ (∃ res, evaluateBezierCurve [Vec3 0 0 0; Vec3 1 2 0; Vec3 3 1 0]
              [0%R; 0.5%R; 1%R] = Ok res
            ∧ Forall (within (Vec3 0 0 0) (Vec3 3 2 0)) res)
  ∧ (∃ fuel res,
       (∀ k, adaptiveSubdivision (fuel + k)
               [Vec3 0 0 0; Vec3 1 2 0; Vec3 3 1 0] = Ok res)
       ∧ Forall (within (Vec3 0 0 0) (Vec3 3 2 0)) res).
Proof.
  assert (H1 : 2 ≤ length [Vec3 0 0 0; Vec3 1 2 0; Vec3 3 1 0])
    by (simpl; lia).
  assert (H2 : Forall (within (Vec3 0 0 0) (Vec3 3 2 0))
                 [Vec3 0 0 0; Vec3 1 2 0; Vec3 3 1 0])
    by (repeat (apply Forall_cons_2;
                  [unfold within; simpl; repeat split; lra|]);
        apply Forall_nil_2).
  assert (H3 : Forall (fun t => 0 <= t <= 1)%R [0%R; 0.5%R; 1%R])
    by (repeat constructor; lra).
  split; [exact H1|]. split; [exact H2|]. split; [exact H3|].
  exact (samples_within_box _ _ _ _ H1 H2 H3).
Defined.

(** ** The Catmull-Rom spline passes through the control points *)

Lemma spline_samples_cons alpha tension p0 p1 p2 p3 rest :
  spline_samples alpha tension (p0 :: p1 :: p2 :: p3 :: rest)
  = segment_samples alpha tension p0 p1 p2 p3
    ++ spline_samples alpha tension (p1 :: p2 :: p3 :: rest).
Proof. done. Qed.

Lemma spline_samples_lookup alpha tension k i ps p0 p1 p2 p3 :
  ps !! k = Some p0 → ps !! (k + 1) = Some p1 →
  ps !! (k + 2) = Some p2 → ps !! (k + 3) = Some p3 →
  i < 21 →
  spline_samples alpha tension ps !! (21 * k + i)
  = segment_samples alpha tension p0 p1 p2 p3 !! i.
Proof.
  revert ps. induction k as [|k IH]; intros ps H0 H1 H2 H3 Hi.
  - destruct ps as [|q0 [|q1 [|q2 [|q3 rest]]]]; try done.
    simpl in H0, H1, H2, H3.
    injection H0 as ->. injection H1 as ->.
    injection H2 as ->. injection H3 as ->.
    rewrite spline_samples_cons, Nat.mul_0_r, Nat.add_0_l.
    by rewrite lookup_app_l by (by rewrite length_segment_samples).
  - apply lookup_lt_Some in H3 as Hlen.
    destruct ps as [|q0 [|q1 [|q2 [|q3 rest]]]]; try (simpl in Hlen; lia).
    rewrite spline_samples_cons.
    rewrite lookup_app_r by (rewrite length_segment_samples; lia).
    rewrite length_segment_samples.
    replace (21 * S k + i - 21) with (21 * k + i) by lia.
    by apply IH.
Qed.

Lemma segment_samples_ends alpha tension p0 p1 p2 p3 :
  segment_samples alpha tension p0 p1 p2 p3 !! 0 = Some p1
  ∧ segment_samples alpha tension p0 p1 p2 p3 !! 20 = Some p2.
Proof.
  unfold segment_samples. split.
  - change (seq 0 21) with (0 :: seq 1 20). rewrite fmap_cons.
    cbn [lookup list_lookup]. by rewrite cubic_sample_0.
  - rewrite list_lookup_fmap.
    change (seq 0 21 !! 20) with (Some 20). cbn [fmap option_fmap option_map].
    by rewrite cubic_sample_20.
Qed.

Lemma spline_samples_through alpha tension k ps p1 p2 :
  k + 3 < length ps →
  ps !! (k + 1) = Some p1 → ps !! (k + 2) = Some p2 →
  spline_samples alpha tension ps !! (21 * k) = Some p1
  ∧ spline_samples alpha tension ps !! (21 * k + 20) = Some p2.
Proof.
  intros Hlen H1 H2.
  destruct (lookup_lt_is_Some_2 ps k) as [p0 H0]; [lia|].
  destruct (lookup_lt_is_Some_2 ps (k + 3)) as [p3 H3]; [lia|].
  destruct (segment_samples_ends alpha tension p0 p1 p2 p3) as [E0 E20].
  split.
  - rewrite <- (Nat.add_0_r (21 * k)).
    by rewrite (spline_samples_lookup _ _ _ _ _ p0 p1 p2 p3) by (done || lia).
  - by rewrite (spline_samples_lookup _ _ _ _ _ p0 p1 p2 p3) by (done || lia).
Qed.

(** X4: the Catmull-Rom spline passes through its inner control points.
    For every window k of 4 consecutive control points, the first of the
    21 samples of the window is its second control point (ps[k+1]) and the
    last one is its third (ps[k+2]); so consecutive windows join, the last
    sample of one being the first sample of the next.  This holds for the
    uniform parametrization on every input, and for the chordal and the
    centripetal one when no two consecutive control points coincide. *)
Theorem catmull_rom_through_control_points (ps : list vec3)
    (kn : knotParametrization) (k : nat) (p1 p2 : vec3) :
  k + 3 < length ps →
  ps !! (k + 1) = Some p1 → ps !! (k + 2) = Some p2 →
  ∃ r, cubicCatmullRomSpline ps kn = Ok r
       ∧ (uniform kn = true →
          uniformResult r !! (21 * k) = Some p1
          ∧ uniformResult r !! (21 * k + 20) = Some p2)
       ∧ (distinct_neighbours ps →
          (chordal kn = true →
           chordalResult r !! (21 * k) = Some p1
           ∧ chordalResult r !! (21 * k + 20) = Some p2)
          ∧ (centripetal kn = true →
             centripetalResult r !! (21 * k) = Some p1
             ∧ centripetalResult r !! (21 * k + 20) = Some p2)).
Proof.
  intros Hlen H1 H2.
  exists (Splines (if uniform kn then spline_samples 0 0 ps else [])
                  (if chordal kn then spline_samples 1 0 ps else [])
                  (if centripetal kn then spline_samples 0.5 0 ps else [])).
  split.
  - unfold cubicCatmullRomSpline, push_all_if.
    destruct (Nat.ltb_spec (length ps) 4) as [|_]; [lia|].
    rewrite !catmullRomImpl_spec.
    by destruct (uniform kn), (chordal kn), (centripetal kn).
  - cbn [uniformResult chordalResult centripetalResult].
    split; [|intros _; split]; intros ->; by apply spline_samples_through.
Qed.

Lemma catmull_rom_through_control_points_witness :
  0 + 3 < length four_points
  ∧ four_points !! (0 + 1) = Some (Vec3 1 2 0)
  ∧ four_points !! (0 + 2) = Some (Vec3 3 1 0)
  ∧ ∃ r, cubicCatmullRomSpline four_points
           (KnotParametrization true true true) = Ok r
         ∧ (uniform (KnotParametrization true true true) = true →
            uniformResult r !! (21 * 0) = Some (Vec3 1 2 0)
            ∧ uniformResult r !! (21 * 0 + 20) = Some (Vec3 3 1 0))
         ∧ (distinct_neighbours four_points →
            (chordal (KnotParametrization true true true) = true →
             chordalResult r !! (21 * 0) = Some (Vec3 1 2 0)
             ∧ chordalResult r !! (21 * 0 + 20) = Some (Vec3 3 1 0))
            ∧ (centripetal (KnotParametrization true true true) = true →
               centripetalResult r !! (21 * 0) = Some (Vec3 1 2 0)
               ∧ centripetalResult r !! (21 * 0 + 20) = Some (Vec3 3 1 0))).
Proof.
  assert (H0 : 0 + 3 < length four_points) by (simpl; lia).
  assert (H1 : four_points !! (0 + 1) = Some (Vec3 1 2 0)) by reflexivity.
  assert (H2 : four_points !! (0 + 2) = Some (Vec3 3 1 0)) by reflexivity.
  split; [exact H0|]. split; [exact H1|]. split; [exact H2|].
  exact (catmull_rom_through_control_points four_points
           (KnotParametrization true true true) 0 _ _ H0 H1 H2).
Defined.

(** ** The uniform spline in its usual form *)

Lemma pow_0 x : pow x 0 = 1%R.
Proof. unfold pow. by destruct (Req_dec_T 0 0). Qed.

Lemma uniform_sample p0 p1 p2 p3 i :
  cubic_sample (coef_a 0 0 p0 p1 p2 p3) (coef_b 0 0 p0 p1 p2 p3)
    (m1 0 0 p0 p1 p2) p1 i
  = catmull_rom_point p0 p1 p2 p3 (INR i / 20).
Proof.
  unfold cubic_sample, catmull_rom_point, catmull_rom_coordinate,
    vec3.fromValues, coef_a, coef_b, m1, m2, t01, t12, t23.
  rewrite !pow_0. cbn [c0 c1 c2]. f_equal; field.
Qed.

(** X16: with the uniform parametrization the samples are those of the
    usual Catmull-Rom cubic.  Sample [i] of window [k], with control
    points [p0], [p1], [p2], [p3], is the point at [t = i / 20] of the
    cubic [(2 p1 + (p2 - p0) t + (2 p0 - 5 p1 + 4 p2 - p3) t^2
    + (3 p1 - p0 - 3 p2 + p3) t^3) / 2]. *)
Theorem uniform_catmull_rom_standard (ps : list vec3)
    (kn : knotParametrization) (k i : nat) (p0 p1 p2 p3 : vec3) :
  ps !! k = Some p0 → ps !! (k + 1) = Some p1 →
  ps !! (k + 2) = Some p2 → ps !! (k + 3) = Some p3 →
  i ≤ 20 → uniform kn = true →
  ∃ r, cubicCatmullRomSpline ps kn = Ok r
       ∧ uniformResult r !! (21 * k + i)
         = Some (catmull_rom_point p0 p1 p2 p3 (INR i / 20)).
Proof.
  intros H0 H1 H2 H3 Hi Hu.
  exists (Splines (spline_samples 0 0 ps)
                  (if chordal kn then spline_samples 1 0 ps else [])
                  (if centripetal kn then spline_samples 0.5 0 ps else [])).
  split.
  - apply lookup_lt_Some in H3. unfold cubicCatmullRomSpline, push_all_if.
    destruct (Nat.ltb_spec (length ps) 4) as [|_]; [lia|].
    rewrite !catmullRomImpl_spec, Hu.
    by destruct (chordal kn), (centripetal kn).
  - cbn [uniformResult].
    rewrite (spline_samples_lookup _ _ _ _ _ p0 p1 p2 p3) by (done || lia).
    unfold segment_samples. rewrite list_lookup_fmap, lookup_seq_lt by lia.
    cbn [fmap option_fmap option_map]. f_equal. apply uniform_sample.
Qed.

Lemma uniform_catmull_rom_standard_witness :
  ∃ r, cubicCatmullRomSpline four_points (KnotParametrization true false true)
       = Ok r
       ∧ uniformResult r !! (21 * 0 + 10)
         = Some (catmull_rom_point (Vec3 0 0 0) (Vec3 1 2 0) (Vec3 3 1 0)
                   (Vec3 4 0 0) (INR 10 / 20)).
Proof.
  apply (uniform_catmull_rom_standard four_points
           (KnotParametrization true false true) 0 10);
    (reflexivity || lia).
Defined.

(** ** The canvas: finding the control point under the pointer *)

Lemma findFocus_loop_spec x y cps count : ∀ i,
  i + count = length cps →
  match findFocus_loop x y cps i count with
  | Some k =>
    i ≤ k ∧ (∃ p, cps !! k = Some p ∧ near x y p)
    ∧ ∀ j q, i ≤ j → j < k → cps !! j = Some q → ¬ near x y q
  | None => ∀ j q, i ≤ j → cps !! j = Some q → ¬ near x y q
  end.
Proof.
  induction count as [|count IH]; intros i Hlen; simpl.
  - intros j q Hj Hq. apply lookup_lt_Some in Hq. lia.
  - destruct (cps !! i) as [p|] eqn:Hp.
    2:{ apply lookup_ge_None in Hp. lia. }
    destruct (Rlt_dec _ _) as [Hnear|Hfar].
    + split; [lia|]. split; [by exists p|]. intros. lia.
    + specialize (IH (S i) ltac:(lia)).
      destruct (findFocus_loop x y cps (S i) count) as [k|].
      * destruct IH as (Hk & Hat & Hbefore). split; [lia|]. split; [done|].
        intros j q Hj Hjk Hq. destruct (decide (j = i)) as [->|].
        -- rewrite Hp in Hq. by inversion Hq; subst.
        -- apply (Hbefore j q); [lia|done|done].
      * intros j q Hj Hq. destruct (decide (j = i)) as [->|].
        -- rewrite Hp in Hq. by inversion Hq; subst.
        -- apply (IH j q); [lia|done].
Qed.

(** X5: [findFocus] returns the index of the first control point that is
    within a tenth of the pointer, and [null] exactly when there is none. *)
Theorem findFocus_first (x y : R) (cps : list vec3) :
  (∀ i, findFocus x y cps = Some i ↔
        (∃ p, cps !! i = Some p ∧ near x y p)
        ∧ ∀ j q, j < i → cps !! j = Some q → ¬ near x y q)
  ∧ (findFocus x y cps = None ↔ Forall (fun p => ¬ near x y p) cps).
Proof.
  pose proof (findFocus_loop_spec x y cps (length cps) 0 eq_refl) as Hspec.
  unfold findFocus. destruct (findFocus_loop x y cps 0 (length cps)) as [k|].
  - destruct Hspec as (_ & (p & Hp & Hnear) & Hbefore). split.
    + intros i. split.
      * intros [= <-]. split; [by exists p|].
        intros j q Hj Hq. apply (Hbefore j q); [lia|done|done].
      * intros ((p' & Hp' & Hnear') & Hbefore').
        destruct (Nat.lt_trichotomy i k) as [Hlt|[->|Hgt]]; [|done|].
        -- exfalso. apply (Hbefore i p'); [lia|done|done|done].
        -- exfalso. by apply (Hbefore' k p).
    + split; [done|]. intros Hall. exfalso.
      rewrite Forall_lookup in Hall. by apply (Hall k p).
  - split.
    + intros i. split; [done|]. intros ((p & Hp & Hnear) & _).
      exfalso. apply (Hspec i p); [lia|done|done].
    + split; [|done]. intros _. apply Forall_lookup. intros j q Hq.
      apply (Hspec j q); [lia|done].
Qed.

(** ** The canvas: the buffers given to WebGL *)

Lemma typed_set_fits (target source : list R) (offset : nat) :
  offset + length source ≤ length target →
  typed_set target source offset
  = Some (take offset target ++ source
          ++ drop (offset + length source) target).
Proof.
  intros Hfit. unfold typed_set.
  destruct (Nat.ltb_spec (length target) (offset + length source)); [lia|done].
Qed.

Lemma length_flat_map_3 {A : Type} (f : A → list R) (l : list A) :
  (∀ p, length (f p) = 3) → length (flat_map f l) = length l * 3.
Proof.
  intros Hf. induction l as [|p l IH]; [done|].
  simpl. rewrite length_app, Hf, IH. lia.
Qed.

(** A loop that writes three numbers for each element of [l], from index
    [base] on, fills that part of the buffer and nothing else. *)
Lemma fill_loop (l : list vec3) (f : vec3 → list R) (base : nat)
    (body : nat → list R → option (list R)) :
  (∀ i p v, l !! i = Some p → body i v = typed_set v (f p) (base + i * 3)) →
  (∀ p, length (f p) = 3) →
  ∀ count i v,
    i + count = length l → base + length l * 3 ≤ length v →
    for_each i count body v
    = Some (take (base + i * 3) v ++ flat_map f (drop i l)
            ++ drop (base + length l * 3) v).
Proof.
  intros Hbody Hf. induction count as [|count IH]; intros i v Hi Hv; simpl.
  - replace i with (length l) by lia. rewrite drop_all. simpl.
    by rewrite take_drop.
  - destruct (l !! i) as [p|] eqn:Hp.
    2:{ apply lookup_ge_None in Hp. lia. }
    rewrite (Hbody i p v Hp), typed_set_fits by (rewrite Hf; lia).
    simpl. rewrite Hf.
    set (v' := take (base + i * 3) v ++ f p ++ drop (base + i * 3 + 3) v).
    assert (Hpre : length (take (base + i * 3) v) = base + i * 3)
      by (rewrite length_take; lia).
    assert (Hlen' : length v' = length v).
    { unfold v'. rewrite !length_app, Hpre, Hf, length_drop. lia. }
    rewrite IH by lia. f_equal.
    assert (Htake : take (base + S i * 3) v'
                    = take (base + i * 3) v ++ f p).
    { unfold v'. rewrite app_assoc. apply take_app_length'.
      rewrite length_app, Hpre, Hf. lia. }
    assert (Hdrop : drop (base + length l * 3) v'
                    = drop (base + length l * 3) v).
    { unfold v'. rewrite app_assoc, drop_app_ge
        by (rewrite length_app, Hpre, Hf; lia).
      rewrite length_app, Hpre, Hf, drop_drop. f_equal. lia. }
    rewrite Htake, Hdrop, (drop_S l p i Hp). simpl.
    by rewrite <- !app_assoc.
Qed.

Lemma fill_both (s c : list vec3) (f g : vec3 → list R)
    (body_s body_c : nat → list R → option (list R)) :
  (∀ i p v, s !! i = Some p → body_s i v = typed_set v (f p) (i * 3)) →
  (∀ i p v, c !! i = Some p →
            body_c i v = typed_set v (g p) (length s * 3 + i * 3)) →
  (∀ p, length (f p) = 3) → (∀ p, length (g p) = 3) →
  (v ← for_each 0 (length s) body_s
         (replicate (length s * 3 + length c * 3) 0%R);
   for_each 0 (length c) body_c v)
  = Some (flat_map f s ++ flat_map g c).
Proof.
  intros Hs Hc Hf Hg.
  rewrite (fill_loop s f 0 body_s) by (try rewrite length_replicate; done || lia).
  simpl. rewrite drop_0.
  set (v := flat_map f s ++ drop (length s * 3) _).
  assert (Hv : length v = length s * 3 + length c * 3).
  { unfold v. rewrite length_app, length_drop, length_replicate,
      length_flat_map_3 by done. lia. }
  rewrite (fill_loop c g (length s * 3) body_c) by (done || lia).
  rewrite drop_0, Nat.add_0_r. rewrite drop_ge by lia.
  rewrite app_nil_r. f_equal. f_equal. unfold v.
  apply take_app_length'. by rewrite length_flat_map_3.
Qed.

Lemma fillSizes_closed (s c : list vec3) (focus : option nat) :
  fillSizes s c focus
  = replicate (length s) 5%R
    ++ ((fun j => if decide (focus = Some j) then 10%R else 5%R)
        <$> seq 0 (length c)).
Proof.
  unfold fillSizes. rewrite length_replicate. apply list_eq. intros k.
  assert (Hrhs : ∀ k,
    (replicate (length s) 5%R
     ++ ((fun j => if decide (focus = Some j) then 10%R else 5%R)
         <$> seq 0 (length c))) !! k
    = if decide (k < length s) then Some 5%R
      else if decide (k < length s + length c)
           then Some (if decide (focus = Some (k - length s))
                      then 10%R else 5%R)
           else None).
  { intros j. destruct (decide (j < length s)) as [Hj|Hj].
    - rewrite lookup_app_l by (by rewrite length_replicate).
      by apply lookup_replicate_2.
    - rewrite lookup_app_r by (rewrite length_replicate; lia).
      rewrite length_replicate, list_lookup_fmap.
      destruct (decide (j < length s + length c)) as [Hj'|Hj'].
      + rewrite lookup_seq_lt by lia. done.
      + rewrite lookup_seq_ge by lia. done. }
  rewrite Hrhs. clear Hrhs.
  assert (Hfive : ∀ k, replicate (length s + length c) 5%R !! k
    = if decide (k < length s + length c) then Some 5%R else None).
  { intros j. destruct (decide (j < length s + length c)).
    - by apply lookup_replicate_2.
    - apply lookup_ge_None. rewrite length_replicate. lia. }
  destruct focus as [f|].
  - destruct (decide (k = length s + f)) as [->|Hk].
    + destruct (decide (length s + f < length s)); [lia|].
      destruct (decide (length s + f < length s + length c)).
      * rewrite list_lookup_insert_eq by (rewrite length_replicate; lia).
        replace (length s + f - length s) with f by lia.
        by destruct (decide (Some f = Some f)).
      * apply lookup_ge_None. rewrite length_insert, length_replicate. lia.
    + rewrite list_lookup_insert_ne by done. rewrite Hfive.
      destruct (decide (k < length s)).
      * destruct (decide (k < length s + length c)); [done|lia].
      * destruct (decide (k < length s + length c)); [|done].
        destruct (decide (Some f = Some (k - length s))) as [[= ->]|]; [lia|done].
  - rewrite Hfive. destruct (decide (k < length s)).
    + destruct (decide (k < length s + length c)); [done|lia].
    + destruct (decide (k < length s + length c)); [|done].
      by destruct (decide (None = Some (k - length s))).
Qed.

(** X6: the three buffers of [draw] are filled without a RangeError and
    list the sample points first and the control points after them:
    [fillVertices] gives their coordinates, three numbers a point;
    [fillColors] one colour for every sample point and another for every
    control point; [fillSizes] size 5 for every point except the focused
    control point, which has size 10.  A focus that is the index of no
    control point leaves every size at 5. *)
Theorem buffers_aligned (samplePoints controlPoints : list vec3)
    (focus : option nat) :
  fillVertices samplePoints controlPoints
  = Some (flat_map components (samplePoints ++ controlPoints))
  ∧ fillColors samplePoints controlPoints
    = Some (flat_map (fun _ => [1; 0.6; 0.2]%R) samplePoints
            ++ flat_map (fun _ => [0.2; 0.5; 1]%R) controlPoints)
  ∧ fillSizes samplePoints controlPoints focus
    = replicate (length samplePoints) 5%R
      ++ ((fun j => if decide (focus = Some j) then 10%R else 5%R)
          <$> seq 0 (length controlPoints))
  ∧ ((∀ f, focus = Some f → length controlPoints ≤ f) →
     fillSizes samplePoints controlPoints focus
     = replicate (length samplePoints + length controlPoints) 5%R).
Proof.
  split; [|split; [|split]].
  - unfold fillVertices. rewrite flat_map_app. apply fill_both; try done.
    + intros i p v Hp. by rewrite Hp.
    + intros i p v Hp. by rewrite Hp.
  - unfold fillColors.
    by apply (fill_both samplePoints controlPoints
                (fun _ => [1; 0.6; 0.2]%R) (fun _ => [0.2; 0.5; 1]%R)).
  - apply fillSizes_closed.
  - intros Hfocus. unfold fillSizes. rewrite length_replicate.
    destruct focus as [f|]; [|done].
    apply list_insert_ge. rewrite length_replicate.
    specialize (Hfocus f eq_refl). lia.
Qed.

(** ** Moving the control points *)

Section Motion.
Variable T : vec3 → vec3.
Hypothesis T_lerp : ∀ a b t, lerp_spec (T a) (T b) t = T (lerp_spec a b t).
Hypothesis T_dist : ∀ a b, vec3.dist (T a) (T b) = vec3.dist a b.

Lemma lerp_pairs_move t l : lerp_pairs t (T <$> l) = T <$> lerp_pairs t l.
Proof.
  induction l as [|a [|b l] IH]; [done..|].
  rewrite !fmap_cons, !lerp_pairs_cons, fmap_cons, T_lerp.
  f_equal. by rewrite <- IH, !fmap_cons.
Qed.

Lemma reduce_move rounds t l :
  reduce rounds t (T <$> l) = T <$> reduce rounds t l.
Proof.
  revert l. induction rounds as [|r IH]; intros l.
  - by destruct l as [|a [|b l]].
  - destruct l as [|a [|b l]]; [|done|].
    + change (T <$> []) with (@nil vec3). cbn [reduce lerp_pairs].
      apply (IH []).
    + rewrite !fmap_cons, !reduce_S, <- !fmap_cons, lerp_pairs_move.
      apply IH.
Qed.

Lemma curve_point_move l t :
  l ≠ [] → curve_point (T <$> l) t = T (curve_point l t).
Proof.
  intros Hne. unfold curve_point at 1. unfold de_casteljau.
  rewrite length_fmap, reduce_move.
  fold (de_casteljau t l). by rewrite de_casteljau_curve_point.
Qed.

Lemma polygon_length_cons a b l :
  polygon_length (a :: b :: l) = (vec3.dist a b + polygon_length (b :: l))%R.
Proof. done. Qed.

Lemma polygon_length_move l : polygon_length (T <$> l) = polygon_length l.
Proof.
  induction l as [|a [|b l] IH]; [done..|].
  rewrite !fmap_cons, !polygon_length_cons, T_dist.
  f_equal. by rewrite <- IH, !fmap_cons.
Qed.

Lemma chord_length_move l : chord_length (T <$> l) = chord_length l.
Proof.
  unfold chord_length. rewrite fmap_last.
  destruct l as [|a l]; [done|]. rewrite fmap_cons. cbn [head].
  destruct (last (a :: l)) as [z|]; [|done]. apply T_dist.
Qed.

Lemma gravesen_error_move l : gravesen_error (T <$> l) = gravesen_error l.
Proof.
  unfold gravesen_error.
  by rewrite length_fmap, polygon_length_move, chord_length_move.
Qed.

Lemma heads_move rounds t l :
  heads rounds t (T <$> l) = T <$> heads rounds t l.
Proof.
  revert l. induction rounds as [|r IH]; intros l; [by destruct l|].
  destruct l as [|a l]; [done|].
  rewrite fmap_cons, !heads_cons, fmap_cons, <- fmap_cons.
  by rewrite lerp_pairs_move, IH.
Qed.

Lemma lasts_move rounds t l :
  lasts rounds t (T <$> l) = T <$> lasts rounds t l.
Proof.
  revert l. induction rounds as [|r IH]; intros l; [done|].
  cbn [lasts]. rewrite fmap_last.
  destruct (last l) as [z|]; [|done].
  cbn [fmap option_fmap option_map]. rewrite fmap_cons.
  by rewrite lerp_pairs_move, IH.
Qed.

Lemma left_half_move l : left_half (T <$> l) = T <$> left_half l.
Proof. unfold left_half. by rewrite length_fmap, heads_move. Qed.

Lemma right_half_move l : right_half (T <$> l) = T <$> right_half l.
Proof.
  unfold right_half. by rewrite length_fmap, lasts_move, fmap_reverse.
Qed.

Lemma subdivide_body_move (n : nat) (s : work) :
  3 ≤ n → Forall (fun top => length top = n) (stack s) →
  subdivide_body (move_work T s) = outcome_map (move_work T) (subdivide_body s).
Proof.
  intros Hn Hall. destruct s as [stk acc]. unfold move_work. cbn [stack out] in *.
  destruct stk as [|top stk _] using rev_ind; [done|].
  apply Forall_app in Hall as [_ Htop]. rewrite Forall_singleton in Htop.
  destruct (head_last_exist top) as (a & z & Ha & Hz); [lia|].
  rewrite fmap_app, list_fmap_singleton.
  pose proof (subdivide_body_spec (fmap (M := list) (fmap (M := list) T) stk)
                (T <$> top) (T <$> acc) (T a) (T z)) as Hmoved.
  pose proof (subdivide_body_spec stk top acc a z) as Hstill.
  unfold push in Hmoved, Hstill.
  assert (Ha' : head (T <$> top) = Some (T a)).
  { destruct top; [done|]. by injection Ha as ->. }
  assert (Hz' : last (T <$> top) = Some (T z)) by (by rewrite fmap_last, Hz).
  assert (Hlen' : 3 ≤ length (T <$> top)) by (rewrite length_fmap; lia).
  assert (Hlen : 3 ≤ length top) by lia.
  rewrite (Hmoved Hlen' Ha' Hz'), (Hstill Hlen Ha Hz).
  rewrite gravesen_error_move. cbn [outcome_map].
  clear Hmoved Hstill.
  destruct (Rgt_dec _ _); unfold move_work; cbn [stack out];
    by rewrite ?fmap_app, ?list_fmap_singleton, ?left_half_move,
         ?right_half_move.
Qed.

Lemma work_loop_move (n fuel : nat) (s : work) :
  3 ≤ n → Forall (fun top => length top = n) (stack s) →
  work_loop fuel (move_work T s) = outcome_map (move_work T) (work_loop fuel s).
Proof.
  intros Hn. revert s. induction fuel as [|f IH]; intros s Hall.
  - cbn [while_loop]. unfold move_work at 1. cbn [stack].
    rewrite length_fmap. by destruct (0 <? length (stack s)).
  - cbn [while_loop]. unfold move_work at 1. cbn [stack].
    rewrite length_fmap.
    destruct (Nat.ltb_spec 0 (length (stack s))) as [Hpos|]; [|done].
    rewrite (subdivide_body_move n) by done.
    destruct (subdivide_body_lengths n s Hn Hall) as (s' & -> & Hall').
    { intros E. rewrite E in Hpos. simpl in Hpos. lia. }
    cbn [outcome_map bind]. by apply IH.
Qed.

Lemma evaluateBezierCurve_move ps ts :
  evaluateBezierCurve (T <$> ps) ts
  = outcome_map (fmap T) (evaluateBezierCurve ps ts).
Proof.
  destruct (decide (2 ≤ length ps)) as [Hlen|Hlen].
  - rewrite !evaluateBezierCurve_Ok by (by rewrite ?length_fmap).
    cbn [outcome_map]. f_equal. rewrite <- list_fmap_compose.
    apply list_fmap_ext. intros _ t _. apply curve_point_move.
    intros ->. simpl in Hlen. lia.
  - unfold evaluateBezierCurve. rewrite length_fmap.
    destruct (Nat.ltb_spec (length ps) 2); [done|lia].
Qed.

Lemma adaptiveSubdivision_move fuel ps :
  adaptiveSubdivision fuel (T <$> ps)
  = outcome_map (fmap T) (adaptiveSubdivision fuel ps).
Proof.
  unfold adaptiveSubdivision. rewrite length_fmap.
  destruct (Nat.ltb_spec (length ps) 2); [done|].
  destruct (Nat.eqb_spec (length ps) 2).
  { cbn [outcome_map]. by rewrite !map_clone. }
  destruct ps as [|a ps]; [simpl in *; lia|].
  rewrite fmap_cons. cbn [get lookup list_lookup bind]. rewrite !clone_id.
  change (Work [T a :: (T <$> ps)] [T a])
    with (move_work T (Work [a :: ps] [a])).
  rewrite (work_loop_move (length (a :: ps))).
  2:{ simpl in *. lia. }
  2:{ by apply Forall_singleton. }
  by destruct (while_loop fuel _ _ _).
Qed.
End Motion.

(** ** The canvas: panning and dragging *)

Lemma pan_lerp d a b t :
  lerp_spec (pan d a) (pan d b) t = pan d (lerp_spec a b t).
Proof. unfold lerp_spec, pan. simpl. f_equal; ring. Qed.

Lemma pan_dist d a b : vec3.dist (pan d a) (pan d b) = vec3.dist a b.
Proof. unfold vec3.dist, pan. simpl. f_equal. ring. Qed.

(** X7: releasing the button after a pan hands [setControlPoints] the
    control points moved by the vector from the point where the pan began
    to the pointer, and makes the cursor a grab again.  Over exact real
    arithmetic the curve moves with them: on the moved control points
    [evaluateBezierCurve], [geometry] and [adaptiveSubdivision] give the
    samples, or the error, they gave before, every sample moved by the same
    vector, and the subdivision cuts at the same places within the same
    number of iterations.  In the arithmetic of the program this holds up
    to rounding at best, and not for [adaptiveSubdivision]: the triangle
    (0, 0), (2, 0), (2, 2) is subdivided, while the same triangle moved
    by (2^24, 2^24) is never done. *)
Theorem pan_moves_curve (x y : R) (translateFrom translation : vec3)
    (cfg : config) :
  let d := sub (Vec3 x y 0) translateFrom in
  let u := cursor_effect (Some (x, y)) false
             (Grabbing translateFrom translation) cfg in
  ∃ moved,
    setControlPoints u = Some (Some <$> moved)
    ∧ setCursor u = Some Grab
    ∧ length moved = length (controlPoints cfg)
    ∧ (∀ i p, controlPoints cfg !! i = Some p →
         moved !! i = Some (Vec3 (c0 p + (x - c0 translateFrom))
                                 (c1 p + (y - c1 translateFrom)) (c2 p)))
    ∧ (∀ ts, evaluateBezierCurve moved ts
             = outcome_map (fmap (pan d))
                 (evaluateBezierCurve (controlPoints cfg) ts))
    ∧ (∀ nSteps, geometry moved nSteps
                 = outcome_map (fmap (pan d))
                     (geometry (controlPoints cfg) nSteps))
    ∧ (∀ fuel, adaptiveSubdivision fuel moved
               = outcome_map (fmap (pan d))
                   (adaptiveSubdivision fuel (controlPoints cfg)))
    ∧ (Rounded.pan Rounded.far_point <$> Rounded.near_triangle
       = Rounded.far_triangle
       ∧ (∃ res, Rounded.adaptiveSubdivision 200 Rounded.near_triangle
                 = Ok res)
       ∧ ∀ fuel, Rounded.adaptiveSubdivision fuel Rounded.far_triangle
                 = Raise OutOfFuel).
Proof.
  intros d u. exists (pan d <$> controlPoints cfg).
  split; [done|]. split; [done|]. split; [by rewrite length_fmap|].
  split; [|split; [|split; [|split]]].
  - intros i p Hp. by rewrite list_lookup_fmap, Hp.
  - intros ts. apply evaluateBezierCurve_move.
    + apply pan_lerp.
  - intros nSteps. unfold geometry.
    destruct (parameters nSteps) as [ts|e]; [|done]. cbn [bind].
    apply evaluateBezierCurve_move. apply pan_lerp.
  - intros fuel. apply adaptiveSubdivision_move; [apply pan_lerp|apply pan_dist].
  - split; [by vm_compute|]. split; [|apply rounded_far_never].
    eexists. vm_compute. reflexivity.
Qed.

Lemma findFocus_Some x y cps i :
  findFocus x y cps = Some i → ∃ p, cps !! i = Some p ∧ near x y p.
Proof.
  intros Hi.
  pose proof (findFocus_loop_spec x y cps (length cps) 0 eq_refl) as Hspec.
  unfold findFocus in Hi. rewrite Hi in Hspec. by destruct Hspec as (_ & ? & _).
Qed.

Lemma findFocus_valid x y cps i : findFocus x y cps = Some i → i < length cps.
Proof.
  intros Hi. destruct (findFocus_Some x y cps i Hi) as (p & Hp & _).
  by apply lookup_lt_Some in Hp.
Qed.

(** X8: the handlers of the canvas keep the focus valid.  When the focus
    of the cursor, if it has one, is the index of a control point, then
    after the effect on pointer moves and clicks, and after the handler of
    the context menu, the array given to [setControlPoints] (if any) has no
    hole and no fewer points than before, and the focus of the new cursor
    is the index of one of them. *)
Theorem focus_stays_valid (xy : option (R * R)) (leftClicked : bool)
    (cursor : CursorState) (cfg : config) (u : updates) :
  focus_valid cursor (controlPoints cfg) →
  u = cursor_effect xy leftClicked cursor cfg
  ∨ u = onContextMenu xy cursor cfg →
  ∃ cps',
    (setControlPoints u = None ∧ cps' = controlPoints cfg
     ∨ setControlPoints u = Some (Some <$> cps'))
    ∧ length (controlPoints cfg) ≤ length cps'
    ∧ focus_valid (default cursor (setCursor u)) cps'.
Proof.
  intros Hvalid [->| ->].
  - unfold cursor_effect. destruct xy as [[x y]|].
    2:{ exists (controlPoints cfg). cbn. eauto. }
    destruct cursor as [|focus|focus|from tr]; destruct leftClicked.
    + exists (controlPoints cfg). cbn. eauto.
    + destruct (showControlPoints cfg);
        [destruct (findFocus x y (controlPoints cfg)) as [f|] eqn:Hf|];
        exists (controlPoints cfg); cbn; split_and!; eauto.
      by apply (findFocus_valid x y).
    + exists (controlPoints cfg). cbn. eauto.
    + destruct (showControlPoints cfg);
        [destruct (findFocus x y (controlPoints cfg)) as [f|] eqn:Hf|];
        [destruct (Nat.eqb_spec f focus)|..];
        exists (controlPoints cfg); cbn; split_and!; eauto.
      by apply (findFocus_valid x y).
    + exists (<[focus := Vec3 x y 0]> (controlPoints cfg)).
      cbn in Hvalid. cbn [setControlPoints setCursor default]. unfold assign.
      destruct (Nat.ltb_spec focus (length (controlPoints cfg))); [|lia].
      cbn. split_and!; eauto; rewrite ?length_insert; lia.
    + exists (controlPoints cfg). cbn. eauto.
    + exists (controlPoints cfg). cbn. eauto.
    + exists (pan (sub (Vec3 x y 0) from) <$> controlPoints cfg).
      rewrite length_fmap. cbn. eauto.
  - unfold onContextMenu. destruct xy as [[x y]|].
    2:{ exists (controlPoints cfg). cbn. eauto. }
    destruct cursor as [|focus|focus|from tr];
      try (exists (controlPoints cfg); cbn; by eauto).
    destruct (showControlPoints cfg).
    + exists (controlPoints cfg ++ [Vec3 x y 0]).
      rewrite length_app. cbn. split_and!; eauto. lia.
    + exists (controlPoints cfg). cbn. eauto.
Qed.

Lemma focus_stays_valid_witness :
  ∃ cps',
    (setControlPoints
       (cursor_effect (Some (0.25, 0.5)%R) true (Move 1)
          (Config true [Vec3 0 0.5 0; Vec3 (-0.5) (-0.5) 0; Vec3 0.5 (-0.5) 0]))
     = None
     ∧ cps' = [Vec3 0 0.5 0; Vec3 (-0.5) (-0.5) 0; Vec3 0.5 (-0.5) 0]
     ∨ setControlPoints
         (cursor_effect (Some (0.25, 0.5)%R) true (Move 1)
            (Config true
               [Vec3 0 0.5 0; Vec3 (-0.5) (-0.5) 0; Vec3 0.5 (-0.5) 0]))
       = Some (Some <$> cps'))
    ∧ 3 ≤ length cps'
    ∧ focus_valid (Move 1) cps'.
Proof.
  apply (focus_stays_valid (Some (0.25, 0.5)%R) true (Move 1)
           (Config true
              [Vec3 0 0.5 0; Vec3 (-0.5) (-0.5) 0; Vec3 0.5 (-0.5) 0])).
  - simpl. lia.
  - by left.
Defined.

(** X9: dragging.  With the button held and the cursor in the move state
    on control point [focus], the effect gives [setControlPoints] the
    control points with the pointer's position in place of that one and all
    others as they were, and leaves the cursor.  On the new control points
    [findFocus] finds, at the pointer, the dragged point or a point before it
    that the pointer is also near. *)
Theorem drag_moves_focused_point (x y : R) (focus : nat) (cfg : config) :
  focus < length (controlPoints cfg) →
  let u := cursor_effect (Some (x, y)) true (Move focus) cfg in
  ∃ cps',
    setControlPoints u = Some (Some <$> cps') ∧ setCursor u = None
    ∧ length cps' = length (controlPoints cfg)
    ∧ cps' !! focus = Some (Vec3 x y 0)
    ∧ (∀ j, j ≠ focus → cps' !! j = controlPoints cfg !! j)
    ∧ ∃ j, findFocus x y cps' = Some j ∧ j ≤ focus
           ∧ (j < focus →
              ∃ q, controlPoints cfg !! j = Some q ∧ near x y q).
Proof.
  intros Hfocus u. exists (<[focus := Vec3 x y 0]> (controlPoints cfg)).
  set (cps' := <[focus := Vec3 x y 0]> (controlPoints cfg)).
  assert (Hat : cps' !! focus = Some (Vec3 x y 0))
    by (by apply list_lookup_insert_eq).
  assert (Hnear : near x y (Vec3 x y 0)).
  { unfold near. simpl. lra. }
  split.
  { unfold u. cbn. unfold assign.
    by destruct (Nat.ltb_spec focus (length (controlPoints cfg))); [|lia]. }
  split; [done|]. split; [apply length_insert|]. split; [done|].
  split; [intros j Hj; by apply list_lookup_insert_ne|].
  pose proof (findFocus_loop_spec x y cps' (length cps') 0 eq_refl) as Hspec.
  unfold findFocus.
  destruct (findFocus_loop x y cps' 0 (length cps')) as [j|].
  - exists j. split; [done|].
    destruct Hspec as (_ & (q & Hq & Hq') & Hbefore).
    assert (Hle : j ≤ focus).
    { destruct (decide (j ≤ focus)); [done|]. exfalso.
      apply (Hbefore focus (Vec3 x y 0)); [lia|lia|done|done]. }
    split; [done|]. intros Hlt. exists q. split; [|done].
    unfold cps' in Hq. rewrite list_lookup_insert_ne in Hq by lia. done.
  - exfalso. apply (Hspec focus (Vec3 x y 0)); [lia|done|done].
Qed.

Lemma drag_moves_focused_point_witness :
  ∃ cps',
    setControlPoints
      (cursor_effect (Some (0.25, 0.5)%R) true (Move 1)
         (Config true [Vec3 0 0.5 0; Vec3 (-0.5) (-0.5) 0; Vec3 0.5 (-0.5) 0]))
    = Some (Some <$> cps')
    ∧ setCursor
        (cursor_effect (Some (0.25, 0.5)%R) true (Move 1)
           (Config true
              [Vec3 0 0.5 0; Vec3 (-0.5) (-0.5) 0; Vec3 0.5 (-0.5) 0]))
      = None
    ∧ length cps' = 3
    ∧ cps' !! 1 = Some (Vec3 0.25 0.5 0)
    ∧ (∀ j, j ≠ 1 →
         cps' !! j
         = [Vec3 0 0.5 0; Vec3 (-0.5) (-0.5) 0; Vec3 0.5 (-0.5) 0] !! j)
    ∧ ∃ j, findFocus 0.25 0.5 cps' = Some j ∧ j ≤ 1
           ∧ (j < 1 →
              ∃ q, [Vec3 0 0.5 0; Vec3 (-0.5) (-0.5) 0; Vec3 0.5 (-0.5) 0]
                     !! j = Some q ∧ near 0.25 0.5 q).
Proof.
  apply (drag_moves_focused_point 0.25 0.5 1
           (Config true
              [Vec3 0 0.5 0; Vec3 (-0.5) (-0.5) 0; Vec3 0.5 (-0.5) 0])).
  simpl. lia.
Defined.

(** ** The canvas: uniform sampling *)

Section Sampling.
Local Open Scope R_scope.

Lemma clip_bounds x lo hi : lo <= hi → lo <= clip x lo hi <= hi.
Proof.
  intros Hle. unfold clip. split; [apply Rmax_l|].
  apply Rmax_lub; [done|apply Rmin_l].
Qed.

Lemma to_length_bounds n :
  2 <= n <= 20000 →
  (2 <= Z.of_nat (to_length n) <= 20000)%Z
  ∧ INR (to_length n) <= n < INR (to_length n) + 1
  ∧ (2 ^ 32 <=? Int_part n)%Z = false.
Proof.
  intros [Hlo Hhi]. destruct (base_Int_part n) as [Hle Hgt].
  assert (H2 : (2 <= Int_part n)%Z).
  { assert (1 < Int_part n)%Z; [|lia]. apply lt_IZR. lra. }
  assert (H20000 : (Int_part n <= 20000)%Z) by (apply le_IZR; lra).
  assert (HINR : INR (to_length n) = IZR (Int_part n)).
  { unfold to_length. rewrite INR_IZR_INZ, Z2Nat.id; [done|lia]. }
  split; [unfold to_length; lia|]. split; [lra|].
  apply Z.leb_gt. change (2 ^ 32)%Z with 4294967296%Z. lia.
Qed.

Lemma ascending_fmap_seq (f : nat → R) lo i k :
  (∀ j, f j < f (S j)) → lo < f i → ascending lo (f <$> seq i k).
Proof.
  intros Hf. revert lo i. induction k as [|k IH]; intros lo i Hlo; [done|].
  cbn [seq]. rewrite fmap_cons. split; [done|]. by apply IH.
Qed.

Lemma last_seq i k : last (seq i (S k)) = Some (i + k)%nat.
Proof. by rewrite seq_S, last_snoc. Qed.
End Sampling.

(** X10: the curve drawn for a number typed into the step field.  The field
    stores [clip(x, 2, 20000)]; with at least two control points [geometry]
    then returns the points of the curve at the integer part of that many
    parameters, between 2 and 20000 of them, which start at 0, increase and
    stay within [0, 1], so that the first sample is the first control point.
    When the stored number is whole the last parameter is 1 and the last
    sample is the last control point; when it is not, the last parameter is
    below 1. *)
Theorem geometry_after_clip (x : R) (cps : list vec3) :
  2 ≤ length cps →
  ∃ ts,
    parameters (clip x 2 20000) = Ok ts
    ∧ geometry cps (clip x 2 20000) = Ok (curve_point cps <$> ts)
    ∧ length ts = to_length (clip x 2 20000)
    ∧ (2 <= Z.of_nat (length ts) <= 20000)%Z
    ∧ head ts = Some 0%R ∧ ascending 0 (tail ts)
    ∧ Forall (fun t => 0 <= t <= 1)%R ts
    ∧ head (curve_point cps <$> ts) = head cps
    ∧ (clip x 2 20000 = INR (to_length (clip x 2 20000)) →
       last ts = Some 1%R ∧ last (curve_point cps <$> ts) = last cps)
    ∧ (clip x 2 20000 ≠ INR (to_length (clip x 2 20000)) →
       ∃ t, last ts = Some t ∧ (t < 1)%R).
Proof.
  intros Hcps. set (n := clip x 2 20000).
  assert (Hn : (2 <= n <= 20000)%R) by (apply clip_bounds; lra).
  destruct (to_length_bounds n Hn) as (HN & HNn & Hsmall).
  set (N := to_length n) in *. set (f := fun i => (INR i / (n - 1))%R).
  assert (Hd : (0 < / (n - 1))%R) by (apply Rinv_0_lt_compat; lra).
  assert (Hf0 : f 0 = 0%R) by (unfold f, Rdiv; simpl; apply Rmult_0_l).
  assert (Hstep : ∀ j, (f j < f (S j))%R).
  { intros j. unfold f, Rdiv. apply Rmult_lt_compat_r; [done|].
    rewrite S_INR. lra. }
  assert (Hpar : parameters n = Ok (f <$> seq 0 N)).
  { unfold parameters. by rewrite Hsmall. }
  destruct (head_last_exist cps) as (a & z & Ha & Hz); [lia|].
  destruct N as [|[|N']] eqn:EN; [lia..|].
  assert (Hlast : last (f <$> seq 0 (S (S N'))) = Some (f (S N'))).
  { by rewrite fmap_last, last_seq. }
  exists (f <$> seq 0 (S (S N'))). split; [done|]. split.
  { unfold geometry. fold n. rewrite Hpar. cbn [bind].
    by apply evaluateBezierCurve_Ok. }
  split; [by rewrite length_fmap, length_seq|].
  split; [rewrite length_fmap, length_seq; lia|].
  split; [cbn [seq]; by rewrite fmap_cons, Hf0|].
  split.
  { cbn [seq]. rewrite fmap_cons. cbn [tail].
    change (1%nat :: seq 2 N') with (seq 1 (S N')).
    apply ascending_fmap_seq; [done|]. rewrite <- Hf0. apply Hstep. }
  split.
  { apply Forall_lookup. intros k t Hk.
    rewrite list_lookup_fmap in Hk.
    destruct (seq 0 (S (S N')) !! k) as [j|] eqn:Hj; [|done].
    apply lookup_seq in Hj as [-> Hj]. injection Hk as <-.
    assert (Hk1 : (INR k <= INR (S N'))%R) by (apply le_INR; lia).
    rewrite !S_INR in HNn. rewrite S_INR in Hk1.
    pose proof (pos_INR k). unfold f. split.
    - apply Rmult_le_pos; [done|lra].
    - apply (Rmult_le_reg_r (n - 1)); [lra|].
      unfold Rdiv. rewrite Rmult_assoc, Rinv_l by lra. lra. }
  split.
  { cbn [seq]. rewrite !fmap_cons, Hf0. cbn [head].
    by rewrite (curve_point_0 cps a Ha). }
  split.
  - intros Hwhole. rewrite (fmap_last (curve_point cps)), Hlast.
    cbn [fmap option_fmap option_map].
    assert (H1 : f (S N') = 1%R).
    { unfold f. rewrite Hwhole, !S_INR. pose proof (pos_INR N').
      replace (INR N' + 1 + 1 - 1)%R with (INR N' + 1)%R by lra.
      apply Rdiv_diag. lra. }
    rewrite H1. split; [done|]. by rewrite (curve_point_1 cps z Hz).
  - intros Hfrac. exists (f (S N')). split; [done|].
    unfold f. apply (Rmult_lt_reg_r (n - 1)); [lra|].
    unfold Rdiv. rewrite Rmult_assoc, Rinv_l by lra.
    rewrite !S_INR in *. lra.
Qed.

Lemma geometry_after_clip_witness :
  ∃ ts,
    parameters (clip 100 2 20000) = Ok ts
    ∧ geometry four_points (clip 100 2 20000)
      = Ok (curve_point four_points <$> ts)
    ∧ length ts = to_length (clip 100 2 20000)
    ∧ (2 <= Z.of_nat (length ts) <= 20000)%Z
    ∧ head ts = Some 0%R ∧ ascending 0 (tail ts)
    ∧ Forall (fun t => 0 <= t <= 1)%R ts
    ∧ head (curve_point four_points <$> ts) = head four_points
    ∧ (clip 100 2 20000 = INR (to_length (clip 100 2 20000)) →
       last ts = Some 1%R
       ∧ last (curve_point four_points <$> ts) = last four_points)
    ∧ (clip 100 2 20000 ≠ INR (to_length (clip 100 2 20000)) →
       ∃ t, last ts = Some t ∧ (t < 1)%R).
Proof.
  apply (geometry_after_clip 100 four_points). simpl. lia.
Defined.

(** X11: [onmousemove] maps the rectangle of a canvas of positive size
    onto the square from -1 to 1: the pointer is within the width of the
    canvas exactly when [x] is within the square, and within its height
    exactly when [y] is; the left edge is [x = -1] and the top edge
    [y = 1]; and the position in the canvas is recovered from [x] and
    [y]. *)
Theorem onmousemove_square (clientX clientY left top width height : R) :
  (0 < width)%R → (0 < height)%R →
  ∃ u v x y,
    onmousemove clientX clientY left top width height = ((u, v), (x, y))
    ∧ u = (clientX - left)%R ∧ v = (clientY - top)%R
    ∧ ((0 <= u <= width)%R ↔ (-1 <= x <= 1)%R)
    ∧ ((0 <= v <= height)%R ↔ (-1 <= y <= 1)%R)
    ∧ (u = 0%R ↔ x = (-1)%R) ∧ (v = 0%R ↔ y = 1%R)
    ∧ u = ((x + 1) * width / 2)%R ∧ v = ((1 - y) * height / 2)%R.
Proof.
  intros Hw Hh. eexists _, _, _, _. split; [reflexivity|].
  split; [done|]. split; [done|].
  set (u := (clientX - left)%R). set (v := (clientY - top)%R).
  assert (Hx : (2 * u / width - 1 = 2 * (u / width) - 1)%R) by (by field; lra).
  assert (Hy : (1 - 2 * v / height = 1 - 2 * (v / height))%R)
    by (by field; lra).
  rewrite Hx, Hy.
  assert (Hu : (u = u / width * width)%R) by (field; lra).
  assert (Hv : (v = v / height * height)%R) by (field; lra).
  set (p := (u / width)%R) in *. set (q := (v / height)%R) in *.
  clearbody p q. split_and!.
  - split; intros H; [|rewrite Hu; nra]. rewrite Hu in H. nra.
  - split; intros H; [|rewrite Hv; nra]. rewrite Hv in H. nra.
  - split; intros H; [|rewrite Hu; nra]. rewrite Hu in H. nra.
  - split; intros H; [|rewrite Hv; nra]. rewrite Hv in H. nra.
  - rewrite Hu at 1. field.
  - rewrite Hv at 1. field.
Qed.

Lemma onmousemove_square_witness :
  ∃ u v x y,
    onmousemove 328 248 8 8 640 480 = ((u, v), (x, y))
    ∧ u = (328 - 8)%R ∧ v = (248 - 8)%R
    ∧ ((0 <= u <= 640)%R ↔ (-1 <= x <= 1)%R)
    ∧ ((0 <= v <= 480)%R ↔ (-1 <= y <= 1)%R)
    ∧ (u = 0%R ↔ x = (-1)%R) ∧ (v = 0%R ↔ y = 1%R)
    ∧ u = ((x + 1) * 640 / 2)%R ∧ v = ((1 - y) * 480 / 2)%R.
Proof.
  apply (onmousemove_square 328 248 8 8 640 480); lra.
Defined.

(** ** webgl-utils.ts: looking up locations *)

Section Locations.
Context {L : Type}.
Variable find : string → option L.
Variable msg : string → string.
Variable body : string → gmap string L → outcome (gmap string L).
Hypothesis body_eq : ∀ name acc,
  body name acc = match find name with
                  | Some loc => Ok (<[name := loc]> acc)
                  | None => Raise (Error (msg name))
                  end.

Lemma collect_found names : ∀ acc,
  Forall (fun name => is_Some (find name)) names →
  ∃ m, for_of names body acc = Ok m
       ∧ ∀ k, m !! k = if decide (k ∈ names) then find k else acc !! k.
Proof.
  induction names as [|n names IH]; intros acc Hall.
  - exists acc. split; [done|]. intros k.
    destruct (decide (k ∈ [])) as [Hk|]; [by apply elem_of_nil in Hk|done].
  - apply Forall_cons in Hall as [[v Hv] Hall].
    destruct (IH (<[n := v]> acc) Hall) as (m & Hm & Hlook).
    exists m. split.
    { cbn [for_of]. by rewrite body_eq, Hv. }
    intros k. rewrite Hlook.
    destruct (decide (k ∈ names)) as [Hk|Hk].
    + destruct (decide (k ∈ n :: names)) as [|Hk']; [done|].
      exfalso. apply Hk'. by right.
    + destruct (decide (k = n)) as [->|Hne].
      * rewrite lookup_insert_eq.
        destruct (decide (n ∈ n :: names)) as [|Hn]; [done|].
        exfalso. apply Hn. by left.
      * rewrite lookup_insert_ne by done.
        destruct (decide (k ∈ n :: names)) as [Hk'|]; [|done].
        apply elem_of_cons in Hk' as [|]; done.
Qed.

Lemma collect_missing pre n post : ∀ acc,
  Forall (fun name => is_Some (find name)) pre → find n = None →
  for_of (pre ++ n :: post) body acc = Raise (Error (msg n)).
Proof.
  induction pre as [|p pre IH]; intros acc Hpre Hn.
  - cbn [app for_of]. by rewrite body_eq, Hn.
  - apply Forall_cons in Hpre as [[v Hv] Hpre].
    cbn [app for_of]. rewrite body_eq, Hv. cbn [bind]. by apply IH.
Qed.

Lemma collect_Ok names : ∀ acc m,
  for_of names body acc = Ok m →
  Forall (fun name => is_Some (find name)) names.
Proof.
  induction names as [|n names IH]; intros acc m Hm; [done|].
  cbn [for_of] in Hm. rewrite body_eq in Hm.
  destruct (find n) as [v|] eqn:Hv; [|done]. cbn [bind] in Hm.
  apply Forall_cons. split; [by exists v|]. by apply (IH (<[n := v]> acc) m).
Qed.
End Locations.

(** X12: [getAttribLocations] and [getUniformLocations] return an object
    exactly when the program has every name asked for (a location that is
    not negative, or not [null]); the object then has the names asked for
    as its keys, no others, and maps each to the location of the name with
    its prefix.  When a name is missing, the error carries the first
    missing name of the list. *)
Theorem locations_found_or_named {L : Type} (getAttribLocation : string → Z)
    (getUniformLocation : string → option L) (names : list string) :
  ((∃ m, getAttribLocations getAttribLocation names = Ok m)
   ↔ Forall (fun name => 0 <= getAttribLocation (String.append "a_" name))%Z
       names)
  ∧ (∀ m, getAttribLocations getAttribLocation names = Ok m →
       ∀ k, m !! k = if decide (k ∈ names)
                     then Some (getAttribLocation (String.append "a_" k))
                     else None)
  ∧ (∀ pre name post,
       names = pre ++ name :: post →
       Forall (fun name => 0 <= getAttribLocation (String.append "a_" name))%Z
         pre →
       (getAttribLocation (String.append "a_" name) < 0)%Z →
       getAttribLocations getAttribLocation names
       = Raise (Error (String.append "Attribute "
                         (String.append name " not found"))))
  ∧ ((∃ m, getUniformLocations getUniformLocation names = Ok m)
     ↔ Forall (fun name =>
                 is_Some (getUniformLocation (String.append "u_" name)))
         names)
  ∧ (∀ m, getUniformLocations getUniformLocation names = Ok m →
       ∀ k, m !! k = if decide (k ∈ names)
                     then getUniformLocation (String.append "u_" k)
                     else None)
  ∧ (∀ pre name post,
       names = pre ++ name :: post →
       Forall (fun name =>
                 is_Some (getUniformLocation (String.append "u_" name))) pre →
       getUniformLocation (String.append "u_" name) = None →
       getUniformLocations getUniformLocation names
       = Raise (Error (String.append "Uniform "
                         (String.append name " not found")))).
Proof.
  set (findA := fun name =>
         let loc := getAttribLocation (String.append "a_" name) in
         if (loc <? 0)%Z then None else Some loc).
  set (msgA := fun name =>
         String.append "Attribute " (String.append name " not found")).
  set (findU := fun name => getUniformLocation (String.append "u_" name)).
  set (msgU := fun name =>
         String.append "Uniform " (String.append name " not found")).
  assert (HA : ∀ name (acc : gmap string Z),
    (let loc := getAttribLocation (String.append "a_" name) in
     if (loc <? 0)%Z then Raise (Error (msgA name))
     else Ok (<[name := loc]> acc))
    = match findA name with
      | Some loc => Ok (<[name := loc]> acc)
      | None => Raise (Error (msgA name))
      end).
  { intros name acc. unfold findA. cbv zeta. by destruct (_ <? 0)%Z. }
  assert (HU : ∀ name (acc : gmap string L),
    match getUniformLocation (String.append "u_" name) with
    | None => Raise (Error (msgU name))
    | Some loc => Ok (<[name := loc]> acc)
    end
    = match findU name with
      | Some loc => Ok (<[name := loc]> acc)
      | None => Raise (Error (msgU name))
      end).
  { intros name acc. unfold findU. by destruct (getUniformLocation _). }
  assert (HfoundA : ∀ l,
    Forall (fun name => 0 <= getAttribLocation (String.append "a_" name))%Z l
    ↔ Forall (fun name => is_Some (findA name)) l).
  { intros l. apply Forall_proper; [|done]. intros name. unfold findA.
    cbv zeta. destruct (Z.ltb_spec (getAttribLocation (String.append "a_" name)) 0).
    - split; [lia|]. by intros [? ?].
    - split; [by eexists|done]. }
  split_and!.
  - split.
    + intros [m Hm]. apply HfoundA. by apply (collect_Ok findA msgA _ HA _ ∅ m).
    + intros Hall. apply HfoundA in Hall.
      destruct (collect_found findA msgA _ HA names ∅ Hall) as (m & Hm & _).
      by exists m.
  - intros m Hm k.
    pose proof (collect_Ok findA msgA _ HA _ ∅ m Hm) as Hall.
    destruct (collect_found findA msgA _ HA names ∅ Hall) as (m' & Hm' & Hk).
    assert (Heq : Ok m' = Ok m) by exact (eq_trans (eq_sym Hm') Hm).
    injection Heq as ->.
    rewrite Hk. destruct (decide (k ∈ names)) as [Hin|]; [|done].
    rewrite Forall_forall in Hall. destruct (Hall k Hin) as [v Hv].
    rewrite Hv. unfold findA in Hv. cbv zeta in Hv.
    by destruct (_ <? 0)%Z.
  - intros pre name post -> Hpre Hname. apply HfoundA in Hpre.
    apply (collect_missing findA msgA _ HA); [done|].
    unfold findA. cbv zeta.
    by destruct (Z.ltb_spec (getAttribLocation (String.append "a_" name)) 0);
      [|lia].
  - split.
    + intros [m Hm]. by apply (collect_Ok findU msgU _ HU _ ∅ m).
    + intros Hall.
      destruct (collect_found findU msgU _ HU names ∅ Hall) as (m & Hm & _).
      by exists m.
  - intros m Hm k.
    pose proof (collect_Ok findU msgU _ HU _ ∅ m Hm) as Hall.
    destruct (collect_found findU msgU _ HU names ∅ Hall) as (m' & Hm' & Hk).
    assert (Heq : Ok m' = Ok m) by exact (eq_trans (eq_sym Hm') Hm).
    injection Heq as ->.
    rewrite Hk. by destruct (decide (k ∈ names)).
  - intros pre name post -> Hpre Hname.
    by apply (collect_missing findU msgU _ HU).
Qed.

(** ** legacygl.ts: saving and restoring a uniform *)

Section UniformStack.
Context {A : Type}.
Implicit Types (s : Uniform.state A) (calls : list (Uniform.call A)).

Lemma uniform_run_app calls1 calls2 s :
  Uniform.run (calls1 ++ calls2) s
  = let* s' := Uniform.run calls1 s in Uniform.run calls2 s'.
Proof.
  revert s. induction calls1 as [|c calls1 IH]; intros s; [done|].
  cbn [app Uniform.run]. destruct (Uniform.step c s) as [s'|e]; [|done].
  cbn [bind]. apply IH.
Qed.

Lemma uniform_push_run s :
  Uniform.valid s →
  ∃ a, Uniform.contents s = Some a
       ∧ Uniform.push s
         = Ok (Uniform.State (Uniform.store s ++ [a]) (Uniform._value s)
                 (Uniform.stack s ++ [length (Uniform.store s)]))
       ∧ Uniform.valid
           (Uniform.State (Uniform.store s ++ [a]) (Uniform._value s)
              (Uniform.stack s ++ [length (Uniform.store s)])).
Proof.
  intros (Hv & Hnd & Hnin & Hall).
  destruct (lookup_lt_is_Some_2 _ _ Hv) as [a Ha]. exists a.
  split; [done|]. split.
  { unfold Uniform.push, Uniform.copy. by rewrite (get_Ok _ _ a Ha). }
  unfold Uniform.valid. cbn. rewrite length_app. cbn.
  rewrite Forall_forall in Hall. split_and!.
  - lia.
  - apply NoDup_app. split_and!; [done| |apply NoDup_singleton].
    intros l Hl ->%list_elem_of_singleton. specialize (Hall _ Hl). lia.
  - intros [Hin|Heq%list_elem_of_singleton]%elem_of_app; [done|lia].
  - apply Forall_app. split.
    + apply Forall_forall. intros l Hl. specialize (Hall _ Hl). lia.
    + apply Forall_singleton. lia.
Qed.

Lemma uniform_pop_run (st : list A) (v c : nat) (stk : list nat) :
  Uniform.valid (Uniform.State st v (stk ++ [c])) →
  Uniform.pop (Uniform.State st v (stk ++ [c])) = Ok (Uniform.State st c stk)
  ∧ Uniform.valid (Uniform.State st c stk).
Proof.
  intros (Hv & Hnd & Hnin & Hall). cbn in *. split.
  - unfold Uniform.pop. cbn. rewrite last_snoc, length_app. cbn.
    by rewrite Nat.add_sub, take_app_length.
  - apply NoDup_app in Hnd as (Hnd & Hdisj & _).
    apply Forall_app in Hall as [Hall Hc]. rewrite Forall_singleton in Hc.
    unfold Uniform.valid. cbn. split_and!; try done.
    intros Hin. apply (Hdisj c Hin). by apply list_elem_of_singleton.
Qed.

Lemma uniform_update_run f s :
  Uniform.valid s →
  ∃ a, Uniform.contents s = Some a
       ∧ Uniform.update f s
         = Ok (Uniform.State (<[Uniform._value s := f a]> (Uniform.store s))
                 (Uniform._value s) (Uniform.stack s))
       ∧ Uniform.valid
           (Uniform.State (<[Uniform._value s := f a]> (Uniform.store s))
              (Uniform._value s) (Uniform.stack s)).
Proof.
  intros (Hv & Hnd & Hnin & Hall).
  destruct (lookup_lt_is_Some_2 _ _ Hv) as [a Ha]. exists a.
  split; [done|]. split.
  { unfold Uniform.update, Uniform.value. by rewrite (get_Ok _ _ a Ha). }
  unfold Uniform.valid. cbn. by rewrite length_insert.
Qed.

(** Answered calls leave the stack and the saved copies as they were. *)
Lemma uniform_neutral_run calls :
  Uniform.neutral calls → ∀ s,
  Uniform.valid s →
  ∃ s', Uniform.run calls s = Ok s' ∧ Uniform.valid s'
        ∧ Uniform.stack s' = Uniform.stack s
        ∧ length (Uniform.store s) ≤ length (Uniform.store s')
        ∧ ∀ l, l ∈ Uniform.stack s →
               Uniform.store s' !! l = Uniform.store s !! l.
Proof.
  induction 1 as [|f calls Hcalls IH|inner rest Hinner IHinner Hrest IHrest];
    intros s Hs.
  - exists s. by split_and!.
  - destruct (uniform_update_run f s Hs) as (a & Ha & Hrun & Hs1).
    destruct (IH _ Hs1) as (s' & Hrun' & Hs' & Hstk & Hlen & Hkeep).
    cbn in Hstk, Hlen, Hkeep. rewrite length_insert in Hlen.
    exists s'. split_and!; try done.
    + cbn [Uniform.run Uniform.step]. by rewrite Hrun.
    + intros l Hl. rewrite (Hkeep l Hl). apply list_lookup_insert_ne.
      destruct Hs as (_ & _ & Hnin & _). intros Heq. apply Hnin.
      by rewrite Heq.
  - destruct (uniform_push_run s Hs) as (a & Ha & Hpush & Hs1).
    destruct (IHinner _ Hs1) as (s2 & Hrun2 & Hs2 & Hstk2 & Hlen2 & Hkeep2).
    cbn in Hstk2, Hlen2, Hkeep2. rewrite length_app in Hlen2. cbn in Hlen2.
    destruct s2 as [st2 v2 stk2]. cbn in Hstk2, Hlen2, Hkeep2. subst stk2.
    destruct (uniform_pop_run _ _ _ _ Hs2) as [Hpop Hs3].
    destruct (IHrest _ Hs3) as (s4 & Hrun4 & Hs4 & Hstk4 & Hlen4 & Hkeep4).
    cbn in Hstk4, Hlen4, Hkeep4.
    exists s4. split_and!; try done.
    + cbn [Uniform.run Uniform.step]. rewrite Hpush. cbn [bind].
      rewrite uniform_run_app, Hrun2. cbn [bind Uniform.run Uniform.step].
      by rewrite Hpop.
    + lia.
    + intros l Hl. rewrite (Hkeep4 l Hl), Hkeep2.
      * apply lookup_app_l. destruct Hs as (_ & _ & _ & Hall).
        rewrite Forall_forall in Hall. by apply Hall.
      * apply elem_of_app. by left.
Qed.
End UniformStack.

(** X13: [push()] and [pop()] of a uniform save and restore its value.
    After [push()], any changes in place of the value and any further
    answered pushes and pops, [pop()] succeeds: the value holds again what
    it held at the push, the stack is what it was, and [value] is another
    object than before, the copy made by the push.  The same calls run on
    a new uniform without the first [push()] end in the error of an empty
    stack. *)
Theorem uniform_push_pop_restores {A : Type} (s : Uniform.state A)
    (calls : list (Uniform.call A)) :
  Uniform.valid s → Uniform.neutral calls →
  (∃ s', Uniform.run (Uniform.Push :: calls ++ [Uniform.Pop]) s = Ok s'
         ∧ Uniform.contents s' = Uniform.contents s
         ∧ Uniform.stack s' = Uniform.stack s
         ∧ Uniform.value s' = length (Uniform.store s)
         ∧ Uniform.value s' ≠ Uniform.value s
         ∧ Uniform.valid s')
  ∧ ∀ a, Uniform.run (calls ++ [Uniform.Pop]) (Uniform.create a)
         = Raise (Error "Stack underflow").
Proof.
  intros Hs Hcalls. split.
  - destruct (uniform_push_run s Hs) as (a & Ha & Hpush & Hs1).
    destruct (uniform_neutral_run calls Hcalls _ Hs1)
      as (s2 & Hrun2 & Hs2 & Hstk2 & Hlen2 & Hkeep2).
    cbn in Hstk2, Hlen2, Hkeep2.
    destruct s2 as [st2 v2 stk2]. cbn in Hstk2, Hlen2, Hkeep2. subst stk2.
    destruct (uniform_pop_run _ _ _ _ Hs2) as [Hpop Hs3].
    exists (Uniform.State st2 (length (Uniform.store s)) (Uniform.stack s)).
    split_and!; try done.
    + cbn [Uniform.run Uniform.step]. rewrite Hpush. cbn [bind].
      rewrite uniform_run_app, Hrun2. cbn [bind Uniform.run Uniform.step].
      by rewrite Hpop.
    + rewrite Ha. unfold Uniform.contents, Uniform.value. cbn.
      rewrite Hkeep2.
      * by rewrite lookup_app_r, Nat.sub_diag by lia.
      * apply elem_of_app. right. by apply list_elem_of_singleton.
    + unfold Uniform.value. cbn. destruct Hs as (Hv & _). lia.
  - intros a.
    assert (Hinit : Uniform.valid (Uniform.create a)).
    { unfold Uniform.valid, Uniform.create. cbn.
      split_and!; [lia|constructor|apply not_elem_of_nil|constructor]. }
    destruct (uniform_neutral_run calls Hcalls _ Hinit)
      as (s' & Hrun & _ & Hstk & _).
    rewrite uniform_run_app, Hrun. cbn [bind Uniform.run Uniform.step].
    unfold Uniform.pop. by rewrite Hstk.
Qed.

Lemma uniform_push_pop_restores_witness :
  (∃ s', Uniform.run
           (Uniform.Push
            :: [Uniform.Update (fun p => vec3.lerp p (Vec3 4 0 0) 0.5);
                Uniform.Push; Uniform.Update vec3.clone; Uniform.Pop]
               ++ [Uniform.Pop])
           (Uniform.create (Vec3 1 2 0)) = Ok s'
         ∧ Uniform.contents s' = Uniform.contents (Uniform.create (Vec3 1 2 0))
         ∧ Uniform.stack s' = Uniform.stack (Uniform.create (Vec3 1 2 0))
         ∧ Uniform.value s'
           = length (Uniform.store (Uniform.create (Vec3 1 2 0)))
         ∧ Uniform.value s' ≠ Uniform.value (Uniform.create (Vec3 1 2 0))
         ∧ Uniform.valid s')
  ∧ ∀ a : vec3,
      Uniform.run
        ([Uniform.Update (fun p => vec3.lerp p (Vec3 4 0 0) 0.5);
          Uniform.Push; Uniform.Update vec3.clone; Uniform.Pop]
         ++ [Uniform.Pop])
        (Uniform.create a)
      = Raise (Error "Stack underflow").
Proof.
  apply (uniform_push_pop_restores (Uniform.create (Vec3 1 2 0))
           [Uniform.Update (fun p => vec3.lerp p (Vec3 4 0 0) 0.5);
            Uniform.Push; Uniform.Update vec3.clone; Uniform.Pop]).
  - unfold Uniform.valid, Uniform.create. simpl.
    split; [lia|]. split; [constructor|].
    split; [apply not_elem_of_nil|constructor].
  - apply Uniform.neutral_update.
    apply (Uniform.neutral_bracket [Uniform.Update vec3.clone] []).
    + apply Uniform.neutral_update, Uniform.neutral_nil.
    + apply Uniform.neutral_nil.
Defined.

(** ** Which objects [adaptiveSubdivision] returns *)

Lemma heap_get_run {A : Type} (l : list A) (i : nat) (a : A) (h : Heap.heap) :
  l !! i = Some a → Heap.get l i h = Ok (a, h).
Proof. intros Ha. unfold Heap.get, Heap.lift, get. by rewrite Ha. Qed.

Lemma heap_polygon_run h top vtop :
  points_to h top vtop →
  Heap.for_loop 0 (length top - 1) (Heap.add_dist top) 0%R h
  = Ok (polygon_length vtop, h).
Proof.
  intros Htop.
  pose proof (polygon_loop_sim h top vtop (length top - 1) 0 0%R Htop) as Hsim.
  rewrite (points_to_length _ _ _ Htop) in Hsim at 2.
  rewrite add_dist_loop in Hsim.
  destruct Hsim as (lp & h' & Hrun & -> & ->). done.
Qed.

(** X14: the samples [adaptiveSubdivision] returns are not all new
    objects.  For two control points it returns a copy of each.  For three
    or more control points that are flat within the tolerance it returns
    two samples, a copy of the first control point and the last control
    point itself: the object the caller passed, not a copy. *)
Theorem adaptiveSubdivision_shares_last_point (h : Heap.heap)
    (ps : list Heap.loc) (vs : list vec3) (fuel : nat) :
  points_to h ps vs →
  (length vs = 2 →
   Heap.adaptiveSubdivision fuel ps h
   = Ok ([length h; S (length h)], h ++ vs))
  ∧ (3 ≤ length vs → (gravesen_error vs <= 1e-5)%R →
     ∃ a z, head vs = Some a ∧ last ps = Some z ∧ z < length h
            ∧ Heap.adaptiveSubdivision (S fuel) ps h
              = Ok ([length h; z], h ++ [a])).
Proof.
  intros Hps. pose proof (points_to_length _ _ _ Hps) as Hlen. split.
  - intros H2. unfold Heap.adaptiveSubdivision. rewrite Hlen, H2. cbn.
    by rewrite (map_clone_run ps vs h Hps), H2.
  - intros H3 Hflat.
    destruct (head_last_exist vs) as (a & vz & Ha & Hvz); [lia|].
    destruct (last ps) as [z|] eqn:Hz.
    2:{ apply last_None in Hz. subst ps. simpl in Hlen. lia. }
    assert (Hzv : h !! z = Some vz).
    { rewrite last_lookup in Hz. rewrite last_lookup in Hvz.
      destruct (Forall2_lookup_l _ _ _ _ _ Hps Hz) as (vz' & Hvz' & Hat).
      rewrite Hlen in Hvz'. congruence. }
    rewrite head_lookup in Ha.
    destruct (Forall2_lookup_r _ _ _ _ _ Hps Ha) as (f & Hf & Hfv).
    assert (Hzl : ps !! (length ps - 1) = Some z)
      by (by rewrite Nat.sub_1_r, <- last_lookup).
    exists a, z. split; [by rewrite head_lookup|]. split; [done|].
    split; [by apply lookup_lt_Some in Hzv|].
    assert (Hps' : points_to (h ++ [a]) ps vs) by (by apply points_to_app).
    unfold Heap.adaptiveSubdivision.
    destruct (Nat.ltb_spec (length ps) 2) as [|_]; [lia|].
    destruct (Nat.eqb_spec (length ps) 2) as [|_]; [lia|].
    unfold Heap.bind at 1. rewrite (heap_get_run ps 0 f h) by done.
    unfold Heap.bind at 1. rewrite (clone_run h f a Hfv).
    unfold Heap.bind at 1. cbn [Heap.while_loop Heap.stack length Nat.ltb Nat.leb].
    unfold Heap.bind at 1. unfold Heap.subdivide_body at 1.
    cbn [Heap.stack Heap.out length Nat.sub].
    unfold Heap.bind at 1. rewrite (heap_get_run [ps] 0 ps _) by done.
    destruct (Nat.ltb_spec (length ps) 2) as [|_]; [lia|].
    destruct (Nat.eqb_spec (length ps) 2) as [|_]; [lia|].
    unfold Heap.bind at 1.
    rewrite (heap_get_run ps (length ps - 1) z _) by done.
    unfold Heap.bind at 1. rewrite (heap_polygon_run _ ps vs Hps').
    unfold Heap.bind at 1. rewrite (heap_get_run ps 0 f _) by done.
    unfold Heap.bind at 1.
    rewrite (dist_run (h ++ [a]) f z a vz)
      by (apply lookup_app_l_Some; done).
    assert (Herr : ((INR (length ps) - 1 - 1) / (INR (length ps) - 1 + 1)
                    * (polygon_length vs - vec3.dist a vz))%R
                   = gravesen_error vs).
    { unfold gravesen_error, chord_length.
      by rewrite Hlen, head_lookup, Ha, Hvz. }
    rewrite Herr. destruct (Rgt_dec (gravesen_error vs) 1e-5) as [Hgt|_].
    { exfalso. apply Rgt_not_le in Hgt. done. }
    unfold Heap.ret. cbn [pop length Nat.sub take push app].
    by destruct fuel.
Qed.

Lemma flat_three_estimate :
  (gravesen_error [Vec3 0 0 0; Vec3 1 0 0; Vec3 2 0 0] <= 1e-5)%R.
Proof.
  assert (H1 : sqrt ((1 - 0) * (1 - 0) + (0 - 0) * (0 - 0)
                     + (0 - 0) * (0 - 0)) = 1%R).
  { replace ((1 - 0) * (1 - 0) + (0 - 0) * (0 - 0) + (0 - 0) * (0 - 0))%R
      with 1%R by lra. apply sqrt_1. }
  assert (H1' : sqrt ((2 - 1) * (2 - 1) + (0 - 0) * (0 - 0)
                      + (0 - 0) * (0 - 0)) = 1%R).
  { replace ((2 - 1) * (2 - 1) + (0 - 0) * (0 - 0) + (0 - 0) * (0 - 0))%R
      with 1%R by lra. apply sqrt_1. }
  assert (H2 : sqrt ((2 - 0) * (2 - 0) + (0 - 0) * (0 - 0)
                     + (0 - 0) * (0 - 0)) = 2%R).
  { replace ((2 - 0) * (2 - 0) + (0 - 0) * (0 - 0) + (0 - 0) * (0 - 0))%R
      with (Rsqr 2) by (unfold Rsqr; lra). apply sqrt_Rsqr. lra. }
  unfold gravesen_error, polygon_length, chord_length, vec3.dist.
  cbn [head last length c0 c1 c2]. rewrite H1, H1', H2.
  replace (1 + (1 + 0) - 2)%R with 0%R by lra. rewrite Rmult_0_r. lra.
Qed.

Lemma adaptiveSubdivision_shares_last_point_witness :
  Heap.adaptiveSubdivision 5 [0; 1] [Vec3 0 0 0; Vec3 1 2 0]
  = Ok ([2; 3], [Vec3 0 0 0; Vec3 1 2 0] ++ [Vec3 0 0 0; Vec3 1 2 0])
  ∧ ∃ a z,
      head [Vec3 0 0 0; Vec3 1 0 0; Vec3 2 0 0] = Some a
      ∧ last [0; 1; 2] = Some z
      ∧ z < 3
      ∧ Heap.adaptiveSubdivision 6 [0; 1; 2]
          [Vec3 0 0 0; Vec3 1 0 0; Vec3 2 0 0]
        = Ok ([3; z], [Vec3 0 0 0; Vec3 1 0 0; Vec3 2 0 0] ++ [a]).
Proof.
  split.
  - apply (adaptiveSubdivision_shares_last_point
             [Vec3 0 0 0; Vec3 1 2 0] [0; 1] [Vec3 0 0 0; Vec3 1 2 0] 5).
    + unfold points_to. by repeat constructor.
    + reflexivity.
  - apply (adaptiveSubdivision_shares_last_point
             [Vec3 0 0 0; Vec3 1 0 0; Vec3 2 0 0] [0; 1; 2]
             [Vec3 0 0 0; Vec3 1 0 0; Vec3 2 0 0] 5).
    + unfold points_to. by repeat constructor.
    + simpl. lia.
    + exact flat_three_estimate.
Defined.

(** ** legacygl.ts: quads drawn as triangles *)

Section Quads.
Import LegacyGL.

Lemma mod_18 n r : r < 18 → (18 * n + r) mod 18 = r.
Proof.
  intros Hr. rewrite Nat.add_comm, Nat.mul_comm, Nat.Div0.mod_add.
  by apply Nat.mod_small.
Qed.

Lemma div_3 n : (18 * n + 12) / 3 - 4 = 6 * n.
Proof.
  replace (18 * n + 12) with (12 + 6 * n * 3) by lia.
  rewrite Nat.div_add by done. change (12 / 3) with 4. lia.
Qed.

Lemma foldl_push_length {A : Type} (f : list A → nat → A) (l : list A)
    (js : list nat) :
  length (foldl (fun arr j => arr ++ [f arr j]) l js) = length l + length js.
Proof.
  revert l. induction js as [|j js IH]; intros l; simpl; [lia|].
  rewrite IH, length_app. simpl. lia.
Qed.

Lemma push_value_length value va :
  length (array (push_value value va)) = length (array va) + size va.
Proof.
  unfold push_value. cbn [array].
  by rewrite (foldl_push_length (fun _ j => value !! j)), length_seq.
Qed.

Lemma push_copy_length v va :
  length (array (push_copy v va)) = length (array va) + size va.
Proof.
  unfold push_copy. cbn [array].
  by rewrite (foldl_push_length
                (fun arr j => default None (arr !! (size va * v + j)))),
    length_seq.
Qed.

Lemma push_value_3 x y z va :
  size va = 3 →
  array (push_value [x; y; z] va) = array va ++ [Some x; Some y; Some z].
Proof.
  intros H3. unfold push_value. cbn [array]. rewrite H3. cbn.
  by rewrite <- !app_assoc.
Qed.

Lemma push_copy_3 v va (pre post : list (option R)) e0 e1 e2 :
  size va = 3 → array va = pre ++ [e0; e1; e2] ++ post →
  length pre = 3 * v →
  array (push_copy v va) = array va ++ [e0; e1; e2].
Proof.
  intros H3 Harr Hpre. unfold push_copy. cbn [array]. rewrite H3.
  cbn [seq foldl]. rewrite Harr.
  assert (Hat : ∀ j e,
    [e0; e1; e2] !! j = Some e →
    (pre ++ [e0; e1; e2] ++ post) !! (3 * v + j) = Some e).
  { intros j e Hj. rewrite lookup_app_r by lia.
    replace (3 * v + j - length pre) with j by lia.
    by apply lookup_app_l_Some. }
  rewrite (Hat 0 e0) by done. cbn [default].
  rewrite (lookup_app_l_Some _ _ _ _ (Hat 1 e1 eq_refl)). cbn [default].
  rewrite (lookup_app_l_Some _ _ _ _
             (lookup_app_l_Some _ [e0] _ _ (Hat 2 e2 eq_refl))).
  cbn [default]. by rewrite <- !app_assoc.
Qed.

Lemma vertex_plain x y z attrs first :
  head ((fun va => push_value (vertex_value x y z va) va) <$> attrs)
  = Some first →
  length (array first) mod 18 ≠ 12 →
  vertex x y z (State attrs QUADS)
  = Ok (State ((fun va => push_value (vertex_value x y z va) va) <$> attrs)
          QUADS).
Proof.
  intros Hfirst Hmod. unfold vertex. cbn [vertex_attributes mode].
  rewrite head_lookup in Hfirst. rewrite (get_Ok _ _ _ Hfirst). cbn [bind].
  destruct (Nat.eqb_spec (length (array first) mod 18) 12); [done|].
  by rewrite andb_false_r.
Qed.

Lemma vertex_fourth x y z attrs first n :
  head ((fun va => push_value (vertex_value x y z va) va) <$> attrs)
  = Some first →
  length (array first) = 18 * n + 12 →
  vertex x y z (State attrs QUADS)
  = Ok (State (push_copy (6 * n + 2)
               <$> (push_copy (6 * n + 0)
                    <$> ((fun va => push_value (vertex_value x y z va) va)
                         <$> attrs)))
          QUADS).
Proof.
  intros Hfirst Hlen. unfold vertex. cbn [vertex_attributes mode].
  rewrite head_lookup in Hfirst. rewrite (get_Ok _ _ _ Hfirst). cbn [bind].
  rewrite Hlen, mod_18, div_3 by lia. done.
Qed.

Lemma quad_run q n va0 rest :
  size va0 = 3 → length (array va0) = 18 * n →
  vertices (corners q) (State (va0 :: rest) QUADS)
  = Ok (State (quad_step q n <$> (va0 :: rest)) QUADS).
Proof.
  intros H3 Hlen. destruct q as [[[a b] c] d].
  unfold vertices, corners. cbn [for_of].
  set (pv := fun (p : vec3) va =>
               push_value (vertex_value (c0 p) (c1 p) (c2 p) va) va).
  assert (Hsize : ∀ p va, size (pv p va) = size va) by done.
  assert (Hlen1 : ∀ p va, length (array (pv p va)) = length (array va) + size va).
  { intros p va. apply push_value_length. }
  rewrite (vertex_plain _ _ _ _ (pv a va0)); [|done|].
  2:{ rewrite Hlen1, H3, Hlen, mod_18; lia. }
  cbn [bind]. fold (pv a). rewrite fmap_cons.
  rewrite (vertex_plain _ _ _ _ (pv b (pv a va0))); [|done|].
  2:{ rewrite !Hlen1, !Hsize, H3, Hlen.
      replace (18 * n + 3 + 3) with (18 * n + 6) by lia.
      rewrite mod_18; lia. }
  cbn [bind]. fold (pv b). rewrite fmap_cons.
  rewrite (vertex_plain _ _ _ _ (pv c (pv b (pv a va0)))); [|done|].
  2:{ rewrite !Hlen1, !Hsize, H3, Hlen.
      replace (18 * n + 3 + 3 + 3) with (18 * n + 9) by lia.
      rewrite mod_18; lia. }
  cbn [bind]. fold (pv c). rewrite fmap_cons.
  rewrite (vertex_fourth _ _ _ _ (pv d (pv c (pv b (pv a va0)))) n); [|done|].
  2:{ rewrite !Hlen1, !Hsize, H3, Hlen. lia. }
  cbn [bind]. fold (pv d). f_equal. f_equal.
  rewrite <- !fmap_cons, <- !list_fmap_compose. done.
Qed.

Lemma quad_step_static q n va :
  name (quad_step q n va) = name va ∧ size (quad_step q n va) = size va
  ∧ current (quad_step q n va) = current va
  ∧ location (quad_step q n va) = location va
  ∧ length (array (quad_step q n va)) = length (array va) + size va * 6.
Proof.
  destruct q as [[[a b] c] d]. unfold quad_step. split_and!; try done.
  rewrite !push_copy_length, !push_value_length. cbn [size push_copy push_value].
  lia.
Qed.

Lemma quad_step_vertex q n va :
  name va = "vertex"%string → size va = 3 → length (array va) = 18 * n →
  array (quad_step q n va)
  = array va ++ (Some <$> flat_map components (triangles q)).
Proof.
  intros Hname H3 Hlen. destruct q as [[[a b] c] d].
  set (pv := fun (p : vec3) va =>
               push_value (vertex_value (c0 p) (c1 p) (c2 p) va) va).
  change (quad_step (a, b, c, d) n va)
    with (push_copy (6 * n + 2)
            (push_copy (6 * n + 0) (pv d (pv c (pv b (pv a va)))))).
  unfold triangles.
  assert (Hpv : ∀ p va', name va' = "vertex"%string → size va' = 3 →
    array (pv p va') = array va' ++ (Some <$> components p)).
  { intros p va' Hn Hs. unfold pv, vertex_value. rewrite Hn. cbn [String.eqb].
    simpl. by apply push_value_3. }
  assert (Harr : array (pv d (pv c (pv b (pv a va))))
    = array va ++ (Some <$> components a) ++ (Some <$> components b)
      ++ (Some <$> components c) ++ (Some <$> components d)).
  { rewrite !Hpv by done. by rewrite <- !app_assoc. }
  set (va4 := pv d (pv c (pv b (pv a va)))) in *.
  assert (Hcopy0 : array (push_copy (6 * n + 0) va4)
                   = array va4 ++ (Some <$> components a)).
  { apply (push_copy_3 _ va4 (array va)
             ((Some <$> components b) ++ (Some <$> components c)
              ++ (Some <$> components d))); [done|by rewrite Harr|lia]. }
  rewrite (push_copy_3 (6 * n + 2) (push_copy (6 * n + 0) va4)
             (array va ++ (Some <$> components a) ++ (Some <$> components b))
             ((Some <$> components d) ++ (Some <$> components a))
             (Some (c0 c)) (Some (c1 c)) (Some (c2 c))); [|done| |].
  - rewrite Hcopy0, Harr. cbn [flat_map components app fmap list_fmap].
    by rewrite <- !app_assoc.
  - rewrite Hcopy0, Harr. cbn [components app fmap list_fmap].
    by rewrite <- !app_assoc.
  - rewrite !length_app, Hlen. cbn. lia.
Qed.

Lemma quads_run quads : ∀ n va0 rest,
  name va0 = "vertex"%string → size va0 = 3 → length (array va0) = 18 * n →
  ∃ va0' rest',
    vertices (flat_map corners quads) (State (va0 :: rest) QUADS)
    = Ok (State (va0' :: rest') QUADS)
    ∧ array va0' = array va0 ++ (Some <$> flat_map components
                                            (flat_map triangles quads))
    ∧ Forall2 (fun va va' =>
                 name va' = name va ∧ size va' = size va
                 ∧ current va' = current va ∧ location va' = location va
                 ∧ length (array va')
                   = length (array va) + size va * (6 * length quads))
        (va0 :: rest) (va0' :: rest').
Proof.
  induction quads as [|q quads IH]; intros n va0 rest Hname H3 Hlen.
  - exists va0, rest. split; [done|]. split; [by rewrite app_nil_r|].
    apply Forall_Forall2_diag, Forall_forall. intros va _.
    split_and!; try done. cbn. lia.
  - destruct (quad_step_static q n va0) as (Hn1 & Hs1 & _ & _ & Hl1).
    destruct (IH (S n) (quad_step q n va0) (quad_step q n <$> rest))
      as (va0' & rest' & Hrun & Harr & Hall).
    { by rewrite Hn1. } { by rewrite Hs1. } { rewrite Hl1, H3, Hlen. lia. }
    exists va0', rest'. split; [|split].
    + unfold vertices in *. cbn [flat_map].
      assert (Happ : ∀ (l1 l2 : list vec3) g,
        for_of (l1 ++ l2) (fun p g => vertex (c0 p) (c1 p) (c2 p) g) g
        = let* g' := for_of l1 (fun p g => vertex (c0 p) (c1 p) (c2 p) g) g in
          for_of l2 (fun p g => vertex (c0 p) (c1 p) (c2 p) g) g').
      { induction l1 as [|p l1 IH1]; intros l2 g; [done|].
        cbn [app for_of]. destruct (vertex _ _ _ g); [|done]. apply IH1. }
      rewrite Happ. fold (vertices (corners q) (State (va0 :: rest) QUADS)).
      rewrite (quad_run q n va0 rest H3 Hlen). cbn [bind].
      by rewrite fmap_cons.
    + rewrite Harr, (quad_step_vertex q n va0) by done.
      cbn [flat_map]. by rewrite flat_map_app, fmap_app, <- app_assoc.
    + rewrite <- fmap_cons in Hall. apply Forall2_fmap_l in Hall.
      eapply Forall2_impl; [exact Hall|]. cbn.
      intros va va' (F1 & F2 & F3 & F4 & F5).
      destruct (quad_step_static q n va) as (E1 & E2 & E3 & E4 & E5).
      split_and!; try congruence. rewrite F5, E5, E2. lia.
Qed.
End Quads.

Lemma vertices_other_mode (m : Z) (ps : list vec3) :
  m ≠ LegacyGL.QUADS → ∀ va0 rest,
  LegacyGL.name va0 = "vertex"%string → LegacyGL.size va0 = 3 →
  ∃ va0' rest',
    LegacyGL.vertices ps (LegacyGL.State (va0 :: rest) m)
    = Ok (LegacyGL.State (va0' :: rest') m)
    ∧ LegacyGL.name va0' = "vertex"%string ∧ LegacyGL.size va0' = 3
    ∧ LegacyGL.array va0'
      = LegacyGL.array va0 ++ (Some <$> flat_map components ps).
Proof.
  intros Hm. induction ps as [|p ps IH]; intros va0 rest Hname H3.
  - exists va0, rest. by rewrite app_nil_r.
  - set (pv := fun va =>
                 LegacyGL.push_value
                   (LegacyGL.vertex_value (c0 p) (c1 p) (c2 p) va) va).
    destruct (IH (pv va0) (pv <$> rest)) as (va0' & rest' & Hrun & Hn & Hs & Ha);
      [done..|].
    exists va0', rest'. split; [|split; [done|split; [done|]]].
    + unfold LegacyGL.vertices in *. cbn [for_of].
      unfold LegacyGL.vertex at 1.
      cbn [LegacyGL.vertex_attributes LegacyGL.mode fmap list_fmap get
           lookup list_lookup bind].
      destruct (Z.eqb_spec m LegacyGL.QUADS) as [|_]; [done|].
      cbn [andb bind]. exact Hrun.
    + assert (Hpv : LegacyGL.array (pv va0)
                      = LegacyGL.array va0 ++ (Some <$> components p)).
      { unfold pv, LegacyGL.vertex_value. rewrite Hname.
        by apply push_value_3. }
      rewrite Ha, Hpv. cbn [flat_map]. by rewrite fmap_app, <- app_assoc.
Qed.

(** X15: [LegacyGL] draws quads as triangles.  When the first vertex
    attribute is the position, named [vertex] and of size 3, then after
    [begin(QUADS)] and the four calls of [vertex] for each quad
    [(a, b, c, d)] the position array holds, for every quad in order, the
    six vertices [a, b, c, d, a, c], and the array of every attribute has
    grown by six values a quad; the calls never fail.  After [begin] with
    another mode the position array holds the vertices as they were
    passed. *)
Theorem quads_as_triangles (g : LegacyGL.state)
    (va0 : LegacyGL.vertex_attribute) (rest : list LegacyGL.vertex_attribute)
    (quads : list (vec3 * vec3 * vec3 * vec3)) (ps : list vec3) (m : Z) :
  LegacyGL.vertex_attributes g = va0 :: rest →
  LegacyGL.name va0 = "vertex"%string → LegacyGL.size va0 = 3 →
  (∃ va0' rest',
     LegacyGL.vertices (flat_map LegacyGL.corners quads)
       (LegacyGL.begin LegacyGL.QUADS g)
     = Ok (LegacyGL.State (va0' :: rest') LegacyGL.QUADS)
     ∧ LegacyGL.array va0'
       = (Some <$> flat_map components (flat_map LegacyGL.triangles quads))
     ∧ Forall2 (fun va va' =>
                  LegacyGL.name va' = LegacyGL.name va
                  ∧ LegacyGL.size va' = LegacyGL.size va
                  ∧ LegacyGL.current va' = LegacyGL.current va
                  ∧ LegacyGL.location va' = LegacyGL.location va
                  ∧ length (LegacyGL.array va')
                    = LegacyGL.size va * (6 * length quads))
         (va0 :: rest) (va0' :: rest'))
  ∧ (m ≠ LegacyGL.QUADS →
     ∃ va0' rest',
       LegacyGL.vertices ps (LegacyGL.begin m g)
       = Ok (LegacyGL.State (va0' :: rest') m)
       ∧ LegacyGL.array va0' = (Some <$> flat_map components ps)).
Proof.
  intros Hattrs Hname H3. split.
  - set (reset := fun va =>
           LegacyGL.VertexAttribute (LegacyGL.name va) (LegacyGL.size va)
             (LegacyGL.current va) (LegacyGL.location va) []).
    destruct (quads_run quads 0 (reset va0) (reset <$> rest))
      as (va0' & rest' & Hrun & Harr & Hall); [done..|].
    exists va0', rest'. split; [|split].
    + unfold LegacyGL.begin. by rewrite Hattrs, fmap_cons.
    + by rewrite Harr.
    + rewrite <- fmap_cons in Hall. apply Forall2_fmap_l in Hall.
      eapply Forall2_impl; [exact Hall|]. cbn. intros va va' H. exact H.
  - intros Hm.
    destruct (vertices_other_mode m ps Hm
                (LegacyGL.VertexAttribute (LegacyGL.name va0)
                   (LegacyGL.size va0) (LegacyGL.current va0)
                   (LegacyGL.location va0) [])
                ((fun va =>
                    LegacyGL.VertexAttribute (LegacyGL.name va)
                      (LegacyGL.size va) (LegacyGL.current va)
                      (LegacyGL.location va) []) <$> rest))
      as (va0' & rest' & Hrun & _ & _ & Harr); [done..|].
    exists va0', rest'. split; [|done].
    unfold LegacyGL.begin. by rewrite Hattrs, fmap_cons.
Qed.

Lemma quads_as_triangles_witness :
  (∃ va0' rest',
     LegacyGL.vertices
       (flat_map LegacyGL.corners
          [(Vec3 0 0 0, Vec3 1 0 0, Vec3 1 1 0, Vec3 0 1 0)])
       (LegacyGL.begin LegacyGL.QUADS
          (LegacyGL.add_vertex_attribute 1 "color" 4
             (LegacyGL.add_vertex_attribute 0 "vertex" 3
                (LegacyGL.State [] 0))))
     = Ok (LegacyGL.State (va0' :: rest') LegacyGL.QUADS)
     ∧ LegacyGL.array va0'
       = (Some <$> flat_map components
                     (flat_map LegacyGL.triangles
                        [(Vec3 0 0 0, Vec3 1 0 0, Vec3 1 1 0, Vec3 0 1 0)]))
     ∧ Forall2 (fun va va' =>
                  LegacyGL.name va' = LegacyGL.name va
                  ∧ LegacyGL.size va' = LegacyGL.size va
                  ∧ LegacyGL.current va' = LegacyGL.current va
                  ∧ LegacyGL.location va' = LegacyGL.location va
                  ∧ length (LegacyGL.array va')
                    = LegacyGL.size va * (6 * 1))
         [LegacyGL.VertexAttribute "vertex" 3 (replicate 3 0%R) 0 [];
          LegacyGL.VertexAttribute "color" 4 (replicate 4 0%R) 1 []]
         (va0' :: rest'))
  ∧ (4%Z ≠ LegacyGL.QUADS →
     ∃ va0' rest',
       LegacyGL.vertices [Vec3 0 0 0; Vec3 1 0 0; Vec3 1 1 0]
         (LegacyGL.begin 4
            (LegacyGL.add_vertex_attribute 1 "color" 4
               (LegacyGL.add_vertex_attribute 0 "vertex" 3
                  (LegacyGL.State [] 0))))
       = Ok (LegacyGL.State (va0' :: rest') 4)
       ∧ LegacyGL.array va0'
         = (Some <$> flat_map components
                       [Vec3 0 0 0; Vec3 1 0 0; Vec3 1 1 0])).
Proof.
  apply (quads_as_triangles
           (LegacyGL.add_vertex_attribute 1 "color" 4
              (LegacyGL.add_vertex_attribute 0 "vertex" 3
                 (LegacyGL.State [] 0)))
           (LegacyGL.VertexAttribute "vertex" 3 (replicate 3 0%R) 0 [])
           [LegacyGL.VertexAttribute "color" 4 (replicate 4 0%R) 1 []]
           [(Vec3 0 0 0, Vec3 1 0 0, Vec3 1 1 0, Vec3 0 1 0)]
           [Vec3 0 0 0; Vec3 1 0 0; Vec3 1 1 0] 4);
    reflexivity.
Defined.

(** ** legacygl.ts: normals computed by [end()] *)

Section Normals.
Import LegacyGL.

Lemma sub3_points a b :
  sub3 (Some <$> components b) (Some <$> components a)
  = (Some <$> components (sub b a)).
Proof. done. Qed.

Lemma cross3_points u v :
  cross3 (Some <$> components u) (Some <$> components v)
  = (Some <$> components (cross u v)).
Proof. done. Qed.

Lemma normalize3_points u :
  normalize3 (Some <$> components u) = (Some <$> components (normalize u)).
Proof.
  unfold normalize3, normalize, dot, component. simpl.
  by destruct (Rlt_dec 0 _).
Qed.

Lemma slice3_at (pre rest : list (option R)) (p : vec3) :
  slice3 (pre ++ (Some <$> components p) ++ rest) (length pre)
  = (Some <$> components p).
Proof. unfold slice3. rewrite drop_app_length. by destruct p. Qed.

Lemma splice3_at (pre x post n : list (option R)) :
  length x = 3 → splice3 (length pre) n (pre ++ x ++ post) = pre ++ n ++ post.
Proof.
  intros Hx. unfold splice3. rewrite take_app_length. do 2 f_equal.
  replace (length pre + 3) with (length (pre ++ x))
    by (rewrite length_app; lia).
  by rewrite (app_assoc pre x post), drop_app_length.
Qed.

Lemma slice3_offset (pre rest arr : list (option R)) (p : vec3) start :
  arr = pre ++ (Some <$> components p) ++ rest → start = length pre →
  slice3 arr start = (Some <$> components p).
Proof. intros -> ->. apply slice3_at. Qed.

Lemma splice3_offset (pre x post n arr : list (option R)) start :
  arr = pre ++ x ++ post → start = length pre → length x = 3 →
  splice3 start n arr = pre ++ n ++ post.
Proof. intros -> -> Hx. by apply splice3_at. Qed.

Lemma length_positions tris : length (positions tris) = 9 * length tris.
Proof.
  unfold positions. rewrite length_fmap.
  induction tris as [|[[a b] c] tris IH]; [done|].
  cbn [flat_map triangle app]. cbn [flat_map components app length] in *.
  rewrite IH. lia.
Qed.

Lemma length_normals tris : length (normals tris) = 9 * length tris.
Proof.
  unfold normals. rewrite length_fmap.
  induction tris as [|t tris IH]; [done|].
  cbn [flat_map app]. cbn [flat_map components app length] in *.
  rewrite IH. lia.
Qed.

Lemma positions_app l1 l2 : positions (l1 ++ l2) = positions l1 ++ positions l2.
Proof. unfold positions. by rewrite !flat_map_app, fmap_app. Qed.

Lemma normals_app l1 l2 : normals (l1 ++ l2) = normals l1 ++ normals l2.
Proof. unfold normals. by rewrite !flat_map_app, fmap_app. Qed.

Lemma positions_cons a b c tris :
  positions ((a, b, c) :: tris)
  = (Some <$> components a) ++ (Some <$> components b)
    ++ (Some <$> components c) ++ positions tris.
Proof. done. Qed.

Lemma normals_one t :
  normals [t]
  = (Some <$> components (flat_normal t))
    ++ (Some <$> components (flat_normal t))
    ++ (Some <$> components (flat_normal t)).
Proof. done. Qed.

Lemma nine_split (l : list (option R)) :
  9 ≤ length l →
  l = take 3 l ++ take 3 (drop 3 l) ++ take 3 (drop 6 l) ++ drop 9 l
  ∧ length (take 3 l) = 3 ∧ length (take 3 (drop 3 l)) = 3
  ∧ length (take 3 (drop 6 l)) = 3.
Proof.
  intros Hlen. split_and!.
  - rewrite <- (take_drop 3 l) at 1. f_equal.
    rewrite <- (take_drop 3 (drop 3 l)) at 1. f_equal.
    rewrite drop_drop. cbn [Nat.add].
    rewrite <- (take_drop 3 (drop 6 l)) at 1. f_equal.
    by rewrite drop_drop.
  - rewrite length_take. lia.
  - rewrite length_take, length_drop. lia.
  - rewrite length_take, length_drop. lia.
Qed.

Lemma auto_normal_step pos nrm others done a b c todo nrest :
  array pos = positions (done ++ (a, b, c) :: todo) →
  length nrest = 9 * S (length todo) →
  auto_normal_body 1 (length done)
    (pos :: set_array nrm (normals done ++ nrest) :: others)
  = Ok (pos
        :: set_array nrm (normals (done ++ [(a, b, c)]) ++ drop 9 nrest)
        :: others).
Proof.
  intros Hpos Hnrest. unfold auto_normal_body.
  cbn [get lookup list_lookup bind]. rewrite Hpos.
  rewrite positions_app, positions_cons.
  pose proof (length_positions done) as Hdone.
  set (A := Some <$> components a). set (B := Some <$> components b).
  set (C := Some <$> components c).
  assert (HA : length A = 3) by done. assert (HB : length B = 3) by done.
  assert (HC : length C = 3) by done.
  rewrite (slice3_offset (positions done) (B ++ C ++ positions todo) _ a
             (9 * length done)) by (done || lia).
  rewrite (slice3_offset (positions done ++ A) (C ++ positions todo) _ b
             (9 * length done + 3)).
  2:{ by rewrite <- !app_assoc. }
  2:{ rewrite length_app. lia. }
  rewrite (slice3_offset (positions done ++ A ++ B) (positions todo) _ c
             (9 * length done + 6)).
  2:{ by rewrite <- !app_assoc. }
  2:{ rewrite !length_app. lia. }
  rewrite !sub3_points, cross3_points, normalize3_points.
  fold (flat_normal (a, b, c)).
  set (n := Some <$> components (flat_normal (a, b, c))).
  assert (Hn : length n = 3) by done.
  cbn [insert list_insert set_array name size current location array].
  do 3 f_equal.
  destruct (nine_split nrest) as (Hsplit & H1 & H2 & H3); [lia|].
  set (x1 := take 3 nrest) in *. set (x2 := take 3 (drop 3 nrest)) in *.
  set (x3 := take 3 (drop 6 nrest)) in *. set (post := drop 9 nrest) in *.
  pose proof (length_normals done) as Hndone.
  rewrite (splice3_offset (normals done) x1 (x2 ++ x3 ++ post) n
             (normals done ++ nrest) (9 * length done)).
  2:{ by rewrite Hsplit at 1. }
  2:{ lia. }
  2:{ done. }
  rewrite (splice3_offset (normals done ++ n) x2 (x3 ++ post) n
             (normals done ++ n ++ x2 ++ x3 ++ post) (9 * length done + 3)).
  2:{ by rewrite <- !app_assoc. }
  2:{ rewrite length_app. lia. }
  2:{ done. }
  rewrite (splice3_offset (normals done ++ n ++ n) x3 post n
             ((normals done ++ n) ++ n ++ x3 ++ post) (9 * length done + 6)).
  2:{ by rewrite <- !app_assoc. }
  2:{ rewrite !length_app. lia. }
  2:{ done. }
  rewrite normals_app, normals_one. fold n. by rewrite <- !app_assoc.
Qed.

Lemma auto_normal_loop pos nrm others todo : ∀ done nrest,
  array pos = positions (done ++ todo) →
  length nrest = 9 * length todo →
  for_loop (length done) (length todo) (auto_normal_body 1)
    (pos :: set_array nrm (normals done ++ nrest) :: others)
  = Ok (pos :: set_array nrm (normals (done ++ todo)) :: others).
Proof.
  induction todo as [|[[a b] c] todo IH]; intros done nrest Hpos Hnrest.
  - destruct nrest; [|done]. by rewrite !app_nil_r.
  - cbn [length for_loop].
    rewrite (auto_normal_step pos nrm others done a b c todo nrest)
      by done.
    cbn [bind].
    replace (S (length done)) with (length (done ++ [(a, b, c)]))
      by (rewrite length_app; simpl; lia).
    rewrite (IH (done ++ [(a, b, c)]) (drop 9 nrest)).
    + by rewrite <- app_assoc.
    + by rewrite <- app_assoc.
    + rewrite length_drop, Hnrest. cbn [length]. lia.
Qed.

Lemma flat_normal_facts a b c :
  dot (flat_normal (a, b, c)) (sub b a) = 0%R
  ∧ dot (flat_normal (a, b, c)) (sub c a) = 0%R
  ∧ (cross (sub b a) (sub c a) ≠ Vec3 0 0 0 →
     dot (flat_normal (a, b, c)) (flat_normal (a, b, c)) = 1%R)
  ∧ (cross (sub b a) (sub c a) = Vec3 0 0 0 →
     flat_normal (a, b, c) = Vec3 0 0 0).
Proof.
  unfold flat_normal, normalize.
  set (u := sub b a). set (v := sub c a). set (w := cross u v).
  set (L := dot w w).
  assert (HL : (0 <= L)%R).
  { unfold L, dot. nra. }
  set (s := if Rlt_dec 0 L then (1 / sqrt L)%R else L).
  split_and!.
  - unfold dot, w, cross. cbn [c0 c1 c2]. ring.
  - unfold dot, w, cross. cbn [c0 c1 c2]. ring.
  - intros Hw. assert (Hpos : (0 < L)%R).
    { destruct (Rle_lt_or_eq_dec 0 L HL) as [|Hz]; [done|]. exfalso.
      apply Hw. unfold L, dot in Hz. destruct w as [w0 w1 w2].
      cbn [c0 c1 c2] in Hz. f_equal; nra. }
    unfold s. destruct (Rlt_dec 0 L) as [_|]; [|done].
    unfold dot. cbn [c0 c1 c2].
    assert (Hs : (sqrt L * sqrt L = L)%R) by (apply sqrt_sqrt; lra).
    assert (Hs0 : (sqrt L ≠ 0)%R).
    { intros E. rewrite E in Hs. lra. }
    fold (dot w w) in L.
    replace (c0 w * (1 / sqrt L) * (c0 w * (1 / sqrt L))
             + c1 w * (1 / sqrt L) * (c1 w * (1 / sqrt L))
             + c2 w * (1 / sqrt L) * (c2 w * (1 / sqrt L)))%R
      with (L / (sqrt L * sqrt L))%R by (unfold L, dot; field; done).
    rewrite Hs. field. lra.
  - intros Hw. rewrite Hw. cbn [c0 c1 c2]. f_equal; ring.
Qed.

Lemma end_skip (F : nat → list vertex_attribute
                    → outcome (list vertex_attribute))
    (attrs : list vertex_attribute) count : ∀ k,
  (∀ j, k ≤ j → j < k + count → F j attrs = Ok attrs) →
  for_loop k count F attrs = Ok attrs.
Proof.
  induction count as [|count IH]; intros k Hskip; [done|].
  cbn [for_loop]. rewrite Hskip by lia. cbn [bind].
  apply IH. intros j Hj Hj'. apply Hskip; lia.
Qed.
End Normals.

(** X17: [end()] with [AUTO_NORMAL] gives every triangle its normal.  With
    the positions of whole triangles in the first attribute, an attribute
    named [normal] after it whose array is as long, no other attribute of
    that name, and triangles drawn (the mode is [QUADS] or
    [gl.TRIANGLES]), [end()] replaces the array of normals by the normal
    of each triangle, once for each of its three vertices, and leaves
    every other attribute as it was.  The normal of a triangle
    [(a, b, c)] is at right angles to [b - a] and to [c - a]; it has
    length 1 unless the triangle is degenerate, and is 0 then.  Without
    the flag [end()] leaves all arrays as they were. *)
Theorem end_flat_normals (TRIANGLES m : Z)
    (pos nrm : LegacyGL.vertex_attribute)
    (others : list LegacyGL.vertex_attribute)
    (tris : list (vec3 * vec3 * vec3)) :
  m = LegacyGL.QUADS ∨ m = TRIANGLES →
  LegacyGL.name pos ≠ "normal"%string →
  LegacyGL.name nrm = "normal"%string →
  Forall (fun va => LegacyGL.name va ≠ "normal"%string) others →
  LegacyGL.array pos = LegacyGL.positions tris →
  length (LegacyGL.array nrm) = 9 * length tris →
  LegacyGL.end_ TRIANGLES true (LegacyGL.State (pos :: nrm :: others) m)
  = Ok (LegacyGL.State
          (pos :: LegacyGL.set_array nrm (LegacyGL.normals tris) :: others) m)
  ∧ LegacyGL.end_ TRIANGLES false (LegacyGL.State (pos :: nrm :: others) m)
    = Ok (LegacyGL.State (pos :: nrm :: others) m)
  ∧ ∀ a b c,
      LegacyGL.dot (LegacyGL.flat_normal (a, b, c)) (sub b a) = 0%R
      ∧ LegacyGL.dot (LegacyGL.flat_normal (a, b, c)) (sub c a) = 0%R
      ∧ (LegacyGL.cross (sub b a) (sub c a) ≠ Vec3 0 0 0 →
         LegacyGL.dot (LegacyGL.flat_normal (a, b, c))
           (LegacyGL.flat_normal (a, b, c)) = 1%R)
      ∧ (LegacyGL.cross (sub b a) (sub c a) = Vec3 0 0 0 →
         LegacyGL.flat_normal (a, b, c) = Vec3 0 0 0).
Proof.
  intros Hm Hpos Hnrm Hothers Harr Hlen.
  assert (Hmode : (if (m =? LegacyGL.QUADS)%Z then TRIANGLES else m)
                  = TRIANGLES).
  { destruct (Z.eqb_spec m LegacyGL.QUADS) as [|Hne]; [done|].
    by destruct Hm. }
  assert (Hnot : ∀ va, LegacyGL.name va ≠ "normal"%string →
                 String.eqb (LegacyGL.name va) "normal" = false).
  { intros va Hva. by apply String.eqb_neq. }
  assert (Hlater : ∀ attrs j, 2 ≤ j → j < 2 + length others →
    attrs = others →
    ∃ va, (pos :: nrm :: attrs) !! j = Some va
          ∧ LegacyGL.name va ≠ "normal"%string).
  { intros attrs j Hj Hj' ->.
    destruct (lookup_lt_is_Some_2 others (j - 2)) as [va Hva]; [lia|].
    exists va. split.
    - destruct j as [|[|j]]; [lia..|]. cbn [lookup list_lookup].
      by replace (S (S j) - 2) with j in Hva by lia.
    - rewrite Forall_forall in Hothers. apply Hothers.
      by apply list_elem_of_lookup_2 in Hva. }
  split_and!.
  - unfold LegacyGL.end_.
    cbn [LegacyGL.vertex_attributes LegacyGL.mode get lookup list_lookup
         bind length for_loop].
    rewrite Hmode, Z.eqb_refl, (Hnot pos Hpos).
    cbn [andb bind get lookup list_lookup]. rewrite Hnrm.
    change (String.eqb "normal" "normal") with true. cbn [andb].
    rewrite Harr, length_positions.
    replace ((9 * length tris + 8) / 9) with (length tris).
    2:{ symmetry. rewrite Nat.mul_comm, Nat.add_comm, Nat.div_add by done.
        done. }
    assert (Hn : nrm = LegacyGL.set_array nrm
                         (LegacyGL.normals [] ++ LegacyGL.array nrm))
      by (by destruct nrm).
    pose proof (auto_normal_loop pos nrm others tris [] (LegacyGL.array nrm)
                  Harr Hlen) as Hloop.
    rewrite <- Hn in Hloop. change (length []) with 0 in Hloop.
    rewrite Hloop. cbn [bind app].
    rewrite end_skip; [done|].
    intros j Hj Hj'.
    destruct (Hlater others j Hj Hj' eq_refl) as (va & Hva & Hname).
    cbn [lookup list_lookup] in Hva. unfold get.
    destruct j as [|[|j]]; [lia..|]. cbn [lookup list_lookup] in *.
    rewrite Hva. cbn [bind]. rewrite (Hnot va Hname).
    rewrite ?andb_false_r. by cbn [andb].
  - unfold LegacyGL.end_.
    cbn [LegacyGL.vertex_attributes LegacyGL.mode get lookup list_lookup
         bind].
    rewrite end_skip; [done|].
    intros j Hj Hj'. unfold get.
    destruct (lookup_lt_is_Some_2 (pos :: nrm :: others) j) as [va Hva].
    { cbn [length] in *. lia. }
    rewrite Hva. cbn [bind]. rewrite ?andb_false_r. by cbn [andb].
  - intros a b c. apply flat_normal_facts.
Qed.

Lemma end_flat_normals_witness :
  LegacyGL.end_ 4 true
    (LegacyGL.State
       [LegacyGL.VertexAttribute "vertex" 3 (replicate 3 0%R) 0
          (LegacyGL.positions [(Vec3 0 0 0, Vec3 1 0 0, Vec3 0 1 0)]);
        LegacyGL.VertexAttribute "normal" 3 (replicate 3 0%R) 1
          (replicate 9 (Some 0%R))] 4)
  = Ok (LegacyGL.State
          [LegacyGL.VertexAttribute "vertex" 3 (replicate 3 0%R) 0
             (LegacyGL.positions [(Vec3 0 0 0, Vec3 1 0 0, Vec3 0 1 0)]);
           LegacyGL.set_array
             (LegacyGL.VertexAttribute "normal" 3 (replicate 3 0%R) 1
                (replicate 9 (Some 0%R)))
             (LegacyGL.normals [(Vec3 0 0 0, Vec3 1 0 0, Vec3 0 1 0)])] 4)
  ∧ LegacyGL.end_ 4 false
      (LegacyGL.State
         [LegacyGL.VertexAttribute "vertex" 3 (replicate 3 0%R) 0
            (LegacyGL.positions [(Vec3 0 0 0, Vec3 1 0 0, Vec3 0 1 0)]);
          LegacyGL.VertexAttribute "normal" 3 (replicate 3 0%R) 1
            (replicate 9 (Some 0%R))] 4)
    = Ok (LegacyGL.State
            [LegacyGL.VertexAttribute "vertex" 3 (replicate 3 0%R) 0
               (LegacyGL.positions [(Vec3 0 0 0, Vec3 1 0 0, Vec3 0 1 0)]);
             LegacyGL.VertexAttribute "normal" 3 (replicate 3 0%R) 1
               (replicate 9 (Some 0%R))] 4)
  ∧ ∀ a b c,
      LegacyGL.dot (LegacyGL.flat_normal (a, b, c)) (sub b a) = 0%R
      ∧ LegacyGL.dot (LegacyGL.flat_normal (a, b, c)) (sub c a) = 0%R
      ∧ (LegacyGL.cross (sub b a) (sub c a) ≠ Vec3 0 0 0 →
         LegacyGL.dot (LegacyGL.flat_normal (a, b, c))
           (LegacyGL.flat_normal (a, b, c)) = 1%R)
      ∧ (LegacyGL.cross (sub b a) (sub c a) = Vec3 0 0 0 →
         LegacyGL.flat_normal (a, b, c) = Vec3 0 0 0).
Proof.
  apply (end_flat_normals 4 4
           (LegacyGL.VertexAttribute "vertex" 3 (replicate 3 0%R) 0
              (LegacyGL.positions [(Vec3 0 0 0, Vec3 1 0 0, Vec3 0 1 0)]))
           (LegacyGL.VertexAttribute "normal" 3 (replicate 3 0%R) 1
              (replicate 9 (Some 0%R)))
           [] [(Vec3 0 0 0, Vec3 1 0 0, Vec3 0 1 0)]).
  - right. reflexivity.
  - simpl. discriminate.
  - reflexivity.
  - constructor.
  - reflexivity.
  - reflexivity.
Defined.
